(** * Leom, the reactive core of MicroView (src/signal.js)

    A shallow embedding of the dependency-tracking engine: signals, effects,
    memos, roots, cleanups and the batched microtask scheduler.

    The engine's module-level variables ([currentEffect], [effectQueue],
    [isBatching]) and the objects its closures capture live in one [state]
    record that every operation threads explicitly.  User callbacks (the
    functions handed to [createEffect], [createMemo], [createRoot] and
    [onCleanup]) are terms of [prog], a script of calls into the engine, and
    are run by the interpreter [exec]. *)

From Stdlib Require Import List ZArith Bool Arith Lia String.
Import ListNotations.

Set Implicit Arguments.

(** ** JavaScript values and [===] *)

Inductive jsval : Type :=
| JUndefined
| JNull
| JBool (b : bool)
| JNum (z : Z)
| JNaN
| JStr (s : string).

(** [a === b]; [NaN] is not identical to itself. *)
Definition strict_eq (a b : jsval) : bool :=
  match a, b with
  | JUndefined, JUndefined => true
  | JNull, JNull => true
  | JBool x, JBool y => Bool.eqb x y
  | JNum x, JNum y => Z.eqb x y
  | JStr x, JStr y => String.eqb x y
  | _, _ => false
  end.

(** ** Identities

    A [CompId] names one computation object (the function object [effect] or
    [memoEffect], or a [rootContext]); a [SrcId] names one subscriber [Set]
    together with the closure variable [value] next to it (a signal, or the
    cache of a memo). *)

Definition CompId := nat.
Definition SrcId := nat.

(** ** User code *)

Inductive prog : Type :=
| Ret (v : jsval)                                             (* return v *)
| Throw (e : jsval)                                           (* throw e *)
| Perform (v : jsval) (k : prog)                              (* a side effect of the callback itself, e.g. seen.push(v) *)
| Call_signal (s : SrcId) (arg : option jsval) (k : jsval -> prog)   (* s() or s(v) *)
| Call_memoGetter (m : SrcId) (k : jsval -> prog)             (* m() *)
| Call_onCleanup (fn : prog) (k : prog)                       (* onCleanup(fn) *)
| Call_createSignal (init : jsval) (k : SrcId -> prog)        (* const s = createSignal(init) *)
| Call_createEffect (fn : prog) (k : CompId -> prog)          (* const d = createEffect(fn) *)
| Call_createMemo (fn : prog) (k : SrcId -> prog)             (* const m = createMemo(fn) *)
| Call_createRoot (fn : CompId -> prog) (k : CompId -> prog)  (* const d = createRoot(dispose => fn) *)
| Call_dispose (d : CompId) (k : prog).                       (* d(), a disposer obtained above *)

(** ** Engine state *)

(** What [console.error] and [console.warn] print. *)
Inductive message : Type :=
| CycleDetected (eff : CompId)
| EffectFailed (e : jsval)
| CleanupOutside
| RootFailed (e : jsval)
| RootCleanupFailed (e : jsval).

(** Ghost history, not in the source, newest event first: which computation
    functions were invoked, which tracked reads recorded an edge, which
    computations had their edges torn down, and the side effects user code
    performed. *)
Inductive event : Type :=
| EvRun (c : CompId)
| EvTrack (c : CompId) (s : SrcId)
| EvClear (c : CompId)
| EvUser (v : jsval).

(** The closure of one signal ([value], [subscribers]) or of one memo
    ([value], [initialized], [memoSubscribers]); a signal never consults
    [initialized]. *)
Record source : Type := mkSource {
  value : jsval;
  initialized : bool;
  subscribers : list CompId
}.

Inductive shape : Type :=
| Effect (fn : prog)
| Memo (fn : prog) (cell : SrcId)
| Root.

Record comp : Type := mkComp {
  body : shape;
  dependencies : list SrcId;
  cleanups : list prog;
  disposed : bool;
  running : bool
}.

Record state : Type := mkState {
  currentEffect : option CompId;
  effectQueue : list CompId;
  isBatching : bool;
  microtasks : nat;               (* flush callbacks handed to queueMicrotask, not yet started *)
  sources : SrcId -> source;
  next_source : nat;
  comps : CompId -> comp;
  next_comp : nat;
  console : list message;
  history : list event
}.

Definition pristine_source : source := mkSource JUndefined false [].
Definition pristine_comp : comp := mkComp Root [] [] false false.

Definition initial : state :=
  mkState None [] false 0 (fun _ => pristine_source) 0 (fun _ => pristine_comp) 0 [] [].

(** *** Field updates *)

Definition set_currentEffect (c : option CompId) (st : state) : state :=
  mkState c (effectQueue st) (isBatching st) (microtasks st) (sources st)
    (next_source st) (comps st) (next_comp st) (console st) (history st).

Definition set_effectQueue (q : list CompId) (st : state) : state :=
  mkState (currentEffect st) q (isBatching st) (microtasks st) (sources st)
    (next_source st) (comps st) (next_comp st) (console st) (history st).

Definition set_batching (b : bool) (n : nat) (st : state) : state :=
  mkState (currentEffect st) (effectQueue st) b n (sources st)
    (next_source st) (comps st) (next_comp st) (console st) (history st).

Definition set_sources (f : SrcId -> source) (n : nat) (st : state) : state :=
  mkState (currentEffect st) (effectQueue st) (isBatching st) (microtasks st) f
    n (comps st) (next_comp st) (console st) (history st).

Definition set_comps (f : CompId -> comp) (n : nat) (st : state) : state :=
  mkState (currentEffect st) (effectQueue st) (isBatching st) (microtasks st)
    (sources st) (next_source st) f n (console st) (history st).

Definition log (m : message) (st : state) : state :=
  mkState (currentEffect st) (effectQueue st) (isBatching st) (microtasks st)
    (sources st) (next_source st) (comps st) (next_comp st) (console st ++ [m])
    (history st).

Definition note (ev : event) (st : state) : state :=
  mkState (currentEffect st) (effectQueue st) (isBatching st) (microtasks st)
    (sources st) (next_source st) (comps st) (next_comp st) (console st)
    (ev :: history st).

Definition upd (A : Type) (f : nat -> A) (i : nat) (g : A -> A) : nat -> A :=
  fun j => if Nat.eqb j i then g (f j) else f j.

Definition upd_source (s : SrcId) (g : source -> source) (st : state) : state :=
  set_sources (upd (sources st) s g) (next_source st) st.

Definition upd_comp (c : CompId) (g : comp -> comp) (st : state) : state :=
  set_comps (upd (comps st) c g) (next_comp st) st.

(** *** JavaScript [Set]s of identities: insertion-ordered, no duplicates *)

Definition set_add (x : nat) (l : list nat) : list nat :=
  if in_dec Nat.eq_dec x l then l else l ++ [x].

Definition set_delete (x : nat) (l : list nat) : list nat :=
  filter (fun y => negb (Nat.eqb y x)) l.

Definition with_value (v : jsval) (src : source) : source :=
  mkSource v (initialized src) (subscribers src).
Definition with_cache (v : jsval) (src : source) : source :=
  mkSource v true (subscribers src).
Definition add_subscriber (c : CompId) (src : source) : source :=
  mkSource (value src) (initialized src) (set_add c (subscribers src)).
Definition delete_subscriber (c : CompId) (src : source) : source :=
  mkSource (value src) (initialized src) (set_delete c (subscribers src)).

Definition add_dependency (s : SrcId) (cp : comp) : comp :=
  mkComp (body cp) (set_add s (dependencies cp)) (cleanups cp) (disposed cp) (running cp).
Definition clear_dependencies (cp : comp) : comp :=
  mkComp (body cp) [] (cleanups cp) (disposed cp) (running cp).
Definition push_cleanup (fn : prog) (cp : comp) : comp :=
  mkComp (body cp) (dependencies cp) (cleanups cp ++ [fn]) (disposed cp) (running cp).
Definition clear_cleanups (cp : comp) : comp :=
  mkComp (body cp) (dependencies cp) [] (disposed cp) (running cp).
Definition with_disposed (b : bool) (cp : comp) : comp :=
  mkComp (body cp) (dependencies cp) (cleanups cp) b (running cp).
Definition with_running (b : bool) (cp : comp) : comp :=
  mkComp (body cp) (dependencies cp) (cleanups cp) (disposed cp) b.

(** ** Operations that run no user code *)

(** [scheduleUpdate(effect)], up to the call of [queueMicrotask]; the
    callback it registers is [flush] below. *)
Definition scheduleUpdate (effect : CompId) (st : state) : state :=
  let st1 := set_effectQueue (set_add effect (effectQueue st)) st in
  if isBatching st1 then st1
  else set_batching true (S (microtasks st1)) st1.

(** [subscribers.forEach(scheduleUpdate)] *)
Definition notify (s : SrcId) (st : state) : state :=
  fold_left (fun acc eff => scheduleUpdate eff acc) (subscribers (sources st s)) st.

(** [subscribers.add(currentEffect); currentEffect.dependencies.add(subscribers)] *)
Definition track (s : SrcId) (st : state) : state :=
  match currentEffect st with
  | None => st
  | Some c =>
      note (EvTrack c s)
        (upd_comp c (add_dependency s) (upd_source s (add_subscriber c) st))
  end.

(** The function [signal] returned by [createSignal]: [arg = None] is the
    call [signal()], [arg = Some v] the call [signal(v)]. *)
Definition signal (s : SrcId) (arg : option jsval) (st : state) : jsval * state :=
  let st1 :=
    match arg with
    | Some newValue =>
        if strict_eq newValue (value (sources st s)) then st
        else notify s (upd_source s (with_value newValue) st)
    | None => st
    end in
  let st2 := track s st1 in
  (value (sources st2 s), st2).

(** [memoGetter] *)
Definition memoGetter (m : SrcId) (st : state) : jsval * state :=
  let st1 := track m st in
  (value (sources st1 m), st1).

Definition onCleanup (fn : prog) (st : state) : state :=
  match currentEffect st with
  | Some c => upd_comp c (push_cleanup fn) st
  | None => log CleanupOutside st
  end.

(** [createSignal(initialValue)]: a fresh closure. *)
Definition createSignal (initialValue : jsval) (st : state) : SrcId * state :=
  let s := next_source st in
  (s, set_sources (upd (sources st) s (fun _ => mkSource initialValue true [])) (S s) st).

(** A fresh cache for [createMemo]: [let value; let initialized = false;
    const memoSubscribers = new Set()]. *)
Definition new_cell (st : state) : SrcId * state :=
  let s := next_source st in
  (s, set_sources (upd (sources st) s (fun _ => pristine_source)) (S s) st).

(** A fresh computation object with [dependencies = new Set()],
    [cleanups = []], [disposed = false], [running = false]. *)
Definition new_comp (b : shape) (st : state) : CompId * state :=
  let c := next_comp st in
  (c, set_comps (upd (comps st) c (fun _ => mkComp b [] [] false false)) (S c) st).

(** [effect.dependencies.forEach((depSet) => depSet.delete(effect));
    effect.dependencies.clear()] *)
Definition unsubscribe (e : CompId) (st : state) : state :=
  let st1 :=
    fold_left (fun acc depSet => upd_source depSet (delete_subscriber e) acc)
      (dependencies (comps st e)) st in
  note (EvClear e) (upd_comp e clear_dependencies st1).

(** The tail of [memoEffect]'s [try] block once [fn()] has returned. *)
Definition commit (cell : SrcId) (newValue : jsval) (st : state) : state :=
  let src := sources st cell in
  if negb (initialized src) || negb (strict_eq newValue (value src))
  then notify cell (upd_source cell (with_cache newValue) st)
  else st.

(** ** A state-and-exception monad for code that may run callbacks

    [None] means no result: the interpreter ran out of fuel, or the script
    used a handle that no closure stands behind. *)

Inductive outcome (A : Type) : Type :=
| Normal (a : A)
| Raised (e : jsval).
Arguments Raised {A} e.

Definition M (A : Type) : Type := state -> option (outcome A * state).

Definition ret (A : Type) (a : A) : M A := fun st => Some (Normal a, st).
Definition raise (A : Type) (e : jsval) : M A := fun st => Some (Raised e, st).
Definition stuck (A : Type) : M A := fun _ => None.

Definition bind (A B : Type) (m : M A) (f : A -> M B) : M B :=
  fun st =>
    match m st with
    | None => None
    | Some (Normal a, st1) => f a st1
    | Some (Raised e, st1) => Some (Raised e, st1)
    end.

Definition gets (A : Type) (f : state -> A) : M A := fun st => Some (Normal (f st), st).
Definition lift (f : state -> state) : M unit := fun st => Some (Normal tt, f st).
Definition lift_val (A : Type) (f : state -> A * state) : M A :=
  fun st => let (a, st1) := f st in Some (Normal a, st1).

(** [try { m } finally { h }] *)
Definition finally (A : Type) (m : M A) (h : state -> state) : M A :=
  fun st =>
    match m st with
    | None => None
    | Some (o, st1) => Some (o, h st1)
    end.

(** [try { m } catch (e) { h e }] *)
Definition catch (A : Type) (m : M A) (h : jsval -> M A) : M A :=
  fun st =>
    match m st with
    | None => None
    | Some (Normal a, st1) => Some (Normal a, st1)
    | Some (Raised e, st1) => h e st1
    end.

Declare Scope engine_scope.
Delimit Scope engine_scope with engine.
Notation "x <- m ;; k" := (bind m (fun x => k))
  (at level 61, m at next level, right associativity) : engine_scope.
Notation "m ;; k" := (bind m (fun _ => k))
  (at level 61, right associativity) : engine_scope.
Local Open Scope engine_scope.

(** [e.stack || e], the argument of [console.error] in the two [catch]
    clauses that print a caught exception.  Reading a property of [null] or
    of [undefined] throws a [TypeError]; the other values of [jsval] are
    primitives without a [stack], so the expression is [e] itself. *)
Definition nullish (e : jsval) : bool :=
  match e with
  | JUndefined | JNull => true
  | _ => false
  end.

Definition stack_type_error (e : jsval) : jsval :=
  match e with
  | JNull => JStr "TypeError: Cannot read properties of null (reading 'stack')"
  | _ => JStr "TypeError: Cannot read properties of undefined (reading 'stack')"
  end.

Definition stack_or_self (e : jsval) : M jsval :=
  if nullish e then raise jsval (stack_type_error e) else ret e.

(** ** Operations that run callbacks

    [call] invokes a user function; the interpreter passes itself with less
    fuel. *)

Section Engine.

Variable call : prog -> M jsval.

(** [cs.forEach((c) => c())], over the elements present when the loop
    starts: the arrays are only appended to while a loop over them runs. *)
Fixpoint run_cleanups (cs : list prog) : M unit :=
  match cs with
  | [] => ret tt
  | c :: rest => call c ;; run_cleanups rest
  end.

(** The function [effect] built by [createEffect(fn)]. *)
Definition effect (e : CompId) (fn : prog) : M unit :=
  cs <- gets (fun st => cleanups (comps st e)) ;;
  run_cleanups cs ;;
  lift (upd_comp e clear_cleanups) ;;
  lift (unsubscribe e) ;;
  prevEffect <- gets currentEffect ;;
  lift (set_currentEffect (Some e)) ;;
  finally (call fn ;; ret tt) (set_currentEffect prevEffect).

(** The function [memoEffect] built by [createMemo(fn)]. *)
Definition memoEffect (e : CompId) (fn : prog) (cell : SrcId) : M unit :=
  cs <- gets (fun st => cleanups (comps st e)) ;;
  run_cleanups cs ;;
  lift (upd_comp e clear_cleanups) ;;
  lift (unsubscribe e) ;;
  prevEffect <- gets currentEffect ;;
  lift (set_currentEffect (Some e)) ;;
  finally (newValue <- call fn ;; lift (commit cell newValue))
          (set_currentEffect prevEffect).

Definition createEffect (fn : prog) : M CompId :=
  e <- lift_val (new_comp (Effect fn)) ;;
  lift (note (EvRun e)) ;;
  effect e fn ;;                       (* Initial run *)
  ret e.

(** The disposer returned by [createEffect]. *)
Definition dispose_effect (e : CompId) : M unit :=
  d <- gets (fun st => disposed (comps st e)) ;;
  if d then ret tt
  else
    lift (upd_comp e (with_disposed true)) ;;
    cs <- gets (fun st => cleanups (comps st e)) ;;
    run_cleanups cs ;;
    lift (unsubscribe e) ;;
    lift (fun st => set_effectQueue (set_delete e (effectQueue st)) st).

Definition createMemo (fn : prog) : M SrcId :=
  cell <- lift_val new_cell ;;
  e <- lift_val (new_comp (Memo fn cell)) ;;
  lift (note (EvRun e)) ;;
  memoEffect e fn cell ;;              (* Initial computation *)
  ret cell.

Definition createRoot (fn : CompId -> prog) : M CompId :=
  r <- lift_val (new_comp Root) ;;
  prevEffect <- gets currentEffect ;;
  lift (set_currentEffect (Some r)) ;;
  finally (catch (call (fn r) ;; ret tt)
                 (fun e => v <- stack_or_self e ;; lift (log (RootFailed v))))
          (set_currentEffect prevEffect) ;;
  ret r.

(** [rootCleanup.forEach((c) => { try { c() } catch (e) { console.error(...) } })] *)
Fixpoint run_root_cleanups (cs : list prog) : M unit :=
  match cs with
  | [] => ret tt
  | c :: rest =>
      catch (call c ;; ret tt) (fun e => lift (log (RootCleanupFailed e))) ;;
      run_root_cleanups rest
  end.

(** The function [dispose] of [createRoot]. *)
Definition dispose_root (r : CompId) : M unit :=
  d <- gets (fun st => disposed (comps st r)) ;;
  if d then ret tt
  else
    lift (upd_comp r (with_disposed true)) ;;
    cs <- gets (fun st => cleanups (comps st r)) ;;
    run_root_cleanups cs ;;
    lift (upd_comp r clear_cleanups).

(** A disposer handle: effects and roots have one, memos do not. *)
Definition dispose (d : CompId) : M unit :=
  b <- gets (fun st => body (comps st d)) ;;
  match b with
  | Effect _ => dispose_effect d
  | Root => dispose_root d
  | Memo _ _ => stuck unit
  end.

(** [eff()] inside the flush: a [rootContext] that found its way into the
    queue is not callable. *)
Definition invoke (eff : CompId) : M unit :=
  b <- gets (fun st => body (comps st eff)) ;;
  match b with
  | Effect fn => lift (note (EvRun eff)) ;; effect eff fn
  | Memo fn cell => lift (note (EvRun eff)) ;; memoEffect eff fn cell
  | Root => raise unit (JStr "TypeError: eff is not a function")
  end.

(** One iteration of the [for ... of] loop of the flush callback. *)
Definition flush_one (eff : CompId) : M unit :=
  lift (fun st => set_effectQueue (set_delete eff (effectQueue st)) st) ;;
  d <- gets (fun st => disposed (comps st eff)) ;;
  if d then ret tt
  else
    r <- gets (fun st => running (comps st eff)) ;;
    if r then lift (log (CycleDetected eff))
    else
      finally
        (catch (lift (upd_comp eff (with_running true)) ;; invoke eff)
               (fun e => v <- stack_or_self e ;; lift (log (EffectFailed v))))
        (upd_comp eff (with_running false)).

Fixpoint flush_loop (snapshot : list CompId) : M unit :=
  match snapshot with
  | [] => ret tt
  | eff :: rest => flush_one eff ;; flush_loop rest
  end.

(** The callback handed to [queueMicrotask], started by the event loop. *)
Definition flush : M unit :=
  lift (fun st => set_batching false (pred (microtasks st)) st) ;;
  snapshot <- gets effectQueue ;;      (* Array.from(effectQueue) *)
  flush_loop snapshot.

End Engine.

(** ** The interpreter of user code *)

Definition guard (b : state -> bool) : M unit :=
  fun st => if b st then Some (Normal tt, st) else None.

Fixpoint exec (fuel : nat) (p : prog) : M jsval :=
  match fuel with
  | O => stuck jsval
  | S n =>
      match p with
      | Ret v => ret v
      | Throw e => raise jsval e
      | Perform v k => lift (note (EvUser v)) ;; exec n k
      | Call_signal s arg k =>
          guard (fun st => s <? next_source st) ;;
          v <- lift_val (signal s arg) ;; exec n (k v)
      | Call_memoGetter m k =>
          guard (fun st => m <? next_source st) ;;
          v <- lift_val (memoGetter m) ;; exec n (k v)
      | Call_onCleanup fn k => lift (onCleanup fn) ;; exec n k
      | Call_createSignal init k =>
          s <- lift_val (createSignal init) ;; exec n (k s)
      | Call_createEffect fn k =>
          d <- createEffect (exec n) fn ;; exec n (k d)
      | Call_createMemo fn k =>
          m <- createMemo (exec n) fn ;; exec n (k m)
      | Call_createRoot fn k =>
          d <- createRoot (exec n) fn ;; exec n (k d)
      | Call_dispose d k =>
          guard (fun st => d <? next_comp st) ;;
          dispose (exec n) d ;; exec n k
      end
  end.

(** The event loop starts one pending flush callback. *)
Definition microtask (fuel : nat) (st : state) : option state :=
  match microtasks st with
  | O => None
  | S _ =>
      match flush (exec fuel) st with
      | Some (_, st1) => Some st1
      | None => None
      end
  end.

(** A synchronous script run to completion from [st], then [n] turns of the
    microtask queue. *)
Fixpoint turns (fuel n : nat) (st : state) : option state :=
  match n with
  | O => Some st
  | S k =>
      match microtask fuel st with
      | Some st1 => turns fuel k st1
      | None => None
      end
  end.

Definition run_script (fuel : nat) (p : prog) (st : state) : option state :=
  match exec fuel p st with
  | Some (_, st1) => Some st1
  | None => None
  end.

(** Whether a run came back at all. *)
Definition returns (A : Type) (r : option A) : bool :=
  match r with
  | Some _ => true
  | None => false
  end.

(** *** Observations on a state *)

Definition performed (st : state) : list jsval :=
  flat_map (fun ev => match ev with EvUser v => [v] | _ => [] end) (rev (history st)).

Fixpoint runs_of (c : CompId) (h : list event) : nat :=
  match h with
  | [] => 0
  | EvRun c' :: rest => (if Nat.eqb c' c then 1 else 0) + runs_of c rest
  | _ :: rest => runs_of c rest
  end.

(** The documentation's end-to-end example:
    [const c = createSignal(0); createEffect(() => seen.push(c())); c(1); c(2)]. *)
Definition example_batching : prog :=
  Call_createSignal (JNum 0) (fun c =>
  Call_createEffect (Call_signal c None (fun v => Perform v (Ret JUndefined))) (fun _ =>
  Call_signal c (Some (JNum 1)) (fun _ =>
  Call_signal c (Some (JNum 2)) (fun _ => Ret JUndefined)))).

(** * Notions the statements are written in *)

(** What [scheduleUpdate] leaves alone. *)
Definition same_heap (st st' : state) : Prop :=
  currentEffect st' = currentEffect st /\
  sources st' = sources st /\ next_source st' = next_source st /\
  comps st' = comps st /\ next_comp st' = next_comp st /\
  console st' = console st /\ history st' = history st.

Definition enqueue_all (l : list CompId) (st : state) : state :=
  fold_left (fun acc eff => scheduleUpdate eff acc) l st.

(** A state in which computation 0, freshly made, is the ambient context and
    signal 0 holds 0. *)
Definition inside_effect_0 : state :=
  set_currentEffect (Some 0)
    (snd (new_comp (Effect (Ret JUndefined)) (snd (createSignal (JNum 0) initial)))).

(** Identities are only ever added. *)
Definition grows (st st' : state) : Prop :=
  next_comp st <= next_comp st' /\ next_source st <= next_source st'.

(** A relation between the state before and the state after is [stable] when
    it is a preorder that holds across each elementary step of the engine and
    across an ambient-context scope whose inside it holds across. *)
Record stable (T : state -> state -> Prop) : Prop := mkStable {
  st_refl : forall st, T st st;
  st_trans : forall a b c, T a b -> T b c -> T a c;
  st_grows : forall st st', T st st' -> grows st st';
  st_user : forall v st, T st (note (EvUser v) st);
  st_signal : forall s arg st, s < next_source st -> T st (snd (signal s arg st));
  st_memoGetter : forall m st, m < next_source st -> T st (snd (memoGetter m st));
  st_onCleanup : forall fn st, T st (onCleanup fn st);
  st_createSignal : forall v st, T st (snd (createSignal v st));
  st_new_cell : forall st, T st (snd (new_cell st));
  st_new_run : forall b st, T st (note (EvRun (next_comp st)) (snd (new_comp b st)));
  st_new_root : forall st, T st (snd (new_comp Root st));
  st_clear_cleanups : forall e st, T st (upd_comp e clear_cleanups st);
  st_unsubscribe : forall e st, T st (unsubscribe e st);
  st_commit : forall cell v st, T st (commit cell v st);
  st_disposed : forall d st, d < next_comp st -> T st (upd_comp d (with_disposed true) st);
  st_dequeue : forall e st, T st (set_effectQueue (set_delete e (effectQueue st)) st);
  st_log : forall m st, (forall c, m <> CycleDetected c) -> T st (log m st);
  st_scope : forall c st st1, c < next_comp st ->
      T (set_currentEffect (Some c) st) st1 ->
      T st (set_currentEffect (currentEffect st) st1)
}.

(** What the scheduler's flush needs on top. *)
Record stable_flush (T : state -> state -> Prop) : Prop := mkStableFlush {
  sf_begin : forall st, T st (set_batching false (pred (microtasks st)) st);
  sf_run : forall eff st, eff < next_comp st -> T st (note (EvRun eff) st);
  sf_running : forall eff b st, T st (upd_comp eff (with_running b) st);
  sf_log : forall m st, T st (log m st)
}.

(** A step that allocates nothing, swaps no context, flips no flag of a
    computation, prints no cycle report and invokes no computation. *)
Definition quietly (st st' : state) : Prop :=
  currentEffect st' = currentEffect st /\
  next_comp st' = next_comp st /\
  next_source st' = next_source st /\
  (forall c, body (comps st' c) = body (comps st c) /\
             disposed (comps st' c) = disposed (comps st c) /\
             running (comps st' c) = running (comps st c)) /\
  (exists msgs, console st' = console st ++ msgs /\ forall c, ~ In (CycleDetected c) msgs) /\
  (exists h, history st' = h ++ history st /\ forall c, ~ In (EvRun c) h).

(** What a run of user code can and cannot do: it leaves the ambient context
    as it found it, changes the shape of no existing computation, undoes no
    disposal, marks nothing as running, prints no cycle report, and invokes
    only computations it has itself created. *)
Definition respects (st st' : state) : Prop :=
  grows st st' /\
  currentEffect st' = currentEffect st /\
  (forall c, c < next_comp st -> body (comps st' c) = body (comps st c)) /\
  (forall c, c < next_comp st -> disposed (comps st c) = true -> disposed (comps st' c) = true) /\
  (forall c, running (comps st' c) = true -> running (comps st c) = true) /\
  (exists msgs, console st' = console st ++ msgs /\ forall c, ~ In (CycleDetected c) msgs) /\
  (exists h, history st' = h ++ history st /\ forall c, In (EvRun c) h -> next_comp st <= c).

(** The same for a turn of the scheduler, which does invoke existing
    computations, flips [running] back and forth and may print anything. *)
Definition flush_respects (st st' : state) : Prop :=
  grows st st' /\
  currentEffect st' = currentEffect st /\
  (forall c, c < next_comp st -> body (comps st' c) = body (comps st c)) /\
  (forall c, c < next_comp st -> disposed (comps st c) = true -> disposed (comps st' c) = true).

(** A memo made inside an effect made inside a root whose setup then throws,
    all started while computation 0 is the ambient context. *)
Definition nested_scopes : prog :=
  Call_createRoot (fun _ =>
    Call_createEffect
      (Call_createMemo (Call_signal 0 None (fun v => Ret v)) (fun m =>
       Call_memoGetter m (fun _ => Throw (JStr "boom"))))
      (fun _ => Ret JUndefined))
    (fun _ => Ret JUndefined).

(** The sources a computation has recorded since its edges were last torn
    down, read off the history. *)
Fixpoint tracked (c : CompId) (h : list event) : list SrcId :=
  match h with
  | [] => []
  | EvClear c' :: rest => if Nat.eqb c' c then [] else tracked c rest
  | EvTrack c' s :: rest => if Nat.eqb c' c then s :: tracked c rest else tracked c rest
  | _ :: rest => tracked c rest
  end.

Record wf (st : state) : Prop := mkWf {
  (* at most one flush callback is pending, and [isBatching] says whether one is *)
  wf_batching : microtasks st = if isBatching st then 1 else 0;
  wf_queue_nodup : NoDup (effectQueue st);
  wf_queue_valid : forall c, In c (effectQueue st) -> c < next_comp st;
  wf_current : forall c, currentEffect st = Some c -> c < next_comp st;
  wf_fresh_comp : forall c, next_comp st <= c -> dependencies (comps st c) = [];
  wf_fresh_source : forall s, next_source st <= s -> subscribers (sources st s) = [];
  (* every edge is recorded on both sides *)
  wf_edges : forall c s,
    In c (subscribers (sources st s)) <-> In s (dependencies (comps st c));
  (* the dependency set is what was read since the last teardown *)
  wf_tracked : forall c s,
    In s (dependencies (comps st c)) <-> In s (tracked c (history st))
}.

(** Well-formedness survives, and identities are only added. *)
Definition keeps_wf (st st' : state) : Prop := grows st st' /\ (wf st -> wf st').

(** The state in which the body of [e] starts, given the state [st1] its
    cleanups left behind: cleanup list emptied, edges torn down, [e] installed
    as the ambient context. *)
Definition body_state (e : CompId) (st1 : state) : state :=
  set_currentEffect (Some e) (unsubscribe e (upd_comp e clear_cleanups st1)).

Definition unit_outcome (ob : outcome jsval) : outcome unit :=
  match ob with
  | Normal _ => Normal tt
  | Raised x => Raised x
  end.

(** The state a script leaves behind (the start state if it has no result). *)
Definition after (fuel : nat) (p : prog) (st : state) : state :=
  match exec fuel p st with
  | Some (_, st') => st'
  | None => st
  end.

Definition after_turn (fuel : nat) (st : state) : state :=
  match microtask fuel st with
  | Some st' => st'
  | None => st
  end.

Definition branch (a b c : SrcId) : prog :=
  Call_signal a None (fun v =>
  Call_onCleanup (Perform (JStr "first") (Ret JUndefined)) (
  Call_onCleanup (Perform (JStr "second") (Ret JUndefined)) (
  Perform (JStr "body") (
  if strict_eq v (JBool true)
  then Call_signal b None (fun x => Ret x)
  else Call_signal c None (fun x => Ret x))))).

(** Signals [a = 0], [b = 1], [c = 2], effect [0] on [a() ? b() : c()], then
    [a(false)]. *)
Definition branching : prog :=
  Call_createSignal (JBool true) (fun a =>
  Call_createSignal (JNum 1) (fun b =>
  Call_createSignal (JNum 2) (fun c =>
  Call_createEffect (branch a b c) (fun _ =>
  Call_signal a (Some (JBool false)) (fun _ => Ret JUndefined))))).

Definition branching_state : state := after 30 branching initial.

Definition is_callable (b : shape) : bool :=
  match b with
  | Root => false
  | _ => true
  end.

Definition dequeue (eff : CompId) (st : state) : state :=
  set_effectQueue (set_delete eff (effectQueue st)) st.

(** The number of invocations of [e] that one iteration adds: one when the
    iteration is [e]'s own and [e] is neither disposed nor running and is
    callable, none otherwise. *)
Definition runs_in_turn (x e : CompId) (st : state) : nat :=
  if Nat.eqb x e && negb (disposed (comps st x)) && negb (running (comps st x))
     && is_callable (body (comps st x))
  then 1 else 0.

(** A run of synchronous writes [s1(v1); s2(v2); ...]. *)
Definition writes (ws : list (SrcId * jsval)) (st : state) : state :=
  fold_left (fun acc w => snd (signal (fst w) (Some (snd w)) acc)) ws st.

(** [const a = createSignal(1), b = createSignal(2);
    createEffect(() => seen.push(a() + b())); a(10); b(20);] then one flush:
    the effect has run twice in all, once at creation and once in the flush,
    and saw both new values. *)
Definition two_signals : prog :=
  Call_createSignal (JNum 1) (fun a =>
  Call_createSignal (JNum 2) (fun b =>
  Call_createEffect
    (Call_signal a None (fun x => Call_signal b None (fun y =>
       match x, y with
       | JNum n, JNum m => Perform (JNum (n + m)) (Ret JUndefined)
       | _, _ => Ret JUndefined
       end)))
    (fun _ => Ret JUndefined))).

(** [d = createEffect(() => { s(); onCleanup(...) }); d(); d(); s(1)] and a
    flush: one cleanup call, no second invocation, nothing queued. *)
Definition dispose_twice : prog :=
  Call_createSignal (JNum 0) (fun s =>
  Call_createEffect
    (Call_signal s None (fun _ =>
     Call_onCleanup (Perform (JStr "cleanup") (Ret JUndefined)) (Ret JUndefined)))
    (fun d =>
  Call_dispose d (
  Call_dispose d (
  Call_signal s (Some (JNum 1)) (fun _ => Ret JUndefined))))).


(** [const s = createSignal(2); const m = createMemo(() => s() % 2);
    createEffect(() => seen.push(m()))], then [s(4)] and a flush, then [s(5)]
    and two flushes: the memo recomputes once per change of [s], and its
    subscriber runs again only after the change that altered the memo. *)
Definition parity : prog :=
  Call_createSignal (JNum 2) (fun s =>
  Call_createMemo
    (Call_signal s None (fun v =>
       match v with
       | JNum n => Ret (JNum (n mod 2))
       | _ => Ret JUndefined
       end))
    (fun m =>
  Call_createEffect (Call_memoGetter m (fun v => Perform v (Ret JUndefined)))
    (fun _ => Ret JUndefined))).

(** Two effects on one signal, the first of which throws when the signal is
    1: after [s(1)] and a flush the failure is printed and the second effect
    has still run; the failing effect keeps the edge it recorded before it
    threw. *)
Definition one_fails : prog :=
  Call_createSignal (JNum 0) (fun s =>
  Call_createEffect
    (Call_signal s None (fun v =>
       if strict_eq v (JNum 1) then Throw (JStr "boom") else Ret JUndefined))
    (fun _ =>
  Call_createEffect (Call_signal s None (fun v => Perform v (Ret JUndefined)))
    (fun _ =>
  Call_signal s (Some (JNum 1)) (fun _ => Ret JUndefined)))).




(** [createEffect(() => s(s() + 1))] *)
Definition self_writer_body (s : SrcId) : prog :=
  Call_signal s None (fun v =>
    match v with
    | JNum n => Call_signal s (Some (JNum (n + 1))) (fun _ => Ret JUndefined)
    | _ => Ret JUndefined
    end).

Definition self_writer : prog :=
  Call_createSignal (JNum 0) (fun s =>
  Call_createEffect (self_writer_body s) (fun _ => Ret JUndefined)).

(** The states the effect cycles through: the signal holds [k], the effect
    is subscribed, queued and idle, one flush is pending, nothing has been
    printed, and the effect has been invoked [n] times. *)
Record cycling (k : Z) (n : nat) (st : state) : Prop := mkCycling {
  cy_cur : currentEffect st = None;
  cy_queue : effectQueue st = [0];
  cy_batch : isBatching st = true;
  cy_micro : microtasks st = 1;
  cy_src : sources st 0 = mkSource (JNum k) true [0];
  cy_next : 0 < next_source st;
  cy_comp : comps st 0 = mkComp (Effect (self_writer_body 0)) [0] [] false false;
  cy_console : console st = [];
  cy_runs : runs_of 0 (history st) = n
}.

(** The state one flush leads to from [st]. *)
Definition cycling_next (k : Z) (st : state) : state :=
  let st1 := note (EvRun 0)
               (upd_comp 0 (with_running true) (dequeue 0 (set_batching false 0 st))) in
  upd_comp 0 (with_running false)
    (set_currentEffect (currentEffect st1)
       (snd (signal 0 (Some (JNum (k + 1))) (snd (signal 0 None (body_state 0 st1)))))).

(** What a state holds at signal 0 and computation 0, and in its global
    fields. *)
Definition at0 (st : state) (cur : option CompId) (q : list CompId) (b : bool) (m : nat)
    (src : source) (cmp : comp) (con : list message) (hist : list event) (ns : nat) : Prop :=
  currentEffect st = cur /\ effectQueue st = q /\ isBatching st = b /\ microtasks st = m /\
  sources st 0 = src /\ comps st 0 = cmp /\ console st = con /\ history st = hist /\
  next_source st = ns.

(** *** The loops and calls of the source, said call by call

    The statements below speak of what [run_cleanups], [effect],
    [memoEffect] and [eff()] are to do in terms of the calls of the user's
    functions, not through those definitions themselves. *)





(** What the [catch] clause of the flush loop makes of the outcome [oi] of
    [eff()]: an exception other than [null] and [undefined] is printed and
    the iteration ends normally; for [null] and [undefined] the clause itself
    throws, and nothing is printed. *)
Definition caught_outcome (oi : outcome unit) : outcome unit :=
  match oi with
  | Normal _ => Normal tt
  | Raised x => if nullish x then Raised (stack_type_error x) else Normal tt
  end.

Definition caught_state (oi : outcome unit) (st : state) : state :=
  match oi with
  | Normal _ => st
  | Raised x => if nullish x then st else log (EffectFailed x) st
  end.

(** [m2] returns whatever [m1] returns. *)
Definition extends (A : Type) (m1 m2 : M A) : Prop :=
  forall st r, m1 st = Some r -> m2 st = Some r.

(** The states the engine can be in between two tasks: the initial one, and
    every state a script or a turn of the microtask queue leads to from such
    a state. *)
Inductive reachable : state -> Prop :=
| reach_initial : reachable initial
| reach_script fuel p st o st' :
    reachable st -> exec fuel p st = Some (o, st') -> reachable st'
| reach_turn fuel st st' :
    reachable st -> microtask fuel st = Some st' -> reachable st'.



(** The computations with an identity below [n] whose invocation a stretch
    of history records, oldest first. *)
Fixpoint invoked_below (n : nat) (h : list event) : list CompId :=
  match h with
  | [] => []
  | EvRun c :: rest =>
      if c <? n then invoked_below n rest ++ [c] else invoked_below n rest
  | _ :: rest => invoked_below n rest
  end.

(** [l1] is [l2] with some elements left out. *)
Inductive subseq : list CompId -> list CompId -> Prop :=
| subseq_nil : subseq [] []
| subseq_skip x l1 l2 : subseq l1 l2 -> subseq l1 (x :: l2)
| subseq_take x l1 l2 : subseq l1 l2 -> subseq (x :: l1) (x :: l2).

(** [const s = createSignal(0);
    const d = createRoot(() => { createEffect(() => seen.push(s())) })]:
    the root is computation 0, the effect computation 1. *)
Definition root_with_effect : prog :=
  Call_createSignal (JNum 0) (fun s =>
  Call_createRoot (fun _ =>
    Call_createEffect (Call_signal s None (fun v => Perform v (Ret JUndefined)))
      (fun _ => Ret JUndefined))
    (fun _ => Ret JUndefined)).

(** [d(); s(1)] for the disposer and the signal of [root_with_effect]. *)
Definition dispose_root_then_write : prog :=
  Call_dispose 0 (Call_signal 0 (Some (JNum 1)) (fun _ => Ret JUndefined)).

(** [const s = createSignal(0); createRoot(() => { s() })] *)
Definition root_reads : prog :=
  Call_createSignal (JNum 0) (fun s =>
  Call_createRoot (fun _ => Call_signal s None (fun _ => Ret JUndefined))
    (fun _ => Ret JUndefined)).

(** [const a = createSignal(0);
    createEffect(() => { a(); createEffect(() => seen.push(a())) })] *)
Definition nested_effects : prog :=
  Call_createSignal (JNum 0) (fun a =>
  Call_createEffect
    (Call_signal a None (fun _ =>
     Call_createEffect (Call_signal a None (fun v => Perform v (Ret JUndefined)))
       (fun _ => Ret JUndefined)))
    (fun _ => Ret JUndefined)).

(** [const s = createSignal(0);
    const d = createRoot(() => { onCleanup(createEffect(() => s())) })]:
    the root is computation 0, the effect computation 1, and the root's only
    cleanup is the effect's disposer. *)
Definition root_owning_effect : prog :=
  Call_createSignal (JNum 0) (fun s =>
  Call_createRoot (fun _ =>
    Call_createEffect (Call_signal s None (fun _ => Ret JUndefined)) (fun d =>
    Call_onCleanup (Call_dispose d (Ret JUndefined)) (Ret JUndefined)))
    (fun _ => Ret JUndefined)).

(** A state in which computation 0, the ambient context, has been disposed
    while running. *)
Definition disposed_inside_effect_0 : state :=
  upd_comp 0 (with_disposed true) inside_effect_0.

(** [const flag = createSignal(false), s = createSignal(0);
    const d = createEffect(() => { if (flag()) d(); s() })]: the effect is
    computation 0 and disposes itself on the run that sees the flag set. *)
Definition self_disposing_effect : prog :=
  Call_createSignal (JBool false) (fun flag =>
  Call_createSignal (JNum 0) (fun s =>
  Call_createEffect
    (Call_signal flag None (fun v =>
       if strict_eq v (JBool true)
       then Call_dispose 0 (Call_signal s None (fun _ => Ret JUndefined))
       else Call_signal s None (fun _ => Ret JUndefined)))
    (fun _ => Ret JUndefined))).

(** [const s = createSignal(1); const m1 = createMemo(() => 2 * s());
    const m2 = createMemo(() => m1() + 1);
    createEffect(() => seen.push(100 * s() + m2()))]: the memos are
    computations 0 and 1 with caches 1 and 2, the effect is computation 2. *)
Definition memo_chain : prog :=
  Call_createSignal (JNum 1) (fun s =>
  Call_createMemo
    (Call_signal s None (fun x =>
       match x with JNum n => Ret (JNum (2 * n)) | _ => Ret JUndefined end))
    (fun m1 =>
  Call_createMemo
    (Call_memoGetter m1 (fun x =>
       match x with JNum n => Ret (JNum (n + 1)) | _ => Ret JUndefined end))
    (fun m2 =>
  Call_createEffect
    (Call_signal s None (fun x =>
     Call_memoGetter m2 (fun y =>
       match x, y with
       | JNum n, JNum m => Perform (JNum (100 * n + m)) (Ret JUndefined)
       | _, _ => Ret JUndefined
       end)))
    (fun _ => Ret JUndefined)))).


(** * Properties *)

(** The effect of [example_batching] prints 0 on creation; the two writes
    that follow are batched, so the next turn prints 2 only. *)
Example example_batching_seen :
  option_map performed
    (match run_script 20 example_batching initial with
     | Some st => turns 20 1 st
     | None => None
     end) = Some [JNum 0; JNum 2].
Proof. vm_compute. reflexivity. Qed.

(** ** Identity of values *)

Lemma strict_eq_true a b : strict_eq a b = true -> a = b.
Proof.
  destruct a, b; simpl; intros H; try discriminate; try reflexivity.
  - apply Bool.eqb_prop in H. now subst.
  - apply Z.eqb_eq in H. now subst.
  - apply String.eqb_eq in H. now subst.
Qed.

Lemma strict_eq_refl a : a <> JNaN -> strict_eq a a = true.
Proof.
  destruct a; simpl; intros H; try reflexivity.
  - apply Bool.eqb_reflx.
  - apply Z.eqb_refl.
  - congruence.
  - apply String.eqb_refl.
Qed.

(** ** Maps and sets *)

Lemma upd_same (A : Type) (f : nat -> A) i g : upd f i g i = g (f i).
Proof. unfold upd. now rewrite Nat.eqb_refl. Qed.

Lemma upd_other (A : Type) (f : nat -> A) i g j : j <> i -> upd f i g j = f j.
Proof. intros H. unfold upd. apply Nat.eqb_neq in H. now rewrite H. Qed.

Lemma set_add_In x y l : In y (set_add x l) <-> y = x \/ In y l.
Proof.
  unfold set_add. destruct (in_dec Nat.eq_dec x l) as [Hin | Hout].
  - split; [now right | intros [-> | H]; assumption].
  - rewrite in_app_iff. simpl. intuition congruence.
Qed.

Lemma set_add_NoDup x l : NoDup l -> NoDup (set_add x l).
Proof.
  intros Hl. unfold set_add. destruct (in_dec Nat.eq_dec x l) as [Hin | Hout]; [assumption |].
  induction Hl as [| a l Ha Hl IH]; simpl.
  - constructor; [intros [] | constructor].
  - constructor.
    + rewrite in_app_iff. simpl. intros [H | [H | []]]; [contradiction |].
      apply Hout. now left.
    + apply IH. intros H. apply Hout. now right.
Qed.

Lemma set_delete_In x y l : In y (set_delete x l) <-> In y l /\ y <> x.
Proof.
  unfold set_delete. rewrite filter_In, negb_true_iff, Nat.eqb_neq. reflexivity.
Qed.

Lemma set_delete_NoDup x l : NoDup l -> NoDup (set_delete x l).
Proof. apply NoDup_filter. Qed.

Lemma set_delete_absent x l : ~ In x l -> set_delete x l = l.
Proof.
  induction l as [| a l IH]; simpl; intros H; [reflexivity |].
  destruct (Nat.eqb_spec a x) as [-> | Hne]; simpl.
  - exfalso. apply H. now left.
  - f_equal. apply IH. intros Hin. apply H. now right.
Qed.

(** ** The scheduler's enqueue *)

Lemma scheduleUpdate_queue eff st :
  effectQueue (scheduleUpdate eff st) = set_add eff (effectQueue st).
Proof. unfold scheduleUpdate. simpl. now destruct (isBatching st). Qed.

Lemma scheduleUpdate_batching eff st :
  isBatching (scheduleUpdate eff st) = true.
Proof. unfold scheduleUpdate. simpl. now destruct (isBatching st) eqn:E. Qed.

Lemma scheduleUpdate_microtasks eff st :
  microtasks (scheduleUpdate eff st) =
  if isBatching st then microtasks st else S (microtasks st).
Proof. unfold scheduleUpdate. simpl. now destruct (isBatching st). Qed.

Lemma same_heap_refl st : same_heap st st.
Proof. repeat split. Qed.

Lemma same_heap_trans st1 st2 st3 :
  same_heap st1 st2 -> same_heap st2 st3 -> same_heap st1 st3.
Proof. unfold same_heap. intuition congruence. Qed.

Lemma scheduleUpdate_heap eff st : same_heap st (scheduleUpdate eff st).
Proof. unfold scheduleUpdate. simpl. destruct (isBatching st); repeat split. Qed.

Lemma enqueue_all_heap l : forall st, same_heap st (enqueue_all l st).
Proof.
  induction l as [| c l IH]; intros st; simpl; [apply same_heap_refl |].
  eapply same_heap_trans; [apply scheduleUpdate_heap | apply IH].
Qed.

Lemma enqueue_all_queue l : forall st,
  effectQueue (enqueue_all l st) = fold_left (fun q c => set_add c q) l (effectQueue st).
Proof.
  induction l as [| c l IH]; intros st; simpl; [reflexivity |].
  now rewrite IH, scheduleUpdate_queue.
Qed.

Lemma fold_set_add_In l : forall q y,
  In y (fold_left (fun q c => set_add c q) l q) <-> In y l \/ In y q.
Proof.
  induction l as [| c l IH]; intros q y; simpl; [tauto |].
  rewrite IH, set_add_In. intuition congruence.
Qed.

Lemma fold_set_add_NoDup l : forall q,
  NoDup q -> NoDup (fold_left (fun q c => set_add c q) l q).
Proof.
  induction l as [| c l IH]; intros q Hq; simpl; [assumption |].
  apply IH. now apply set_add_NoDup.
Qed.

Lemma enqueue_all_batching l : forall st,
  l <> [] -> isBatching (enqueue_all l st) = true.
Proof.
  induction l as [| c l IH]; intros st Hl; [congruence |]. simpl.
  destruct l as [| c' l'].
  - simpl. apply scheduleUpdate_batching.
  - apply IH. discriminate.
Qed.

Lemma notify_unfold s st : notify s st = enqueue_all (subscribers (sources st s)) st.
Proof. reflexivity. Qed.

(** ** Signals *)

Lemma track_value s s' st : value (sources (track s st) s') = value (sources st s').
Proof.
  unfold track. destruct (currentEffect st) as [c |]; [| reflexivity].
  simpl. unfold upd. destruct (Nat.eqb s' s); reflexivity.
Qed.

Lemma track_sched s st :
  effectQueue (track s st) = effectQueue st /\
  isBatching (track s st) = isBatching st /\
  microtasks (track s st) = microtasks st.
Proof. unfold track. destruct (currentEffect st); repeat split. Qed.

(** C4. A write of a value identical ([===]) to the stored one changes neither
    the value nor the scheduler (queue, flag, pending callbacks), and with no
    ambient context leaves the whole state as it was; a write of any other
    value stores it and passes every current subscriber, in order, to the
    scheduler, so that each is in the queue afterwards and a flush is pending
    when there is one at all; a read with no ambient context returns the
    stored value and leaves the state as it was. *)
Theorem signal_write_and_untracked_read (s : SrcId) (v : jsval) (st : state) :
  (strict_eq v (value (sources st s)) = true ->
     let st' := snd (signal s (Some v) st) in
     value (sources st' s) = value (sources st s) /\
     effectQueue st' = effectQueue st /\
     isBatching st' = isBatching st /\
     microtasks st' = microtasks st /\
     (currentEffect st = None -> st' = st)) /\
  (strict_eq v (value (sources st s)) = false ->
     let st' := snd (signal s (Some v) st) in
     value (sources st' s) = v /\
     effectQueue st' =
       fold_left (fun q c => set_add c q) (subscribers (sources st s)) (effectQueue st) /\
     (forall c, In c (subscribers (sources st s)) -> In c (effectQueue st')) /\
     (subscribers (sources st s) <> [] -> isBatching st' = true)) /\
  (currentEffect st = None -> signal s None st = (value (sources st s), st)).
Proof.
  split; [| split].
  - intros Heq. unfold signal. rewrite Heq. simpl.
    rewrite track_value. destruct (track_sched s st) as (Hq & Hb & Hm).
    repeat split; try assumption.
    intros Hc. unfold track. now rewrite Hc.
  - intros Hne. unfold signal. rewrite Hne. simpl.
    set (st1 := upd_source s (with_value v) st).
    assert (Hsubs : subscribers (sources st1 s) = subscribers (sources st s)).
    { unfold st1. simpl. now rewrite upd_same. }
    rewrite track_value. destruct (track_sched s (notify s st1)) as (Hq & Hb & Hm).
    rewrite Hq, Hb, notify_unfold, Hsubs.
    destruct (enqueue_all_heap (subscribers (sources st s)) st1) as (_ & Hsrc & _).
    rewrite Hsrc, enqueue_all_queue.
    repeat split.
    + unfold st1. simpl. now rewrite upd_same.
    + intros c Hc. apply fold_set_add_In. now left.
    + intros Hl. now apply enqueue_all_batching.
  - intros Hc. unfold signal, track. now rewrite Hc.
Qed.

(** The call returns what is stored once the call is over. *)
Lemma signal_returns_stored s arg st :
  fst (signal s arg st) = value (sources (snd (signal s arg st)) s).
Proof. reflexivity. Qed.

Lemma track_edge s c st :
  currentEffect st = Some c ->
  In c (subscribers (sources (track s st) s)) /\
  In s (dependencies (comps (track s st) c)).
Proof.
  intros Hc. unfold track. rewrite Hc. simpl. rewrite !upd_same. simpl.
  split; apply set_add_In; now left.
Qed.

(** C10. A setter call made while a computation is the ambient context
    registers that computation exactly as a read does: afterwards it is in the
    signal's subscriber set, the signal is in its dependency set, and the call
    returns the stored value (the value just written when it was not identical
    to the old one). *)
Theorem setter_call_subscribes_caller (s : SrcId) (c : CompId) (v : jsval) (st : state) :
  currentEffect st = Some c ->
  let r := fst (signal s (Some v) st) in
  let st' := snd (signal s (Some v) st) in
  In c (subscribers (sources st' s)) /\
  In s (dependencies (comps st' c)) /\
  r = value (sources st' s) /\
  (strict_eq v (value (sources st s)) = false -> r = v).
Proof.
  intros Hc r st'.
  assert (Hcur : forall st1, same_heap st st1 \/ st1 = upd_source s (with_value v) st ->
                 currentEffect st1 = Some c).
  { intros st1 [H | ->]; [destruct H as (H & _); congruence | exact Hc]. }
  unfold r, st', signal. simpl.
  destruct (strict_eq v (value (sources st s))) eqn:E.
  - destruct (track_edge s st Hc) as (H1 & H2). repeat split; try assumption. discriminate.
  - set (st1 := upd_source s (with_value v) st).
    assert (Hc1 : currentEffect (notify s st1) = Some c).
    { destruct (enqueue_all_heap (subscribers (sources st1 s)) st1) as (H & _).
      rewrite notify_unfold, H. exact Hc. }
    destruct (track_edge s (notify s st1) Hc1) as (H1 & H2).
    repeat split; try assumption.
    intros _. rewrite track_value, notify_unfold.
    destruct (enqueue_all_heap (subscribers (sources st1 s)) st1) as (_ & Hsrc & _).
    rewrite Hsrc. unfold st1. simpl. now rewrite upd_same.
Qed.

Lemma setter_call_subscribes_caller_witness :
  let r := fst (signal 0 (Some (JNum 1)) inside_effect_0) in
  let st' := snd (signal 0 (Some (JNum 1)) inside_effect_0) in
  In 0 (subscribers (sources st' 0)) /\
  In 0 (dependencies (comps st' 0)) /\
  r = value (sources st' 0) /\
  (strict_eq (JNum 1) (value (sources inside_effect_0 0)) = false -> r = JNum 1).
Proof. apply (@setter_call_subscribes_caller 0 0 (JNum 1) inside_effect_0). reflexivity. Defined.

(** An effect whose body only writes a signal ends up subscribed to it. *)
Example write_only_effect_is_subscribed :
  option_map (fun st => (subscribers (sources st 0), dependencies (comps st 0)))
    (run_script 20
       (Call_createSignal (JNum 0) (fun s =>
        Call_createEffect (Call_signal s (Some (JNum 7)) (fun _ => Ret JUndefined))
          (fun _ => Ret JUndefined)))
       initial)
  = Some ([0], [0]).
Proof. vm_compute. reflexivity. Qed.

(** ** Cleanups *)

(** C9. With an ambient context, [onCleanup(fn)] appends [fn] to the cleanup
    list of that context (the innermost one being executed) and touches
    nothing else; with none it only prints the warning, and the caller carries
    on: nothing is raised. *)
Theorem onCleanup_attaches_or_warns (fn : prog) (st : state) :
  (forall c, currentEffect st = Some c ->
     cleanups (comps (onCleanup fn st) c) = cleanups (comps st c) ++ [fn] /\
     (forall c', c' <> c -> comps (onCleanup fn st) c' = comps st c') /\
     body (comps (onCleanup fn st) c) = body (comps st c) /\
     dependencies (comps (onCleanup fn st) c) = dependencies (comps st c) /\
     disposed (comps (onCleanup fn st) c) = disposed (comps st c) /\
     running (comps (onCleanup fn st) c) = running (comps st c) /\
     same_heap (upd_comp c (push_cleanup fn) st) (onCleanup fn st) /\
     sources (onCleanup fn st) = sources st /\
     effectQueue (onCleanup fn st) = effectQueue st /\
     console (onCleanup fn st) = console st /\
     currentEffect (onCleanup fn st) = Some c) /\
  (currentEffect st = None ->
     onCleanup fn st = log CleanupOutside st /\
     console (onCleanup fn st) = console st ++ [CleanupOutside] /\
     comps (onCleanup fn st) = comps st /\
     sources (onCleanup fn st) = sources st /\
     effectQueue (onCleanup fn st) = effectQueue st /\
     isBatching (onCleanup fn st) = isBatching st /\
     microtasks (onCleanup fn st) = microtasks st /\
     currentEffect (onCleanup fn st) = None /\
     forall n k, exec (S n) (Call_onCleanup fn k) st = exec n k (log CleanupOutside st)).
Proof.
  split.
  - intros c Hc. unfold onCleanup. rewrite Hc. simpl. rewrite upd_same.
    repeat split; try assumption.
    intros c' Hne. now apply upd_other.
  - intros Hc. unfold onCleanup. rewrite Hc. simpl.
    repeat split; try assumption.
    intros n k. simpl. unfold bind, lift, onCleanup. now rewrite Hc.
Qed.

(** Inside an effect that sits inside a root, the cleanup goes to the effect
    (computation 1), not to the root (computation 0). *)
Example onCleanup_nearest_context :
  option_map (fun st => (List.length (cleanups (comps st 0)), List.length (cleanups (comps st 1))))
    (run_script 20
       (Call_createRoot (fun _ =>
          Call_createEffect (Call_onCleanup (Ret JNull) (Ret JUndefined)) (fun _ =>
          Call_onCleanup (Ret JUndefined) (Call_onCleanup (Ret JUndefined) (Ret JUndefined))))
          (fun _ => Ret JUndefined))
       initial)
  = Some (2, 1).
Proof. vm_compute. reflexivity. Qed.

(** ** Reasoning in the monad *)

Lemma bind_inv (A B : Type) (m : M A) (f : A -> M B) st o st' :
  bind m f st = Some (o, st') ->
  (exists a st1, m st = Some (Normal a, st1) /\ f a st1 = Some (o, st')) \/
  (exists e, m st = Some (Raised e, st') /\ o = Raised e).
Proof.
  unfold bind. destruct (m st) as [[[a | e] st1] |]; intros H.
  - left. eauto.
  - right. inversion H; subst. eauto.
  - discriminate.
Qed.

Lemma bind_gets (A B : Type) (g : state -> A) (f : A -> M B) st :
  bind (gets g) f st = f (g st) st.
Proof. reflexivity. Qed.

Lemma bind_lift (B : Type) (g : state -> state) (f : unit -> M B) st :
  bind (lift g) f st = f tt (g st).
Proof. reflexivity. Qed.

Lemma bind_lift_val (A B : Type) (g : state -> A * state) (f : A -> M B) st :
  bind (lift_val g) f st = f (fst (g st)) (snd (g st)).
Proof. unfold bind, lift_val. now destruct (g st). Qed.

Lemma bind_guard (B : Type) (b : state -> bool) (f : unit -> M B) st r :
  bind (guard b) f st = Some r -> b st = true /\ f tt st = Some r.
Proof. unfold bind, guard. destruct (b st); [now split | discriminate]. Qed.

Lemma finally_inv (A : Type) (m : M A) h st o st' :
  finally m h st = Some (o, st') ->
  exists st1, m st = Some (o, st1) /\ st' = h st1.
Proof.
  unfold finally. destruct (m st) as [[o1 st1] |]; intros H; [| discriminate].
  inversion H; subst. eauto.
Qed.

Lemma catch_inv (A : Type) (m : M A) h st o st' :
  catch m h st = Some (o, st') ->
  (exists a, m st = Some (Normal a, st') /\ o = Normal a) \/
  (exists e st1, m st = Some (Raised e, st1) /\ h e st1 = Some (o, st')).
Proof.
  unfold catch. destruct (m st) as [[[a | e] st1] |]; intros H.
  - left. inversion H; subst. eauto.
  - right. eauto.
  - discriminate.
Qed.

Lemma ret_inv (A : Type) (a : A) st o st' :
  ret a st = Some (o, st') -> o = Normal a /\ st' = st.
Proof. unfold ret. intros H. inversion H. now split. Qed.

Lemma lift_inv (g : state -> state) st o st' :
  lift g st = Some (o, st') -> o = Normal tt /\ st' = g st.
Proof. unfold lift. intros H. inversion H. now split. Qed.

(** The body of a [catch] clause that prints [e.stack || e]. *)
Lemma report_inv (mk : jsval -> message) e st o st' :
  (v <- stack_or_self e ;; lift (log (mk v))) st = Some (o, st') ->
  if nullish e then o = Raised (stack_type_error e) /\ st' = st
  else o = Normal tt /\ st' = log (mk e) st.
Proof.
  unfold bind, stack_or_self. destruct (nullish e); simpl; intros H; inversion H; now split.
Qed.

Lemma report_eq (mk : jsval -> message) e st :
  (v <- stack_or_self e ;; lift (log (mk v))) st =
  if nullish e then Some (Raised (stack_type_error e), st)
  else Some (Normal tt, log (mk e) st).
Proof. unfold bind, stack_or_self. destruct (nullish e); reflexivity. Qed.

(** ** More fuel changes no result *)

Lemma extends_refl (A : Type) (m : M A) : extends m m.
Proof. intros st r H. exact H. Qed.

Lemma extends_bind (A B : Type) (m1 m2 : M A) (f1 f2 : A -> M B) :
  extends m1 m2 -> (forall a, extends (f1 a) (f2 a)) ->
  extends (bind m1 f1) (bind m2 f2).
Proof.
  intros Hm Hf st r. unfold bind.
  destruct (m1 st) as [[[a | e] st1] |] eqn:E; [| | discriminate].
  - rewrite (Hm _ _ E). apply Hf.
  - rewrite (Hm _ _ E). intros H. exact H.
Qed.

Lemma extends_finally (A : Type) (m1 m2 : M A) h :
  extends m1 m2 -> extends (finally m1 h) (finally m2 h).
Proof.
  intros Hm st r. unfold finally.
  destruct (m1 st) as [[o st1] |] eqn:E; [| discriminate].
  rewrite (Hm _ _ E). intros H. exact H.
Qed.

Lemma extends_catch (A : Type) (m1 m2 : M A) h :
  extends m1 m2 -> extends (catch m1 h) (catch m2 h).
Proof.
  intros Hm st r. unfold catch.
  destruct (m1 st) as [[[a | e] st1] |] eqn:E; [| | discriminate];
    rewrite (Hm _ _ E); intros H; exact H.
Qed.

Create HintDb fuel.

#[local] Hint Resolve extends_refl extends_bind extends_finally extends_catch : fuel.

Section MoreFuel.

Variables call1 call2 : prog -> M jsval.
Hypothesis Hcall : forall p, extends (call1 p) (call2 p).

Lemma run_cleanups_extends cs : extends (run_cleanups call1 cs) (run_cleanups call2 cs).
Proof. induction cs as [| c cs IH]; simpl; auto with fuel. Qed.

Lemma run_root_cleanups_extends cs :
  extends (run_root_cleanups call1 cs) (run_root_cleanups call2 cs).
Proof. induction cs as [| c cs IH]; simpl; auto 8 with fuel. Qed.

#[local] Hint Resolve run_cleanups_extends run_root_cleanups_extends : fuel.

Lemma effect_extends e fn : extends (effect call1 e fn) (effect call2 e fn).
Proof. unfold effect. auto 20 with fuel. Qed.

Lemma memoEffect_extends e fn cell :
  extends (memoEffect call1 e fn cell) (memoEffect call2 e fn cell).
Proof. unfold memoEffect. auto 20 with fuel. Qed.

#[local] Hint Resolve effect_extends memoEffect_extends : fuel.

Lemma createEffect_extends fn : extends (createEffect call1 fn) (createEffect call2 fn).
Proof. unfold createEffect. auto 20 with fuel. Qed.

Lemma createMemo_extends fn : extends (createMemo call1 fn) (createMemo call2 fn).
Proof. unfold createMemo. auto 20 with fuel. Qed.

Lemma createRoot_extends fn : extends (createRoot call1 fn) (createRoot call2 fn).
Proof. unfold createRoot. auto 20 with fuel. Qed.

Lemma dispose_extends d : extends (dispose call1 d) (dispose call2 d).
Proof.
  unfold dispose, dispose_effect, dispose_root.
  apply extends_bind; [apply extends_refl |]. intros [fn | fn cell |].
  - apply extends_bind; [apply extends_refl |]. intros [|]; auto 20 with fuel.
  - apply extends_refl.
  - apply extends_bind; [apply extends_refl |]. intros [|]; auto 20 with fuel.
Qed.

Lemma invoke_extends eff : extends (invoke call1 eff) (invoke call2 eff).
Proof.
  unfold invoke. apply extends_bind; [apply extends_refl |].
  intros [fn | fn cell |]; auto 20 with fuel.
Qed.

#[local] Hint Resolve invoke_extends : fuel.

Lemma flush_one_extends eff : extends (flush_one call1 eff) (flush_one call2 eff).
Proof.
  unfold flush_one. apply extends_bind; [apply extends_refl |]. intros _.
  apply extends_bind; [apply extends_refl |]. intros [|]; [apply extends_refl |].
  apply extends_bind; [apply extends_refl |]. intros [|]; auto 20 with fuel.
Qed.

Lemma flush_loop_extends l : extends (flush_loop call1 l) (flush_loop call2 l).
Proof.
  induction l as [| eff l IH]; simpl; [apply extends_refl |].
  apply extends_bind; [apply flush_one_extends | intros _; exact IH].
Qed.

Lemma flush_extends : extends (flush call1) (flush call2).
Proof.
  unfold flush. apply extends_bind; [apply extends_refl |]. intros _.
  apply extends_bind; [apply extends_refl |]. intros l. apply flush_loop_extends.
Qed.

End MoreFuel.

Lemma exec_eq n p :
  exec (S n) p =
  match p with
  | Ret v => ret v
  | Throw e => raise jsval e
  | Perform v k => lift (note (EvUser v)) ;; exec n k
  | Call_signal s arg k =>
      guard (fun st => s <? next_source st) ;;
      v <- lift_val (signal s arg) ;; exec n (k v)
  | Call_memoGetter m k =>
      guard (fun st => m <? next_source st) ;;
      v <- lift_val (memoGetter m) ;; exec n (k v)
  | Call_onCleanup fn k => lift (onCleanup fn) ;; exec n k
  | Call_createSignal init k =>
      s <- lift_val (createSignal init) ;; exec n (k s)
  | Call_createEffect fn k =>
      d <- createEffect (exec n) fn ;; exec n (k d)
  | Call_createMemo fn k =>
      m <- createMemo (exec n) fn ;; exec n (k m)
  | Call_createRoot fn k =>
      d <- createRoot (exec n) fn ;; exec n (k d)
  | Call_dispose d k =>
      guard (fun st => d <? next_comp st) ;;
      dispose (exec n) d ;; exec n k
  end.
Proof. reflexivity. Qed.

Lemma exec_S fuel : forall p, extends (exec fuel p) (exec (S fuel) p).
Proof.
  induction fuel as [| n IH]; intros p; [intros st r H; discriminate H |].
  rewrite (exec_eq (S n) p), (exec_eq n p).
  destruct p; cbv beta iota;
    auto using createEffect_extends, createMemo_extends, createRoot_extends,
               dispose_extends with fuel.
Qed.

(** A run that returns with some fuel returns the same outcome and state
    with any larger amount. *)
Lemma exec_fuel_le n m : n <= m -> forall p, extends (exec n p) (exec m p).
Proof.
  induction 1 as [| m _ IH]; intros p; [apply extends_refl |].
  intros st r H. apply exec_S, IH, H.
Qed.

(** Two runs of one program from one state that both return agree. *)
Lemma exec_fuel_irrelevant n m p st r r' :
  exec n p st = Some r -> exec m p st = Some r' -> r = r'.
Proof.
  intros H H'. destruct (Nat.le_ge_cases n m) as [L | L].
  - apply (exec_fuel_le L) in H. congruence.
  - apply (exec_fuel_le L) in H'. congruence.
Qed.

Lemma flush_fuel_le n m : n <= m -> extends (flush (exec n)) (flush (exec m)).
Proof. intros L. apply flush_extends. intros p. now apply exec_fuel_le. Qed.

Lemma microtask_fuel_le n m st st' :
  n <= m -> microtask n st = Some st' -> microtask m st = Some st'.
Proof.
  intros L. unfold microtask. destruct (microtasks st); [discriminate |].
  destruct (flush (exec n) st) as [[o st1] |] eqn:E; [| discriminate].
  rewrite (flush_fuel_le L _ E). intros H. exact H.
Qed.

Lemma turns_fuel_le n m k : n <= m -> forall st st',
  turns n k st = Some st' -> turns m k st = Some st'.
Proof.
  intros L. induction k as [| k IH]; intros st st'; simpl; [intros H; exact H |].
  destruct (microtask n st) as [st1 |] eqn:E; [| discriminate].
  rewrite (microtask_fuel_le _ L E). apply IH.
Qed.

Lemma run_script_fuel_le n m p st st' :
  n <= m -> run_script n p st = Some st' -> run_script m p st = Some st'.
Proof.
  intros L. unfold run_script.
  destruct (exec n p st) as [[o st1] |] eqn:E; [| discriminate].
  rewrite (exec_fuel_le L _ _ E). intros H. exact H.
Qed.

(** ** Relations that every piece of engine code respects *)

Unset Implicit Arguments.

Section Preservation.

Variable T : state -> state -> Prop.
Hypothesis HT : stable T.

Lemma T_next_comp st st' c : T st st' -> c < next_comp st -> c < next_comp st'.
Proof. intros H Hc. apply (st_grows HT) in H. destruct H. lia. Qed.

Section Calls.

Variable call : prog -> M jsval.
Hypothesis call_T : forall p st o st', call p st = Some (o, st') -> T st st'.

Lemma run_cleanups_T cs : forall st o st',
  run_cleanups call cs st = Some (o, st') -> T st st'.
Proof.
  induction cs as [| c cs IH]; intros st o st' H; simpl in H.
  - apply ret_inv in H. destruct H as (_ & ->). apply (st_refl HT).
  - apply bind_inv in H. destruct H as [(a & st1 & H1 & H2) | (e & H1 & _)].
    + eapply (st_trans HT); [eapply call_T; eassumption | eapply IH; eassumption].
    + eapply call_T; eassumption.
Qed.

Lemma run_root_cleanups_T cs : forall st o st',
  run_root_cleanups call cs st = Some (o, st') -> T st st'.
Proof.
  induction cs as [| c cs IH]; intros st o st' H; simpl in H.
  - apply ret_inv in H. destruct H as (_ & ->). apply (st_refl HT).
  - apply bind_inv in H.
    assert (Hstep : forall o1 st1,
      catch (call c;; ret tt) (fun e => lift (log (RootCleanupFailed e))) st = Some (o1, st1) ->
      T st st1).
    { intros o1 st1 Hc. apply catch_inv in Hc.
      destruct Hc as [(a & Hc & _) | (e & st2 & Hc & Hl)].
      - apply bind_inv in Hc. destruct Hc as [(v & st2 & Hc1 & Hc2) | (e & Hc1 & _)].
        + apply ret_inv in Hc2. destruct Hc2 as (_ & ->). eapply call_T; eassumption.
        + eapply call_T; eassumption.
      - apply lift_inv in Hl. destruct Hl as (_ & ->).
        eapply (st_trans HT); [| apply (st_log HT); discriminate].
        apply bind_inv in Hc. destruct Hc as [(v & st3 & Hc1 & Hc2) | (e' & Hc1 & _)].
        + apply ret_inv in Hc2. destruct Hc2 as (Hc2 & _). discriminate.
        + eapply call_T; eassumption. }
    destruct H as [(a & st1 & H1 & H2) | (e & H1 & _)].
    + eapply (st_trans HT); [eapply Hstep; eassumption | eapply IH; eassumption].
    + eapply Hstep; eassumption.
Qed.

(** The part of [effect] and [memoEffect] before the context swap. *)
Lemma teardown_T (B : Type) (e : CompId) (k : M B) st o st' :
  (forall st1 o1 st1', T st st1 -> k st1 = Some (o1, st1') -> T st1 st1') ->
  (cs <- gets (fun st => cleanups (comps st e)) ;;
   run_cleanups call cs ;;
   lift (upd_comp e clear_cleanups) ;;
   lift (unsubscribe e) ;;
   k) st = Some (o, st') ->
  T st st'.
Proof.
  intros Hk H. rewrite bind_gets in H. apply bind_inv in H.
  destruct H as [(a & st1 & H1 & H2) | (x & H1 & _)].
  - rewrite !bind_lift in H2.
    assert (H01 : T st st1) by (eapply run_cleanups_T; eassumption).
    assert (H03 : T st (unsubscribe e (upd_comp e clear_cleanups st1))).
    { eapply (st_trans HT); [exact H01 |].
      eapply (st_trans HT); [apply (st_clear_cleanups HT) | apply (st_unsubscribe HT)]. }
    eapply (st_trans HT); [exact H03 |]. eapply Hk; eassumption.
  - eapply run_cleanups_T; eassumption.
Qed.

Lemma scope_T (A : Type) (c : CompId) (m : M A) st o st' :
  c < next_comp st ->
  (forall o1 st1, m (set_currentEffect (Some c) st) = Some (o1, st1) ->
     T (set_currentEffect (Some c) st) st1) ->
  (prevEffect <- gets currentEffect ;;
   lift (set_currentEffect (Some c)) ;;
   finally m (set_currentEffect prevEffect)) st = Some (o, st') ->
  T st st'.
Proof.
  intros Hc Hm H. rewrite bind_gets, bind_lift in H.
  apply finally_inv in H. destruct H as (st1 & H1 & ->).
  apply (st_scope HT) with (c := c); [assumption |]. eapply Hm; eassumption.
Qed.

Lemma effect_T e fn st o st' :
  e < next_comp st -> effect call e fn st = Some (o, st') -> T st st'.
Proof.
  intros He H. unfold effect in H. eapply teardown_T; [| exact H].
  intros st1 o1 st1' H01 Hk. eapply scope_T; [| | exact Hk].
  - eapply T_next_comp; eassumption.
  - intros o2 st2 Hb. apply bind_inv in Hb.
    destruct Hb as [(v & st3 & Hb1 & Hb2) | (x & Hb1 & _)].
    + apply ret_inv in Hb2. destruct Hb2 as (_ & ->). eapply call_T; eassumption.
    + eapply call_T; eassumption.
Qed.

Lemma memoEffect_T e fn cell st o st' :
  e < next_comp st -> memoEffect call e fn cell st = Some (o, st') -> T st st'.
Proof.
  intros He H. unfold memoEffect in H. eapply teardown_T; [| exact H].
  intros st1 o1 st1' H01 Hk. eapply scope_T; [| | exact Hk].
  - eapply T_next_comp; eassumption.
  - intros o2 st2 Hb. apply bind_inv in Hb.
    destruct Hb as [(v & st3 & Hb1 & Hb2) | (x & Hb1 & _)].
    + apply lift_inv in Hb2. destruct Hb2 as (_ & ->).
      eapply (st_trans HT); [eapply call_T; eassumption | apply (st_commit HT)].
    + eapply call_T; eassumption.
Qed.

Lemma new_comp_fresh b st : fst (new_comp b st) = next_comp st.
Proof. reflexivity. Qed.

Lemma new_comp_next b st : next_comp (snd (new_comp b st)) = S (next_comp st).
Proof. reflexivity. Qed.

Lemma createEffect_T fn st o st' :
  createEffect call fn st = Some (o, st') -> T st st'.
Proof.
  intros H. unfold createEffect in H. rewrite bind_lift_val, bind_lift in H.
  rewrite new_comp_fresh in H.
  eapply (st_trans HT); [apply (st_new_run HT) with (b := Effect fn) |].
  apply bind_inv in H. destruct H as [(a & st1 & H1 & H2) | (x & H1 & _)].
  - apply ret_inv in H2. destruct H2 as (_ & ->).
    eapply effect_T; [| exact H1]. simpl. lia.
  - eapply effect_T; [| exact H1]. simpl. lia.
Qed.

Lemma createMemo_T fn st o st' :
  createMemo call fn st = Some (o, st') -> T st st'.
Proof.
  intros H. unfold createMemo in H. rewrite !bind_lift_val, bind_lift in H.
  rewrite new_comp_fresh in H.
  eapply (st_trans HT); [apply (st_new_cell HT) |].
  eapply (st_trans HT);
    [apply (st_new_run HT) with (b := Memo fn (fst (new_cell st))) |].
  apply bind_inv in H. destruct H as [(a & st1 & H1 & H2) | (x & H1 & _)].
  - apply ret_inv in H2. destruct H2 as (_ & ->).
    eapply memoEffect_T; [| exact H1]. simpl. lia.
  - eapply memoEffect_T; [| exact H1]. simpl. lia.
Qed.

Lemma createRoot_T fn st o st' :
  createRoot call fn st = Some (o, st') -> T st st'.
Proof.
  intros H. unfold createRoot in H. rewrite bind_lift_val in H.
  rewrite new_comp_fresh in H.
  eapply (st_trans HT); [apply (st_new_root HT) |].
  set (st0 := snd (new_comp Root st)) in *.
  assert (Hscope : forall o1 st1,
    (prevEffect <- gets currentEffect ;;
     lift (set_currentEffect (Some (next_comp st))) ;;
     finally (catch (call (fn (next_comp st)) ;; ret tt)
                    (fun e => v <- stack_or_self e ;; lift (log (RootFailed v))))
             (set_currentEffect prevEffect)) st0 = Some (o1, st1) -> T st0 st1).
  { intros o1 st1 Hs. eapply scope_T; [| | exact Hs].
    - unfold st0. simpl. lia.
    - intros o2 st2 Hc. apply catch_inv in Hc.
      destruct Hc as [(a & Hc & _) | (e & st3 & Hc & Hl)].
      + apply bind_inv in Hc. destruct Hc as [(v & st3 & Hc1 & Hc2) | (e & Hc1 & _)].
        * apply ret_inv in Hc2. destruct Hc2 as (_ & ->). eapply call_T; eassumption.
        * eapply call_T; eassumption.
      + assert (H3 : T (set_currentEffect (Some (next_comp st)) st0) st3).
        { apply bind_inv in Hc. destruct Hc as [(v & st4 & Hc1 & Hc2) | (e' & Hc1 & _)].
          - apply ret_inv in Hc2. destruct Hc2 as (Hc2 & _). discriminate.
          - eapply call_T; eassumption. }
        apply (report_inv RootFailed) in Hl. destruct (nullish e).
        * destruct Hl as (_ & ->). exact H3.
        * destruct Hl as (_ & ->).
          eapply (st_trans HT); [exact H3 | apply (st_log HT); discriminate]. }
  rewrite bind_gets, bind_lift in H.
  change (bind (bind (gets currentEffect) (fun prevEffect =>
            bind (lift (set_currentEffect (Some (next_comp st)))) (fun _ =>
              finally (catch (call (fn (next_comp st)) ;; ret tt)
                             (fun e => v <- stack_or_self e ;; lift (log (RootFailed v))))
                      (set_currentEffect prevEffect))))
            (fun _ => ret (next_comp st)) st0 = Some (o, st')) in H.
  apply bind_inv in H. destruct H as [(a & st1 & H1 & H2) | (x & H1 & _)].
  - apply ret_inv in H2. destruct H2 as (_ & ->). eapply Hscope; eassumption.
  - eapply Hscope; eassumption.
Qed.

Lemma dispose_effect_T e st o st' :
  e < next_comp st -> dispose_effect call e st = Some (o, st') -> T st st'.
Proof.
  intros He H. unfold dispose_effect in H. rewrite bind_gets in H.
  destruct (disposed (comps st e)).
  - apply ret_inv in H. destruct H as (_ & ->). apply (st_refl HT).
  - rewrite bind_lift, bind_gets in H.
    eapply (st_trans HT); [apply (st_disposed HT); exact He |].
    apply bind_inv in H. destruct H as [(a & st1 & H1 & H2) | (x & H1 & _)].
    + rewrite bind_lift in H2. apply lift_inv in H2. destruct H2 as (_ & ->).
      eapply (st_trans HT); [eapply run_cleanups_T; eassumption |].
      eapply (st_trans HT); [apply (st_unsubscribe HT) | apply (st_dequeue HT)].
    + eapply run_cleanups_T; eassumption.
Qed.

Lemma dispose_root_T r st o st' :
  r < next_comp st -> dispose_root call r st = Some (o, st') -> T st st'.
Proof.
  intros Hr H. unfold dispose_root in H. rewrite bind_gets in H.
  destruct (disposed (comps st r)).
  - apply ret_inv in H. destruct H as (_ & ->). apply (st_refl HT).
  - rewrite bind_lift, bind_gets in H.
    eapply (st_trans HT); [apply (st_disposed HT); exact Hr |].
    apply bind_inv in H. destruct H as [(a & st1 & H1 & H2) | (x & H1 & _)].
    + apply lift_inv in H2. destruct H2 as (_ & ->).
      eapply (st_trans HT); [eapply run_root_cleanups_T; eassumption |].
      apply (st_clear_cleanups HT).
    + eapply run_root_cleanups_T; eassumption.
Qed.

Lemma dispose_T d st o st' :
  d < next_comp st -> dispose call d st = Some (o, st') -> T st st'.
Proof.
  intros Hd H. unfold dispose in H. rewrite bind_gets in H.
  destruct (body (comps st d)).
  - eapply dispose_effect_T; eassumption.
  - discriminate.
  - eapply dispose_root_T; eassumption.
Qed.

End Calls.

(** Every run of user code respects a stable relation. *)
Theorem exec_T : forall fuel p st o st',
  exec fuel p st = Some (o, st') -> T st st'.
Proof.
  induction fuel as [| n IH]; intros p st o st' H; [discriminate |].
  destruct p; simpl in H.
  - apply ret_inv in H. destruct H as (_ & ->). apply (st_refl HT).
  - inversion H; subst. apply (st_refl HT).
  - rewrite bind_lift in H.
    eapply (st_trans HT); [apply (st_user HT) | eapply IH; eassumption].
  - apply bind_guard in H. destruct H as (Hg & H). apply Nat.ltb_lt in Hg.
    rewrite bind_lift_val in H.
    eapply (st_trans HT); [apply (st_signal HT); exact Hg | eapply IH; eassumption].
  - apply bind_guard in H. destruct H as (Hg & H). apply Nat.ltb_lt in Hg.
    rewrite bind_lift_val in H.
    eapply (st_trans HT); [apply (st_memoGetter HT); exact Hg | eapply IH; eassumption].
  - rewrite bind_lift in H.
    eapply (st_trans HT); [apply (st_onCleanup HT) | eapply IH; eassumption].
  - rewrite bind_lift_val in H.
    eapply (st_trans HT); [apply (st_createSignal HT) | eapply IH; eassumption].
  - apply bind_inv in H. destruct H as [(a & st1 & H1 & H2) | (x & H1 & _)].
    + eapply (st_trans HT); [eapply createEffect_T; [apply IH | exact H1] | eapply IH; eassumption].
    + eapply createEffect_T; [apply IH | exact H1].
  - apply bind_inv in H. destruct H as [(a & st1 & H1 & H2) | (x & H1 & _)].
    + eapply (st_trans HT); [eapply createMemo_T; [apply IH | exact H1] | eapply IH; eassumption].
    + eapply createMemo_T; [apply IH | exact H1].
  - apply bind_inv in H. destruct H as [(a & st1 & H1 & H2) | (x & H1 & _)].
    + eapply (st_trans HT); [eapply createRoot_T; [apply IH | exact H1] | eapply IH; eassumption].
    + eapply createRoot_T; [apply IH | exact H1].
  - apply bind_guard in H. destruct H as (Hg & H). apply Nat.ltb_lt in Hg.
    apply bind_inv in H. destruct H as [(a & st1 & H1 & H2) | (x & H1 & _)].
    + eapply (st_trans HT); [eapply dispose_T; [apply IH | exact Hg | exact H1] | eapply IH; eassumption].
    + eapply dispose_T; [apply IH | exact Hg | exact H1].
Qed.

(** *** The flush *)

Hypothesis HF : stable_flush T.

Section FlushCalls.

Variable call : prog -> M jsval.
Hypothesis call_T : forall p st o st', call p st = Some (o, st') -> T st st'.

Lemma invoke_T eff st o st' :
  eff < next_comp st -> invoke call eff st = Some (o, st') -> T st st'.
Proof.
  intros He H. unfold invoke in H. rewrite bind_gets in H.
  destruct (body (comps st eff)).
  - rewrite bind_lift in H.
    eapply (st_trans HT); [apply (sf_run HF); exact He |].
    eapply effect_T; [exact call_T | | exact H]. exact He.
  - rewrite bind_lift in H.
    eapply (st_trans HT); [apply (sf_run HF); exact He |].
    eapply memoEffect_T; [exact call_T | | exact H]. exact He.
  - inversion H; subst. apply (st_refl HT).
Qed.

Lemma flush_one_T eff st o st' :
  eff < next_comp st -> flush_one call eff st = Some (o, st') -> T st st'.
Proof.
  intros He H. unfold flush_one in H. rewrite bind_lift, bind_gets in H.
  set (st0 := set_effectQueue (set_delete eff (effectQueue st)) st) in *.
  assert (H0 : T st st0) by apply (st_dequeue HT).
  destruct (disposed (comps st0 eff)).
  { apply ret_inv in H. destruct H as (-> & ->). exact H0. }
  rewrite bind_gets in H. destruct (running (comps st0 eff)).
  { apply lift_inv in H. destruct H as (-> & ->).
    eapply (st_trans HT); [exact H0 | apply (sf_log HF)]. }
  apply finally_inv in H. destruct H as (st1 & H & ->).
  apply catch_inv in H. destruct H as [(a & H & ->) | (e & st2 & H & Hl)].
  - rewrite bind_lift in H.
    eapply (st_trans HT); [exact H0 |].
    eapply (st_trans HT); [apply (sf_running HF) |].
    eapply (st_trans HT); [eapply invoke_T; [| exact H]; exact He |].
    apply (sf_running HF).
  - rewrite bind_lift in H. apply (report_inv EffectFailed) in Hl.
    eapply (st_trans HT); [exact H0 |].
    eapply (st_trans HT); [apply (sf_running HF) |].
    eapply (st_trans HT); [eapply invoke_T; [| exact H]; exact He |].
    destruct (nullish e); destruct Hl as (_ & ->).
    + apply (sf_running HF).
    + eapply (st_trans HT); [apply (sf_log HF) | apply (sf_running HF)].
Qed.

Lemma flush_loop_T snapshot : forall st o st',
  (forall eff, In eff snapshot -> eff < next_comp st) ->
  flush_loop call snapshot st = Some (o, st') -> T st st'.
Proof.
  induction snapshot as [| eff rest IH]; intros st o st' Hv H; simpl in H.
  - apply ret_inv in H. destruct H as (-> & ->). apply (st_refl HT).
  - apply bind_inv in H. destruct H as [(a & st1 & H1 & H2) | (x & H1 & _)].
    + apply flush_one_T in H1; [| apply Hv; now left].
      apply IH in H2.
      * eapply (st_trans HT); eassumption.
      * intros c Hc. eapply T_next_comp; [exact H1 |]. apply Hv. now right.
    + apply flush_one_T in H1; [exact H1 | apply Hv; now left].
Qed.

Lemma flush_T st o st' :
  (forall eff, In eff (effectQueue st) -> eff < next_comp st) ->
  flush call st = Some (o, st') -> T st st'.
Proof.
  intros Hv H. unfold flush in H. rewrite bind_lift, bind_gets in H.
  apply flush_loop_T in H; [| exact Hv].
  eapply (st_trans HT); [apply (sf_begin HF) | exact H].
Qed.

End FlushCalls.

Theorem microtask_T fuel st st' :
  (forall eff, In eff (effectQueue st) -> eff < next_comp st) ->
  microtask fuel st = Some st' -> T st st'.
Proof.
  intros Hv H. unfold microtask in H.
  destruct (microtasks st); [discriminate |].
  destruct (flush (exec fuel) st) as [[o st1] |] eqn:E; [| discriminate].
  inversion H; subst.
  eapply flush_T in E; [apply E | apply exec_T | exact Hv].
Qed.

End Preservation.

Set Implicit Arguments.

(** ** What the elementary steps leave alone *)

Lemma fold_left_rel (A : Type) (R : state -> state -> Prop) (f : state -> A -> state) :
  (forall st, R st st) ->
  (forall a b c, R a b -> R b c -> R a c) ->
  (forall st x, R st (f st x)) ->
  forall l st, R st (fold_left f l st).
Proof.
  intros Hrefl Htrans Hstep. induction l as [| x l IH]; intros st; simpl.
  - apply Hrefl.
  - eapply Htrans; [apply Hstep | apply IH].
Qed.

Lemma quietly_refl st : quietly st st.
Proof.
  repeat split.
  - exists []. split; [now rewrite app_nil_r | intros c []].
  - exists []. split; [reflexivity | intros c []].
Qed.

Lemma quietly_trans a b c : quietly a b -> quietly b c -> quietly a c.
Proof.
  intros (H1 & H2 & H3 & H4 & (m1 & Hm1 & Hn1) & (h1 & Hh1 & Hr1))
         (K1 & K2 & K3 & K4 & (m2 & Hm2 & Hn2) & (h2 & Hh2 & Hr2)).
  repeat split; try congruence.
  - destruct (H4 c0) as (E & _), (K4 c0) as (F & _). congruence.
  - destruct (H4 c0) as (_ & E & _), (K4 c0) as (_ & F & _). congruence.
  - destruct (H4 c0) as (_ & _ & E), (K4 c0) as (_ & _ & F). congruence.
  - exists (m1 ++ m2). split.
    + rewrite Hm2, Hm1. now rewrite app_assoc.
    + intros x Hx. apply in_app_iff in Hx. destruct Hx as [Hx | Hx]; [eapply Hn1 | eapply Hn2]; eassumption.
  - exists (h2 ++ h1). split.
    + rewrite Hh2, Hh1. now rewrite app_assoc.
    + intros x Hx. apply in_app_iff in Hx. destruct Hx as [Hx | Hx]; [eapply Hr2 | eapply Hr1]; eassumption.
Qed.

Ltac quiet_fields :=
  repeat split;
  try (intros; unfold upd;
       match goal with |- context [Nat.eqb ?a ?b] => destruct (Nat.eqb a b) end; reflexivity);
  try (exists []; split; [now rewrite ?app_nil_r | intros ? []]).

Lemma quietly_upd_source s g st : quietly st (upd_source s g st).
Proof. unfold quietly. simpl. quiet_fields. Qed.

Lemma quietly_scheduleUpdate eff st : quietly st (scheduleUpdate eff st).
Proof.
  unfold quietly, scheduleUpdate. simpl. destruct (isBatching st); simpl; quiet_fields.
Qed.

Lemma quietly_notify s st : quietly st (notify s st).
Proof.
  unfold notify. apply fold_left_rel.
  - apply quietly_refl.
  - apply quietly_trans.
  - intros st1 x. apply quietly_scheduleUpdate.
Qed.

Lemma quietly_track s st : quietly st (track s st).
Proof.
  unfold track. destruct (currentEffect st) as [c |]; [| apply quietly_refl].
  unfold quietly. simpl. quiet_fields.
  exists [EvTrack c s]. split; [reflexivity |].
  intros x [Hx | []]. discriminate.
Qed.

Lemma quietly_signal s arg st : quietly st (snd (signal s arg st)).
Proof.
  unfold signal. simpl. eapply quietly_trans; [| apply quietly_track].
  destruct arg as [v |]; [| apply quietly_refl].
  destruct (strict_eq v (value (sources st s))); [apply quietly_refl |].
  eapply quietly_trans; [apply quietly_upd_source | apply quietly_notify].
Qed.

Lemma quietly_memoGetter m st : quietly st (snd (memoGetter m st)).
Proof. unfold memoGetter. simpl. apply quietly_track. Qed.

Lemma quietly_onCleanup fn st : quietly st (onCleanup fn st).
Proof.
  unfold onCleanup. destruct (currentEffect st) as [c |]; unfold quietly; simpl; quiet_fields.
  exists [CleanupOutside]. split; [reflexivity |].
  intros x [Hx | []]. discriminate.
Qed.

Lemma quietly_clear_cleanups e st : quietly st (upd_comp e clear_cleanups st).
Proof. unfold quietly. simpl. quiet_fields. Qed.

Lemma quietly_unsubscribe e st : quietly st (unsubscribe e st).
Proof.
  unfold unsubscribe.
  set (st1 := fold_left _ _ st).
  assert (H1 : quietly st st1).
  { unfold st1. apply fold_left_rel.
    - apply quietly_refl.
    - apply quietly_trans.
    - intros st2 x. apply quietly_upd_source. }
  eapply quietly_trans; [exact H1 |].
  unfold quietly. simpl. quiet_fields.
  exists [EvClear e]. split; [reflexivity |].
  intros x [Hx | []]. discriminate.
Qed.

Lemma quietly_commit cell v st : quietly st (commit cell v st).
Proof.
  unfold commit. destruct (_ || _); [| apply quietly_refl].
  eapply quietly_trans; [apply quietly_upd_source | apply quietly_notify].
Qed.

Lemma quietly_dequeue e st :
  quietly st (set_effectQueue (set_delete e (effectQueue st)) st).
Proof. unfold quietly. simpl. quiet_fields. Qed.

Lemma quietly_user v st : quietly st (note (EvUser v) st).
Proof.
  unfold quietly. simpl. quiet_fields.
  exists [EvUser v]. split; [reflexivity |].
  intros x [Hx | []]. discriminate.
Qed.

(** ** What a run of user code can and cannot do *)

Lemma quietly_respects st st' : quietly st st' -> respects st st'.
Proof.
  intros (H1 & H2 & H3 & H4 & H5 & (h & Hh & Hr)).
  unfold respects, grows. repeat split; try lia; try assumption.
  - intros c _. apply H4.
  - intros c _ Hd. destruct (H4 c) as (_ & E & _). congruence.
  - intros c Hc. destruct (H4 c) as (_ & _ & E). congruence.
  - exists h. split; [assumption |]. intros c Hc. exfalso. eapply Hr; eassumption.
Qed.

Lemma respects_refl st : respects st st.
Proof. apply quietly_respects, quietly_refl. Qed.

Lemma respects_trans a b c : respects a b -> respects b c -> respects a c.
Proof.
  intros ((G1 & G2) & H1 & H2 & H3 & H4 & (m1 & Hm1 & Hn1) & (h1 & Hh1 & Hr1))
         ((G3 & G4) & K1 & K2 & K3 & K4 & (m2 & Hm2 & Hn2) & (h2 & Hh2 & Hr2)).
  unfold respects, grows. repeat split; try lia; try congruence.
  - intros x Hx. rewrite K2 by lia. now apply H2.
  - intros x Hx Hd. apply K3; [lia |]. now apply H3.
  - intros x Hx. apply H4, K4, Hx.
  - exists (m1 ++ m2). split.
    + rewrite Hm2, Hm1. now rewrite app_assoc.
    + intros x Hx. apply in_app_iff in Hx.
      destruct Hx as [Hx | Hx]; [eapply Hn1 | eapply Hn2]; eassumption.
  - exists (h2 ++ h1). split.
    + rewrite Hh2, Hh1. now rewrite app_assoc.
    + intros x Hx. apply in_app_iff in Hx. destruct Hx as [Hx | Hx].
      * apply Hr2 in Hx. lia.
      * now apply Hr1.
Qed.

Ltac respects_fields :=
  unfold respects, grows; simpl; repeat split; try lia; try reflexivity;
  try (intro; unfold upd;
       match goal with |- context [Nat.eqb ?a ?b] => destruct (Nat.eqb_spec a b) end;
       simpl; intros; subst; (reflexivity || assumption || lia || congruence));
  try (intros; assumption);
  try (exists []; split; [now rewrite ?app_nil_r | intros ? []]).

Lemma stable_respects : stable respects.
Proof.
  constructor.
  - apply respects_refl.
  - apply respects_trans.
  - intros st st' H. apply H.
  - intros. apply quietly_respects, quietly_user.
  - intros. apply quietly_respects, quietly_signal.
  - intros. apply quietly_respects, quietly_memoGetter.
  - intros. apply quietly_respects, quietly_onCleanup.
  - intros v st. unfold createSignal. respects_fields.
  - intros st. unfold new_cell. respects_fields.
  - intros b st. unfold new_comp. respects_fields.
    exists [EvRun (next_comp st)]. split; [reflexivity |].
    intros c [Hc | []]. inversion Hc. lia.
  - intros st. unfold new_comp. respects_fields.
  - intros. apply quietly_respects, quietly_clear_cleanups.
  - intros. apply quietly_respects, quietly_unsubscribe.
  - intros. apply quietly_respects, quietly_commit.
  - intros d st Hd. respects_fields.
  - intros. apply quietly_respects, quietly_dequeue.
  - intros m st Hm. respects_fields.
    exists [m]. split; [reflexivity |]. intros c [Hc | []]. now apply (Hm c).
  - intros c st st1 Hc (G & _ & H2 & H3 & H4 & H5 & H6).
    unfold respects, grows in *. simpl in *. repeat split; solve [tauto | assumption].
Qed.

Lemma respects_flush_respects st st' : respects st st' -> flush_respects st st'.
Proof. intros (H1 & H2 & H3 & H4 & _). repeat split; assumption || apply H1. Qed.

Lemma flush_respects_refl st : flush_respects st st.
Proof. apply respects_flush_respects, respects_refl. Qed.

Lemma flush_respects_trans a b c :
  flush_respects a b -> flush_respects b c -> flush_respects a c.
Proof.
  intros ((G1 & G2) & H1 & H2 & H3) ((G3 & G4) & K1 & K2 & K3).
  unfold flush_respects, grows. repeat split; try lia; try congruence.
  - intros x Hx. rewrite K2 by lia. now apply H2.
  - intros x Hx Hd. apply K3; [lia |]. now apply H3.
Qed.

Lemma stable_flush_respects : stable flush_respects /\ stable_flush flush_respects.
Proof.
  pose proof stable_respects as S.
  split; constructor; intros;
    try (apply respects_flush_respects; solve
      [ apply (st_user S) | apply (st_signal S); assumption
      | apply (st_memoGetter S); assumption | apply (st_onCleanup S)
      | apply (st_createSignal S) | apply (st_new_cell S) | apply (st_new_run S)
      | apply (st_new_root S) | apply (st_clear_cleanups S) | apply (st_unsubscribe S)
      | apply (st_commit S) | apply (st_disposed S); assumption | apply (st_dequeue S) ]).
  - apply flush_respects_refl.
  - eapply flush_respects_trans; eassumption.
  - match goal with H : flush_respects _ _ |- _ => apply H end.
  - unfold flush_respects, grows. simpl. repeat split; auto.
  - match goal with H : flush_respects _ _ |- _ => destruct H as (G & _ & H2 & H3) end.
    unfold flush_respects, grows in *. simpl in *. repeat split; solve [tauto | assumption].
  - unfold flush_respects, grows. simpl. repeat split; auto.
  - unfold flush_respects, grows. simpl. repeat split; auto.
  - unfold flush_respects, grows. simpl. repeat split; auto;
      intro; unfold upd; destruct (Nat.eqb_spec c eff); simpl; intros; subst; auto.
  - unfold flush_respects, grows. simpl. repeat split; auto.
Qed.

(** C8. Any run of user code, any invocation of an effect or a memo, and
    any [createEffect], [createMemo] or [createRoot] call that comes back at
    all, with a value or with an exception, leaves [currentEffect] as it found
    it; so does a whole flush. *)
Theorem ambient_context_restored (fuel : nat) :
  (forall p st o st', exec fuel p st = Some (o, st') ->
     currentEffect st' = currentEffect st) /\
  (forall e fn st o st', e < next_comp st ->
     effect (exec fuel) e fn st = Some (o, st') ->
     currentEffect st' = currentEffect st) /\
  (forall e fn cell st o st', e < next_comp st ->
     memoEffect (exec fuel) e fn cell st = Some (o, st') ->
     currentEffect st' = currentEffect st) /\
  (forall fn st o st', createEffect (exec fuel) fn st = Some (o, st') ->
     currentEffect st' = currentEffect st) /\
  (forall fn st o st', createMemo (exec fuel) fn st = Some (o, st') ->
     currentEffect st' = currentEffect st) /\
  (forall fn st o st', createRoot (exec fuel) fn st = Some (o, st') ->
     currentEffect st' = currentEffect st) /\
  (forall st o st', (forall eff, In eff (effectQueue st) -> eff < next_comp st) ->
     flush (exec fuel) st = Some (o, st') ->
     currentEffect st' = currentEffect st).
Proof.
  pose proof stable_respects as S.
  pose proof (exec_T respects S fuel) as Hexec.
  repeat split.
  - intros p st o st' H. apply (Hexec p st o st' H).
  - intros e fn st o st' He H.
    apply (effect_T respects S (exec fuel) Hexec e fn st o st' He H).
  - intros e fn cell st o st' He H.
    apply (memoEffect_T respects S (exec fuel) Hexec e fn cell st o st' He H).
  - intros fn st o st' H. apply (createEffect_T respects S (exec fuel) Hexec fn st o st' H).
  - intros fn st o st' H. apply (createMemo_T respects S (exec fuel) Hexec fn st o st' H).
  - intros fn st o st' H. apply (createRoot_T respects S (exec fuel) Hexec fn st o st' H).
  - intros st o st' Hv H. destruct stable_flush_respects as (S1 & S2).
    apply (flush_T flush_respects S1 S2 (exec fuel)) in H; [apply H | | exact Hv].
    intros p st0 o0 st0' Hp. apply respects_flush_respects. eapply Hexec; eassumption.
Qed.

Lemma ambient_context_restored_witness :
  match exec 30 nested_scopes inside_effect_0 with
  | Some (_, st') => currentEffect st' = Some 0
  | None => False
  end.
Proof.
  destruct (exec 30 nested_scopes inside_effect_0) as [[o st'] |] eqn:E.
  - exact (proj1 (ambient_context_restored 30) _ _ _ _ E).
  - assert (R : returns (exec 30 nested_scopes inside_effect_0) = true)
      by (vm_compute; reflexivity).
    rewrite E in R. discriminate R.
Defined.

(** ** Well-formed states *)

Lemma wf_initial : wf initial.
Proof.
  constructor; simpl; try tauto; try reflexivity.
  - constructor.
  - intros c H. discriminate.
Qed.

Lemma wf_subscriber_valid st c s :
  wf st -> In c (subscribers (sources st s)) -> c < next_comp st /\ s < next_source st.
Proof.
  intros W H. split.
  - destruct (Nat.lt_ge_cases c (next_comp st)) as [Hlt | Hge]; [assumption |].
    apply (wf_edges W) in H. rewrite (wf_fresh_comp W Hge) in H. destruct H.
  - destruct (Nat.lt_ge_cases s (next_source st)) as [Hlt | Hge]; [assumption |].
    rewrite (wf_fresh_source W Hge) in H. destruct H.
Qed.

(** Steps that touch neither the scheduler, nor the context, nor an edge. *)
Lemma wf_graph st st' :
  wf st ->
  next_comp st <= next_comp st' -> next_source st <= next_source st' ->
  microtasks st' = microtasks st -> isBatching st' = isBatching st ->
  effectQueue st' = effectQueue st -> currentEffect st' = currentEffect st ->
  (forall c, dependencies (comps st' c) = dependencies (comps st c)) ->
  (forall s, subscribers (sources st' s) = subscribers (sources st s)) ->
  (forall c, tracked c (history st') = tracked c (history st)) ->
  wf st'.
Proof.
  intros W Hc Hs Hm Hb Hq Hcur Hd Hsub Ht. constructor.
  - rewrite Hm, Hb. apply (wf_batching W).
  - rewrite Hq. apply (wf_queue_nodup W).
  - intros c H. rewrite Hq in H. apply (wf_queue_valid W) in H. lia.
  - intros c H. rewrite Hcur in H. apply (wf_current W) in H. lia.
  - intros c H. rewrite Hd. apply (wf_fresh_comp W). lia.
  - intros s H. rewrite Hsub. apply (wf_fresh_source W). lia.
  - intros c s. rewrite Hd, Hsub. apply (wf_edges W).
  - intros c s. rewrite Hd, Ht. apply (wf_tracked W).
Qed.

Ltac graph_step W :=
  eapply wf_graph; [exact W | ..]; simpl; try reflexivity; try lia;
  try (intro; unfold upd;
       match goal with |- context [Nat.eqb ?a ?b] => destruct (Nat.eqb_spec a b) end;
       simpl; subst; reflexivity).

Lemma wf_upd_value s g st :
  (forall src, subscribers (g src) = subscribers src) ->
  wf st -> wf (upd_source s g st).
Proof.
  intros Hg W. graph_step W.
  intros s'. unfold upd. destruct (Nat.eqb s' s); [apply Hg | reflexivity].
Qed.

Lemma wf_upd_comp c g st :
  (forall cp, dependencies (g cp) = dependencies cp) ->
  wf st -> wf (upd_comp c g st).
Proof.
  intros Hg W. graph_step W.
  intros c'. unfold upd. destruct (Nat.eqb c' c); [apply Hg | reflexivity].
Qed.

Lemma wf_log m st : wf st -> wf (log m st).
Proof. intros W. graph_step W. Qed.

Lemma wf_note ev st :
  (forall c s, ev <> EvTrack c s) -> (forall c, ev <> EvClear c) ->
  wf st -> wf (note ev st).
Proof.
  intros H1 H2 W. graph_step W.
  intros c. destruct ev; try reflexivity.
  - exfalso. eapply H1. reflexivity.
  - exfalso. eapply H2. reflexivity.
Qed.

Lemma wf_scheduleUpdate eff st :
  eff < next_comp st -> wf st -> wf (scheduleUpdate eff st).
Proof.
  intros He W. unfold scheduleUpdate. simpl.
  pose proof (wf_batching W) as Hb.
  destruct (isBatching st) eqn:E; constructor; simpl;
    try apply W; try (rewrite Hb; reflexivity); try assumption.
  - apply set_add_NoDup, W.
  - intros c H. apply set_add_In in H. destruct H as [-> | H]; [assumption | now apply W].
  - apply set_add_NoDup, W.
  - intros c H. apply set_add_In in H. destruct H as [-> | H]; [assumption | now apply W].
Qed.

Lemma wf_enqueue_all l : forall st,
  (forall c, In c l -> c < next_comp st) -> wf st -> wf (enqueue_all l st).
Proof.
  induction l as [| c l IH]; intros st Hl W; simpl; [assumption |].
  apply IH.
  - intros c' Hc'. destruct (scheduleUpdate_heap c st) as (_ & _ & _ & _ & Hn & _).
    rewrite Hn. apply Hl. now right.
  - apply wf_scheduleUpdate; [apply Hl; now left | assumption].
Qed.

Lemma wf_notify s st : wf st -> wf (notify s st).
Proof.
  intros W. rewrite notify_unfold. apply wf_enqueue_all; [| assumption].
  intros c Hc. eapply wf_subscriber_valid; eassumption.
Qed.

Lemma wf_track s st : s < next_source st -> wf st -> wf (track s st).
Proof.
  intros Hs W. unfold track. destruct (currentEffect st) as [c |] eqn:Hc; [| assumption].
  pose proof (wf_current W Hc) as Hv.
  constructor; simpl; try apply W.
  - intros c' Hc'. rewrite upd_other by lia. now apply W.
  - intros s' Hs'. rewrite upd_other by lia. now apply W.
  - intros c' s'. unfold upd. pose proof (wf_edges W c' s') as E.
    destruct (Nat.eqb_spec s' s) as [Es | Hns], (Nat.eqb_spec c' c) as [Ec | Hnc]; simpl;
      rewrite ?set_add_In; subst; intuition congruence.
  - intros c' s'. unfold upd.
    destruct (Nat.eqb_spec c' c) as [-> | Hnc]; simpl.
    + rewrite Nat.eqb_refl. simpl. rewrite set_add_In.
      pose proof (wf_tracked W c s'). intuition congruence.
    + destruct (Nat.eqb_spec c c'); [congruence |]. apply (wf_tracked W).
Qed.

Lemma unsubscribe_fold e l : forall st,
  let st1 := fold_left (fun acc depSet => upd_source depSet (delete_subscriber e) acc) l st in
  comps st1 = comps st /\ next_comp st1 = next_comp st /\
  next_source st1 = next_source st /\ currentEffect st1 = currentEffect st /\
  effectQueue st1 = effectQueue st /\ isBatching st1 = isBatching st /\
  microtasks st1 = microtasks st /\ history st1 = history st /\
  console st1 = console st /\
  (forall s, value (sources st1 s) = value (sources st s) /\
             initialized (sources st1 s) = initialized (sources st s)) /\
  (forall c s, In c (subscribers (sources st1 s)) <->
               In c (subscribers (sources st s)) /\ (In s l -> c <> e)).
Proof.
  induction l as [| d l IH]; intros st; simpl.
  - repeat split; try tauto.
  - specialize (IH (upd_source d (delete_subscriber e) st)). simpl in IH.
    destruct IH as (H1 & H2 & H3 & H4 & H5 & H6 & H7 & H8 & H9 & H10 & H11).
    split; [assumption |]. split; [assumption |]. split; [assumption |].
    split; [assumption |]. split; [assumption |]. split; [assumption |].
    split; [assumption |]. split; [assumption |]. split; [assumption |].
    split.
    + intros s. destruct (H10 s) as (Hv & Hi). rewrite Hv, Hi. unfold upd.
      now destruct (Nat.eqb s d).
    + intros c s. rewrite H11. unfold upd.
      destruct (Nat.eqb_spec s d) as [-> | Hne]; simpl.
      * rewrite set_delete_In. intuition.
      * intuition congruence.
Qed.

Lemma wf_unsubscribe e st : wf st -> wf (unsubscribe e st).
Proof.
  intros W. unfold unsubscribe.
  destruct (unsubscribe_fold e (dependencies (comps st e)) st)
    as (H1 & H2 & H3 & H4 & H5 & H6 & H7 & H8 & H9 & H10 & H11).
  set (st1 := fold_left _ _ st) in *.
  constructor; simpl.
  - rewrite H7, H6. apply W.
  - rewrite H5. apply W.
  - rewrite H5, H2. apply W.
  - rewrite H4, H2. apply W.
  - rewrite H2, H1. intros c Hc. unfold upd.
    destruct (Nat.eqb c e); [reflexivity | now apply W].
  - rewrite H3. intros s Hs.
    destruct (subscribers (sources st1 s)) as [| c l] eqn:E; [reflexivity |].
    assert (Hin : In c (subscribers (sources st1 s))) by (rewrite E; now left).
    apply H11 in Hin. destruct Hin as (Hin & _).
    rewrite (wf_fresh_source W Hs) in Hin. destruct Hin.
  - intros c s. rewrite H11, H1. unfold upd.
    pose proof (wf_edges W c s) as E.
    destruct (Nat.eqb_spec c e) as [-> | Hne]; simpl; tauto.
  - intros c s. rewrite H1, H8. unfold upd.
    destruct (Nat.eqb_spec c e) as [-> | Hne]; simpl.
    + rewrite Nat.eqb_refl. tauto.
    + destruct (Nat.eqb_spec e c); [congruence |]. apply (wf_tracked W).
Qed.

Lemma wf_commit cell v st : wf st -> wf (commit cell v st).
Proof.
  intros W. unfold commit. destruct (_ || _); [| assumption].
  apply wf_notify, wf_upd_value; [reflexivity | assumption].
Qed.

Lemma wf_signal s arg st : s < next_source st -> wf st -> wf (snd (signal s arg st)).
Proof.
  intros Hs W. unfold signal. simpl.
  destruct arg as [v |]; [| now apply wf_track].
  destruct (strict_eq v (value (sources st s))); [now apply wf_track |].
  apply wf_track.
  - destruct (quietly_notify s (upd_source s (with_value v) st)) as (_ & _ & Hn & _).
    rewrite Hn. exact Hs.
  - apply wf_notify, wf_upd_value; [reflexivity | assumption].
Qed.

Lemma wf_dequeue e st : wf st -> wf (set_effectQueue (set_delete e (effectQueue st)) st).
Proof.
  intros W. constructor; simpl; try apply W.
  - apply set_delete_NoDup, W.
  - intros c H. apply set_delete_In in H. now apply W.
Qed.

Lemma wf_enter c st : c < next_comp st -> wf st -> wf (set_currentEffect (Some c) st).
Proof.
  intros Hc W. constructor; simpl; try apply W.
  intros c' H. inversion H; subst. assumption.
Qed.

Lemma keeps_wf_same st st' :
  next_comp st' = next_comp st -> next_source st' = next_source st ->
  (wf st -> wf st') -> keeps_wf st st'.
Proof. intros H1 H2 H. split; [split; lia | exact H]. Qed.

Lemma stable_keeps_wf : stable keeps_wf /\ stable_flush keeps_wf.
Proof.
  split; constructor.
  - intros st. split; [split; lia | tauto].
  - intros a b c ((G1 & G2) & H1) ((G3 & G4) & H2). split; [split; lia | tauto].
  - intros st st' H. apply H.
  - intros v st. apply keeps_wf_same; try reflexivity. apply wf_note; discriminate.
  - intros s arg st Hs. apply keeps_wf_same.
    + apply (quietly_signal s arg st).
    + apply (quietly_signal s arg st).
    + now apply wf_signal.
  - intros m st Hm. apply keeps_wf_same; try reflexivity.
    + apply (quietly_memoGetter m st).
    + apply (quietly_memoGetter m st).
    + unfold memoGetter. simpl. now apply wf_track.
  - intros fn st. apply keeps_wf_same.
    + apply (quietly_onCleanup fn st).
    + apply (quietly_onCleanup fn st).
    + unfold onCleanup. destruct (currentEffect st).
      * apply wf_upd_comp. reflexivity.
      * apply wf_log.
  - intros v st. split; [split; simpl; lia |]. intros W. unfold createSignal. graph_step W.
    intros s. unfold upd. destruct (Nat.eqb_spec s (next_source st)) as [-> | Hne]; simpl;
      [symmetry; apply (wf_fresh_source W); lia | reflexivity].
  - intros st. split; [split; simpl; lia |]. intros W. unfold new_cell. graph_step W.
    intros s. unfold upd. destruct (Nat.eqb_spec s (next_source st)) as [-> | Hne]; simpl;
      [symmetry; apply (wf_fresh_source W); lia | reflexivity].
  - intros b st. split; [split; simpl; lia |]. intros W. unfold new_comp. graph_step W.
    intros c. unfold upd. destruct (Nat.eqb_spec c (next_comp st)) as [-> | Hne]; simpl;
      [symmetry; apply (wf_fresh_comp W); lia | reflexivity].
  - intros st. split; [split; simpl; lia |]. intros W. unfold new_comp. graph_step W.
    intros c. unfold upd. destruct (Nat.eqb_spec c (next_comp st)) as [-> | Hne]; simpl;
      [symmetry; apply (wf_fresh_comp W); lia | reflexivity].
  - intros e st. apply keeps_wf_same; try reflexivity. apply wf_upd_comp. reflexivity.
  - intros e st. apply keeps_wf_same.
    + apply (quietly_unsubscribe e st).
    + apply (quietly_unsubscribe e st).
    + apply wf_unsubscribe.
  - intros cell v st. apply keeps_wf_same.
    + apply (quietly_commit cell v st).
    + apply (quietly_commit cell v st).
    + apply wf_commit.
  - intros d st _. apply keeps_wf_same; try reflexivity. apply wf_upd_comp. reflexivity.
  - intros e st. apply keeps_wf_same; try reflexivity. apply wf_dequeue.
  - intros m st _. apply keeps_wf_same; try reflexivity. apply wf_log.
  - intros c st st1 Hc ((G1 & G2) & H). simpl in G1, G2. split; [split; simpl; lia |].
    intros W. specialize (H (wf_enter Hc W)).
    constructor; simpl; try apply H.
    intros c' Hc'. apply (wf_current W) in Hc'. lia.
  - intros st. apply keeps_wf_same; try reflexivity. intros W.
    constructor; simpl; try apply W.
    rewrite (wf_batching W). now destruct (isBatching st).
  - intros eff st _. apply keeps_wf_same; try reflexivity. apply wf_note; discriminate.
  - intros eff b st. apply keeps_wf_same; try reflexivity. apply wf_upd_comp. reflexivity.
  - intros m st. apply keeps_wf_same; try reflexivity. apply wf_log.
Qed.

(** Every state reached from a well-formed one by user code or by a turn of
    the scheduler is well-formed. *)
Theorem exec_wf fuel p st o st' :
  wf st -> exec fuel p st = Some (o, st') -> wf st'.
Proof.
  intros W H. destruct stable_keeps_wf as (S & _).
  apply (exec_T keeps_wf S fuel p st o st' H). exact W.
Qed.

Theorem flush_wf fuel st o st' :
  wf st -> flush (exec fuel) st = Some (o, st') -> wf st'.
Proof.
  intros W H. destruct stable_keeps_wf as (S1 & S2).
  apply (flush_T keeps_wf S1 S2 (exec fuel) (exec_T keeps_wf S1 fuel)) in H.
  - now apply H.
  - apply (wf_queue_valid W).
Qed.

Theorem microtask_wf fuel st st' : wf st -> microtask fuel st = Some st' -> wf st'.
Proof.
  intros W H. unfold microtask in H. destruct (microtasks st); [discriminate |].
  destruct (flush (exec fuel) st) as [[o st1] |] eqn:E; [| discriminate].
  inversion H; subst. eapply flush_wf; eassumption.
Qed.

(** ** One invocation of an effect, step by step *)

Lemma unsubscribe_currentEffect e st : currentEffect (unsubscribe e st) = currentEffect st.
Proof. apply (quietly_unsubscribe e st). Qed.


Lemma memoEffect_inv call e fn cell st o st' :
  memoEffect call e fn cell st = Some (o, st') ->
  exists oc st1,
    run_cleanups call (cleanups (comps st e)) st = Some (oc, st1) /\
    match oc with
    | Raised x => o = Raised x /\ st' = st1
    | Normal _ =>
        exists ob st2,
          call fn (body_state e st1) = Some (ob, st2) /\
          match ob with
          | Normal newValue =>
              st' = set_currentEffect (currentEffect st1) (commit cell newValue st2) /\
              o = Normal tt
          | Raised x => st' = set_currentEffect (currentEffect st1) st2 /\ o = Raised x
          end
    end.
Proof.
  intros H. unfold memoEffect in H. rewrite bind_gets in H. apply bind_inv in H.
  destruct H as [(a & st1 & H1 & H2) | (x & H1 & ->)].
  - exists (Normal a), st1. split; [assumption |].
    rewrite !bind_lift, bind_gets, bind_lift in H2.
    apply finally_inv in H2. destruct H2 as (st2 & H2 & ->).
    rewrite unsubscribe_currentEffect. simpl.
    apply bind_inv in H2. destruct H2 as [(v & st3 & Hb1 & Hb2) | (x & Hb1 & ->)].
    + apply lift_inv in Hb2. destruct Hb2 as (-> & ->).
      exists (Normal v), st3. repeat split. exact Hb1.
    + exists (Raised x), st2. repeat split. exact Hb1.
  - exists (Raised x), st'. repeat split. assumption.
Qed.

(** *** The definitions do what is said call by call *)











(** The cleanups run in list order, which [onCleanup] makes the order of
    registration. *)
Lemma run_cleanups_app call cs1 cs2 st :
  run_cleanups call (cs1 ++ cs2) st =
  (run_cleanups call cs1 ;; run_cleanups call cs2) st.
Proof.
  revert st. induction cs1 as [| c cs1 IH]; intros st; simpl.
  - reflexivity.
  - unfold bind in *. destruct (call c st) as [[[a | x] st1] |]; try reflexivity.
    apply IH.
Qed.



(** *** A concrete run: [createEffect(() => { onCleanup(...); a() ? b() : c() })] *)

Lemma after_wf fuel p st : wf st -> wf (after fuel p st).
Proof.
  intros W. unfold after. destruct (exec fuel p st) as [[o st'] |] eqn:E; [| exact W].
  eapply exec_wf; eassumption.
Qed.

Lemma after_turn_wf fuel st : wf st -> wf (after_turn fuel st).
Proof.
  intros W. unfold after_turn. destruct (microtask fuel st) as [st' |] eqn:E; [| exact W].
  eapply microtask_wf; eassumption.
Qed.


(** Cleanups of the first run execute, in registration order, before the
    body of the second; afterwards the effect depends on [a] and [c] only, so
    a write to [b] enqueues nothing and a write to [c] enqueues the effect. *)
Example branching_run :
  let st := after_turn 30 branching_state in
  performed st = [JStr "body"; JStr "first"; JStr "second"; JStr "body"] /\
  dependencies (comps st 0) = [0; 2] /\
  subscribers (sources st 1) = [] /\
  effectQueue (snd (signal 1 (Some (JNum 5)) st)) = [] /\
  effectQueue (snd (signal 2 (Some (JNum 5)) st)) = [0].
Proof. vm_compute. repeat split. Qed.


(** ** Who gets invoked, and how often *)

Lemma runs_of_app c h1 h2 : runs_of c (h1 ++ h2) = runs_of c h1 + runs_of c h2.
Proof.
  induction h1 as [| ev h1 IH]; simpl; [reflexivity |].
  destruct ev; try assumption. rewrite IH. lia.
Qed.

Lemma runs_of_fresh c n h :
  (forall c', In (EvRun c') h -> n <= c') -> c < n -> runs_of c h = 0.
Proof.
  intros Hf Hc. induction h as [| ev h IH]; simpl; [reflexivity |].
  assert (IH' : runs_of c h = 0) by (apply IH; intros c' H; apply Hf; now right).
  destruct ev; try assumption.
  destruct (Nat.eqb_spec c0 c) as [-> | Hne]; [| assumption].
  specialize (Hf c (or_introl eq_refl)). lia.
Qed.


Lemma exec_respects fuel p st o st' :
  exec fuel p st = Some (o, st') -> respects st st'.
Proof. apply (exec_T respects stable_respects). Qed.

Lemma effect_respects fuel e fn st o st' :
  e < next_comp st -> effect (exec fuel) e fn st = Some (o, st') -> respects st st'.
Proof.
  apply (effect_T respects stable_respects (exec fuel) (exec_T respects stable_respects fuel)).
Qed.

Lemma memoEffect_respects fuel e fn cell st o st' :
  e < next_comp st -> memoEffect (exec fuel) e fn cell st = Some (o, st') -> respects st st'.
Proof.
  apply (memoEffect_T respects stable_respects (exec fuel)
           (exec_T respects stable_respects fuel)).
Qed.

(** [eff()]: an effect or a memo starts one invocation and then behaves as
    user code does; a root context only raises. *)
Lemma invoke_respects fuel x st o st' :
  x < next_comp st ->
  invoke (exec fuel) x st = Some (o, st') ->
  if is_callable (body (comps st x))
  then respects (note (EvRun x) st) st'
  else st' = st /\ exists e, o = Raised e.
Proof.
  intros Hx H. unfold invoke in H. rewrite bind_gets in H.
  destruct (body (comps st x)); simpl.
  - rewrite bind_lift in H. eapply effect_respects; [| exact H]. exact Hx.
  - rewrite bind_lift in H. eapply memoEffect_respects; [| exact H]. exact Hx.
  - inversion H; subst. split; [reflexivity | eauto].
Qed.

(** One iteration of the flush loop, case by case. *)
Lemma flush_one_inv call eff st o st' :
  flush_one call eff st = Some (o, st') ->
  if disposed (comps st eff) then o = Normal tt /\ st' = dequeue eff st
  else if running (comps st eff)
  then o = Normal tt /\ st' = log (CycleDetected eff) (dequeue eff st)
  else exists oi st2,
    invoke call eff (upd_comp eff (with_running true) (dequeue eff st)) = Some (oi, st2) /\
    o = caught_outcome oi /\
    st' = upd_comp eff (with_running false) (caught_state oi st2).
Proof.
  intros H. unfold flush_one in H. rewrite bind_lift, bind_gets in H.
  fold (dequeue eff st) in H. simpl in H.
  destruct (disposed (comps st eff)).
  { apply ret_inv in H. destruct H as (-> & ->). now split. }
  rewrite bind_gets in H. simpl in H.
  destruct (running (comps st eff)).
  { apply lift_inv in H. destruct H as (-> & ->). now split. }
  apply finally_inv in H. destruct H as (st1 & H & ->).
  apply catch_inv in H. destruct H as [(a & H & ->) | (e & st2 & H & Hl)].
  - rewrite bind_lift in H. destruct a.
    exists (Normal tt), st1. split; [exact H | split; reflexivity].
  - rewrite bind_lift in H. apply (report_inv EffectFailed) in Hl.
    exists (Raised e), st2. split; [exact H |]. simpl.
    destruct (nullish e); destruct Hl as (-> & ->); split; reflexivity.
Qed.

Lemma flush_one_runs fuel x e st o st' :
  x < next_comp st -> e < next_comp st ->
  flush_one (exec fuel) x st = Some (o, st') ->
  runs_of e (history st') = runs_in_turn x e st + runs_of e (history st) /\
  (forall c, running (comps st c) = false -> running (comps st' c) = false) /\
  (running (comps st x) = false ->
   exists msgs, console st' = console st ++ msgs /\ forall c, ~ In (CycleDetected c) msgs).
Proof.
  intros Hx He H. apply flush_one_inv in H.
  unfold runs_in_turn.
  destruct (disposed (comps st x)) eqn:Ed.
  { destruct H as (_ & ->). simpl. rewrite andb_false_r. simpl. repeat split; try tauto.
    intros _. exists []. split; [now rewrite app_nil_r | intros c []]. }
  destruct (running (comps st x)) eqn:Er.
  { destruct H as (_ & ->). simpl. rewrite andb_false_r. simpl.
    repeat split; try tauto. discriminate. }
  destruct H as (oi & st2 & Hi & _ & ->).
  set (st1 := upd_comp x (with_running true) (dequeue x st)) in *.
  assert (Hb : body (comps st1 x) = body (comps st x)).
  { unfold st1. simpl. now rewrite upd_same. }
  apply invoke_respects in Hi; [| exact Hx]. rewrite Hb in Hi.
  assert (Hfin : forall st3 msgs3,
    (history st3 = history st2 /\ comps st3 = comps st2 /\ console st3 = console st2 ++ msgs3 /\
     forall c, ~ In (CycleDetected c) msgs3) ->
    runs_of e (history (upd_comp x (with_running false) st3)) =
      (if Nat.eqb x e && true && true && is_callable (body (comps st x)) then 1 else 0)
      + runs_of e (history st) /\
    (forall c, running (comps st c) = false ->
               running (comps (upd_comp x (with_running false) st3) c) = false) /\
    (false = false ->
     exists msgs, console (upd_comp x (with_running false) st3) = console st ++ msgs /\
                  forall c, ~ In (CycleDetected c) msgs)).
  { intros st3 msgs3 (Hh3 & Hc3 & Hm3 & Hn3). simpl. rewrite Hh3, Hc3.
    destruct (is_callable (body (comps st x))).
    - destruct Hi as (_ & _ & _ & _ & Hrun & (msgs & Hmsg & Hnc) & (h & Hh & Hf)).
      simpl in *. repeat split.
      + rewrite Hh, runs_of_app, (@runs_of_fresh e _ h Hf He). simpl.
        rewrite !andb_true_r. destruct (Nat.eqb x e); reflexivity.
      + intros c Hc. unfold upd. destruct (Nat.eqb_spec c x) as [-> | Hne]; [reflexivity |].
        destruct (running (comps st2 c)) eqn:E; [| reflexivity].
        apply Hrun in E. unfold upd in E.
        destruct (Nat.eqb_spec c x); [congruence |]. congruence.
      + intros _. exists (msgs ++ msgs3). split.
        * rewrite Hm3, Hmsg. now rewrite app_assoc.
        * intros c Hc. apply in_app_iff in Hc.
          destruct Hc as [Hc | Hc]; [eapply Hnc | eapply Hn3]; eassumption.
    - destruct Hi as (-> & _). simpl. rewrite !andb_false_r. repeat split.
      + intros c Hc. unfold upd. destruct (Nat.eqb_spec c x) as [-> | Hne]; [reflexivity |].
        unfold st1. simpl. unfold upd. destruct (Nat.eqb_spec c x); [congruence | exact Hc].
      + intros _. exists msgs3. split; [| exact Hn3]. rewrite Hm3. reflexivity. }
  assert (Hquiet : forall st3, st3 = st2 ->
    history st3 = history st2 /\ comps st3 = comps st2 /\ console st3 = console st2 ++ [] /\
    forall c, ~ In (CycleDetected c) []).
  { intros st3 ->. repeat split; [now rewrite app_nil_r | intros c []]. }
  destruct oi as [a | y]; simpl caught_state.
  - apply (Hfin st2 []). now apply Hquiet.
  - destruct (nullish y).
    + apply (Hfin st2 []). now apply Hquiet.
    + apply (Hfin (log (EffectFailed y) st2) [EffectFailed y]). repeat split.
      intros c [Hc | []]. discriminate.
Qed.

Lemma flush_one_flush_respects fuel x st o st' :
  x < next_comp st -> flush_one (exec fuel) x st = Some (o, st') -> flush_respects st st'.
Proof.
  intros Hx H. destruct stable_flush_respects as (S1 & S2).
  apply (flush_one_T flush_respects S1 S2 (exec fuel)) in H; [apply H | | exact Hx].
  intros p st0 o0 st0' Hp. apply respects_flush_respects. eapply exec_respects; eassumption.
Qed.





Lemma microtask_inv fuel st st' :
  microtask fuel st = Some st' ->
  exists n o, microtasks st = S n /\
    flush_loop (exec fuel) (effectQueue st) (set_batching false n st) = Some (o, st').
Proof.
  intros H. unfold microtask in H. destruct (microtasks st) as [| n] eqn:Em; [discriminate |].
  destruct (flush (exec fuel) st) as [[o st1] |] eqn:E; [| discriminate].
  exists n, o. split; [reflexivity |].
  inversion H; subst. unfold flush in E. rewrite bind_lift, bind_gets in E.
  rewrite Em in E. exact E.
Qed.

(** ** Batching *)






Lemma writes_wf ws : forall st,
  (forall w, In w ws -> fst w < next_source st) -> wf st -> wf (writes ws st).
Proof.
  induction ws as [| w ws IH]; intros st Hs W; [exact W |].
  change (wf (writes ws (snd (signal (fst w) (Some (snd w)) st)))).
  apply IH.
  - intros w' Hw'. destruct (quietly_signal (fst w) (Some (snd w)) st) as (_ & _ & Hn & _).
    rewrite Hn. apply Hs. now right.
  - apply wf_signal; [apply Hs; now left | exact W].
Qed.



(** What a setter call does to the scheduler. *)
Lemma signal_write_changed s v st :
  strict_eq v (value (sources st s)) = false ->
  effectQueue (snd (signal s (Some v) st)) =
    fold_left (fun q c => set_add c q) (subscribers (sources st s)) (effectQueue st) /\
  (subscribers (sources st s) <> [] -> isBatching (snd (signal s (Some v) st)) = true).
Proof.
  intros Hne. unfold signal. rewrite Hne. simpl.
  set (st1 := upd_source s (with_value v) st).
  assert (Hsubs : subscribers (sources st1 s) = subscribers (sources st s)).
  { unfold st1. simpl. now rewrite upd_same. }
  destruct (track_sched s (notify s st1)) as (Hq & Hb & _).
  rewrite Hq, Hb, notify_unfold, Hsubs, enqueue_all_queue.
  split; [reflexivity |]. intros Hl. now apply enqueue_all_batching.
Qed.

Lemma signal_write_same s v st :
  strict_eq v (value (sources st s)) = true ->
  effectQueue (snd (signal s (Some v) st)) = effectQueue st /\
  isBatching (snd (signal s (Some v) st)) = isBatching st /\
  microtasks (snd (signal s (Some v) st)) = microtasks st.
Proof. intros Heq. unfold signal. rewrite Heq. simpl. apply track_sched. Qed.







(** Two writes to two signals of one effect before the microtask runs give
    one queue entry, one scheduled microtask and one re-run. *)
Example two_signals_batched :
  let st0 := after 30 two_signals initial in
  let st1 := writes [(0, JNum 10); (1, JNum 20)] st0 in
  let st2 := after_turn 30 st1 in
  runs_of 0 (history st0) = 1 /\ runs_of 0 (history st1) = 1 /\
  effectQueue st1 = [0] /\ microtasks st1 = 1 /\
  runs_of 0 (history st2) = 2 /\ microtasks st2 = 0 /\
  performed st2 = [JNum 3; JNum 30].
Proof. vm_compute. repeat split. Qed.


(** ** Disposal *)

Lemma unsubscribe_clean e st :
  dependencies (comps (unsubscribe e st) e) = [] /\
  disposed (comps (unsubscribe e st) e) = disposed (comps st e) /\
  effectQueue (unsubscribe e st) = effectQueue st /\
  (wf st -> forall s, ~ In e (subscribers (sources (unsubscribe e st) s))).
Proof.
  unfold unsubscribe.
  destruct (unsubscribe_fold e (dependencies (comps st e)) st)
    as (H1 & H2 & H3 & H4 & H5 & H6 & H7 & H8 & H9 & H10 & H11).
  simpl in *. rewrite H1, H5. rewrite !upd_same. simpl.
  repeat split.
  intros W s Hin. apply H11 in Hin. destruct Hin as (Hin & Hne).
  apply (wf_edges W) in Hin. now apply Hne.
Qed.



(** Disposing an effect twice runs its cleanup once and leaves it
    unsubscribed and out of the queue. *)
Example dispose_twice_run :
  let st := after 30 dispose_twice initial in
  performed st = [JStr "cleanup"] /\
  disposed (comps st 0) = true /\ dependencies (comps st 0) = [] /\
  subscribers (sources st 0) = [] /\ effectQueue st = [] /\ microtasks st = 0 /\
  runs_of 0 (history st) = 1.
Proof. vm_compute. repeat split. Qed.


(** ** Memos *)


Lemma commit_spec cell v st :
  (initialized (sources st cell) = true ->
   strict_eq v (value (sources st cell)) = true -> commit cell v st = st) /\
  (initialized (sources st cell) = false \/ strict_eq v (value (sources st cell)) = false ->
   value (sources (commit cell v st) cell) = v /\
   initialized (sources (commit cell v st) cell) = true /\
   effectQueue (commit cell v st) =
     fold_left (fun q c => set_add c q) (subscribers (sources st cell)) (effectQueue st) /\
   (forall c, In c (subscribers (sources st cell)) -> In c (effectQueue (commit cell v st)))).
Proof.
  unfold commit. split.
  - intros Hi He. now rewrite Hi, He.
  - intros H.
    assert (E : negb (initialized (sources st cell)) ||
                negb (strict_eq v (value (sources st cell))) = true).
    { destruct H as [-> | ->]; [reflexivity | apply orb_true_r]. }
    rewrite E. rewrite notify_unfold.
    destruct (enqueue_all_heap (subscribers (sources (upd_source cell (with_cache v) st) cell))
                (upd_source cell (with_cache v) st)) as (_ & Hs & _).
    rewrite Hs, enqueue_all_queue. simpl. rewrite upd_same. simpl.
    repeat split. intros c Hc. apply fold_set_add_In. now left.
Qed.

Lemma commit_value cell v st :
  value (sources (commit cell v st) cell) = v /\
  initialized (sources (commit cell v st) cell) = true.
Proof.
  destruct (commit_spec cell v st) as (Hsame & Hnew).
  destruct (initialized (sources st cell)) eqn:Ei;
    [destruct (strict_eq v (value (sources st cell))) eqn:Ee |].
  - rewrite (Hsame eq_refl eq_refl). split; [| exact Ei].
    symmetry. now apply strict_eq_true.
  - destruct (Hnew (or_intror eq_refl)) as (H1 & H2 & _). now split.
  - destruct (Hnew (or_introl eq_refl)) as (H1 & H2 & _). now split.
Qed.

Lemma createMemo_body fn call st :
  createMemo call fn st =
  match call fn (body_state (next_comp st)
                   (note (EvRun (next_comp st))
                      (snd (new_comp (Memo fn (next_source st)) (snd (new_cell st)))))) with
  | Some (Normal v, st2) =>
      Some (Normal (next_source st),
            set_currentEffect (currentEffect st) (commit (next_source st) v st2))
  | Some (Raised x, st2) => Some (Raised x, set_currentEffect (currentEffect st) st2)
  | None => None
  end.
Proof.
  unfold createMemo. rewrite !bind_lift_val, bind_lift.
  change (fst (new_cell st)) with (next_source st).
  rewrite new_comp_fresh.
  change (next_comp (snd (new_cell st))) with (next_comp st).
  set (st0 := note _ _).
  unfold memoEffect.
  assert (Ec : cleanups (comps st0 (next_comp st)) = []).
  { unfold st0. simpl. now rewrite upd_same. }
  unfold bind at 1. rewrite bind_gets, Ec. simpl run_cleanups.
  unfold bind at 1. unfold ret at 1.
  rewrite !bind_lift, bind_gets, bind_lift.
  rewrite unsubscribe_currentEffect. fold (body_state (next_comp st) st0).
  unfold finally, bind, lift.
  destruct (call fn (body_state (next_comp st) st0)) as [[[v | x] st2] |]; reflexivity.
Qed.


(** A write that leaves the parity unchanged re-runs the memo but not the
    effect reading it; a write that changes the parity re-runs both. *)
Example parity_run :
  let st0 := after 30 parity initial in
  let st1 := after_turn 30 (writes [(0, JNum 4)] st0) in
  let st2 := after_turn 30 (after_turn 30 (writes [(0, JNum 5)] st1)) in
  (runs_of 0 (history st0), runs_of 1 (history st0), performed st0) = (1, 1, [JNum 0]) /\
  (runs_of 0 (history st1), runs_of 1 (history st1), performed st1) = (2, 1, [JNum 0]) /\
  (runs_of 0 (history st2), runs_of 1 (history st2), performed st2)
    = (3, 2, [JNum 0; JNum 1]) /\
  fst (memoGetter 1 st2) = JNum 1.
Proof. vm_compute. repeat split. Qed.

(** ** Failing computations *)



Lemma flush_one_raised call eff st x st2 :
  disposed (comps st eff) = false -> running (comps st eff) = false ->
  invoke call eff (upd_comp eff (with_running true) (dequeue eff st)) = Some (Raised x, st2) ->
  flush_one call eff st =
    Some (caught_outcome (Raised x),
          upd_comp eff (with_running false) (caught_state (Raised x) st2)).
Proof.
  intros Hd Hr H. unfold flush_one. rewrite bind_lift, bind_gets.
  fold (dequeue eff st). simpl. rewrite Hd. rewrite bind_gets. simpl. rewrite Hr.
  unfold finally, catch. rewrite bind_lift. rewrite H. rewrite report_eq.
  destruct (nullish x); reflexivity.
Qed.

Lemma flush_one_catches call eff st x st2 :
  disposed (comps st eff) = false -> running (comps st eff) = false ->
  invoke call eff (upd_comp eff (with_running true) (dequeue eff st)) = Some (Raised x, st2) ->
  nullish x = false ->
  flush_one call eff st =
    Some (Normal tt, upd_comp eff (with_running false) (log (EffectFailed x) st2)).
Proof.
  intros Hd Hr H Hx. rewrite (flush_one_raised _ _ _ Hd Hr H). simpl. now rewrite Hx.
Qed.


Lemma createEffect_body fn call st :
  createEffect call fn st =
  match call fn (body_state (next_comp st)
                   (note (EvRun (next_comp st)) (snd (new_comp (Effect fn) st)))) with
  | Some (Normal _, st2) => Some (Normal (next_comp st), set_currentEffect (currentEffect st) st2)
  | Some (Raised x, st2) => Some (Raised x, set_currentEffect (currentEffect st) st2)
  | None => None
  end.
Proof.
  unfold createEffect. rewrite bind_lift_val, bind_lift, new_comp_fresh.
  set (st0 := note _ _).
  unfold effect.
  assert (Ec : cleanups (comps st0 (next_comp st)) = []).
  { unfold st0. simpl. now rewrite upd_same. }
  unfold bind at 1. rewrite bind_gets, Ec. simpl run_cleanups.
  unfold bind at 1. unfold ret at 1.
  rewrite !bind_lift, bind_gets, bind_lift.
  rewrite unsubscribe_currentEffect. fold (body_state (next_comp st) st0).
  unfold finally, bind.
  destruct (call fn (body_state (next_comp st) st0)) as [[[v | x] st2] |]; reflexivity.
Qed.



(** Of two effects of one signal, the first throws on its re-run: the
    failure is logged and the second still runs in the same flush. *)
Example one_fails_run :
  let st := after_turn 30 (after 30 one_fails initial) in
  console st = [EffectFailed (JStr "boom")] /\
  performed st = [JNum 0; JNum 1] /\
  dependencies (comps st 0) = [0] /\ subscribers (sources st 0) = [0; 1] /\
  running (comps st 0) = false /\ currentEffect st = None.
Proof. vm_compute. repeat split. Qed.

(** ** An effect that writes the signal it reads *)

Lemma exec_call_signal n s arg k st :
  s < next_source st ->
  exec (S n) (Call_signal s arg k) st =
  exec n (k (fst (signal s arg st))) (snd (signal s arg st)).
Proof.
  intros Hs.
  change (exec (S n) (Call_signal s arg k))
    with (guard (fun st => s <? next_source st) ;;
          v <- lift_val (signal s arg) ;; exec n (k v)).
  apply Nat.ltb_lt in Hs. unfold bind at 1. unfold guard. rewrite Hs.
  apply bind_lift_val.
Qed.

Lemma effect_no_cleanups call e fn st :
  cleanups (comps st e) = [] ->
  effect call e fn st =
  match call fn (body_state e st) with
  | Some (ob, st2) => Some (unit_outcome ob, set_currentEffect (currentEffect st) st2)
  | None => None
  end.
Proof.
  intros Ec. unfold effect. rewrite bind_gets, Ec. simpl run_cleanups.
  unfold bind at 1. unfold ret at 1.
  rewrite !bind_lift, bind_gets, bind_lift.
  rewrite unsubscribe_currentEffect. fold (body_state e st).
  unfold finally, bind.
  destruct (call fn (body_state e st)) as [[[v | x] st2] |]; reflexivity.
Qed.

Lemma invoke_effect call eff fn st :
  body (comps st eff) = Effect fn ->
  invoke call eff st = effect call eff fn (note (EvRun eff) st).
Proof. intros Hb. unfold invoke. rewrite bind_gets, Hb, bind_lift. reflexivity. Qed.

Lemma flush_one_normal call eff st st2 :
  disposed (comps st eff) = false -> running (comps st eff) = false ->
  invoke call eff (upd_comp eff (with_running true) (dequeue eff st)) = Some (Normal tt, st2) ->
  flush_one call eff st = Some (Normal tt, upd_comp eff (with_running false) st2).
Proof.
  intros Hd Hr H. unfold flush_one. rewrite bind_lift, bind_gets.
  fold (dequeue eff st). simpl. rewrite Hd. rewrite bind_gets. simpl. rewrite Hr.
  unfold finally, catch. rewrite bind_lift. rewrite H. reflexivity.
Qed.

Lemma body_state_frame e st s :
  next_source (body_state e st) = next_source st /\
  value (sources (body_state e st) s) = value (sources st s).
Proof.
  unfold body_state, unsubscribe.
  destruct (unsubscribe_fold e (dependencies (comps (upd_comp e clear_cleanups st) e))
              (upd_comp e clear_cleanups st))
    as (_ & _ & Hn & _ & _ & _ & _ & _ & _ & Hv & _).
  simpl in *. rewrite Hn. split; [reflexivity |]. apply (Hv s).
Qed.

Lemma self_writer_body_run f k sb :
  0 < next_source sb -> value (sources sb 0) = JNum k ->
  exec (3 + f) (self_writer_body 0) sb =
  Some (Normal JUndefined, snd (signal 0 (Some (JNum (k + 1))) (snd (signal 0 None sb)))).
Proof.
  intros Hs Hv. unfold self_writer_body.
  change (3 + f) with (S (S (S f))).
  rewrite exec_call_signal by exact Hs.
  assert (E : fst (signal 0 None sb) = JNum k).
  { unfold signal. simpl. rewrite track_value. exact Hv. }
  rewrite E.
  rewrite exec_call_signal.
  - reflexivity.
  - destruct (quietly_signal 0 None sb) as (_ & _ & Hn & _). rewrite Hn. exact Hs.
Qed.

Lemma cycling_flush f k n st :
  cycling k n st -> microtask (3 + f) st = Some (cycling_next k st).
Proof.
  intros [H1 H2 H3 H4 H5 H6 H7 H8 H9].
  unfold cycling_next.
  set (st0 := set_batching false 0 st).
  set (st1 := note (EvRun 0) (upd_comp 0 (with_running true) (dequeue 0 st0))).
  set (sb := body_state 0 st1).
  set (st2 := snd (signal 0 (Some (JNum (k + 1))) (snd (signal 0 None sb)))).
  assert (Hinv : invoke (exec (3 + f)) 0 (upd_comp 0 (with_running true) (dequeue 0 st0))
                 = Some (Normal tt, set_currentEffect (currentEffect st1) st2)).
  { rewrite (@invoke_effect _ 0 (self_writer_body 0)).
    - fold st1. rewrite effect_no_cleanups.
      + fold sb. rewrite (@self_writer_body_run f k sb).
        * reflexivity.
        * unfold sb. rewrite (proj1 (body_state_frame 0 st1 0)). exact H6.
        * unfold sb. rewrite (proj2 (body_state_frame 0 st1 0)).
          change (sources st1) with (sources st). now rewrite H5.
      + change (cleanups (with_running true (comps st 0)) = []). now rewrite H7.
    - change (body (with_running true (comps st 0)) = Effect (self_writer_body 0)).
      now rewrite H7. }
  assert (Hone : flush_one (exec (3 + f)) 0 st0
                 = Some (Normal tt, upd_comp 0 (with_running false)
                                      (set_currentEffect (currentEffect st1) st2))).
  { apply flush_one_normal; [| | exact Hinv].
    - change (disposed (comps st 0) = false). now rewrite H7.
    - change (running (comps st 0) = false). now rewrite H7. }
  unfold microtask. rewrite H4. unfold flush. rewrite bind_lift, bind_gets. rewrite H4.
  change (Init.Nat.pred 1) with 0. fold st0.
  change (effectQueue st0) with (effectQueue st). rewrite H2.
  change (flush_loop (exec (3 + f)) [0] st0)
    with ((flush_one (exec (3 + f)) 0 ;; ret tt) st0).
  unfold bind. rewrite Hone. reflexivity.
Qed.

Section At0.

Variables (st : state) (cur : option CompId) (q : list CompId) (b : bool) (m : nat).
Variables (src : source) (cmp : comp) (con : list message) (hist : list event) (ns : nat).
Hypothesis H : at0 st cur q b m src cmp con hist ns.

Lemma at0_set_batching b' m' : at0 (set_batching b' m' st) cur q b' m' src cmp con hist ns.
Proof. destruct H as (H1 & H2 & H3 & H4 & H5 & H6 & H7 & H8 & H9). repeat split; assumption. Qed.

Lemma at0_dequeue e : at0 (dequeue e st) cur (set_delete e q) b m src cmp con hist ns.
Proof.
  destruct H as (H1 & H2 & H3 & H4 & H5 & H6 & H7 & H8 & H9).
  repeat split; try assumption. unfold dequeue. simpl. now rewrite H2.
Qed.

Lemma at0_upd_comp g : at0 (upd_comp 0 g st) cur q b m src (g cmp) con hist ns.
Proof.
  destruct H as (H1 & H2 & H3 & H4 & H5 & H6 & H7 & H8 & H9).
  repeat split; try assumption. simpl. now rewrite upd_same, H6.
Qed.

Lemma at0_upd_source g : at0 (upd_source 0 g st) cur q b m (g src) cmp con hist ns.
Proof.
  destruct H as (H1 & H2 & H3 & H4 & H5 & H6 & H7 & H8 & H9).
  repeat split; try assumption. simpl. now rewrite upd_same, H5.
Qed.

Lemma at0_note ev : at0 (note ev st) cur q b m src cmp con (ev :: hist) ns.
Proof.
  destruct H as (H1 & H2 & H3 & H4 & H5 & H6 & H7 & H8 & H9).
  repeat split; try assumption. simpl. now rewrite H8.
Qed.

Lemma at0_set_currentEffect c : at0 (set_currentEffect c st) c q b m src cmp con hist ns.
Proof. destruct H as (H1 & H2 & H3 & H4 & H5 & H6 & H7 & H8 & H9). repeat split; assumption. Qed.

Lemma at0_scheduleUpdate e :
  at0 (scheduleUpdate e st) cur (set_add e q) true (if b then m else S m) src cmp con hist ns.
Proof.
  destruct H as (H1 & H2 & H3 & H4 & H5 & H6 & H7 & H8 & H9).
  unfold scheduleUpdate. simpl. rewrite H3.
  destruct b; repeat split; simpl; try assumption; now rewrite ?H2, ?H4.
Qed.

End At0.

Lemma at0_unsubscribe st cur q b m src cmp con hist ns :
  at0 st cur q b m src cmp con hist ns -> dependencies cmp = [0] ->
  at0 (unsubscribe 0 st) cur q b m (delete_subscriber 0 src) (clear_dependencies cmp)
      con (EvClear 0 :: hist) ns.
Proof.
  intros H Hd. unfold unsubscribe.
  assert (E : dependencies (comps st 0) = [0]).
  { destruct H as (_ & _ & _ & _ & _ & H6 & _). now rewrite H6. }
  rewrite E. simpl fold_left.
  apply at0_note, at0_upd_comp, at0_upd_source, H.
Qed.

Lemma at0_track st q b m src cmp con hist ns :
  at0 st (Some 0) q b m src cmp con hist ns ->
  at0 (track 0 st) (Some 0) q b m (add_subscriber 0 src) (add_dependency 0 cmp)
      con (EvTrack 0 0 :: hist) ns.
Proof.
  intros H. unfold track.
  assert (E : currentEffect st = Some 0) by apply H.
  rewrite E. apply at0_note, at0_upd_comp, at0_upd_source, H.
Qed.

Lemma at0_notify st cur q b m src cmp con hist ns :
  at0 st cur q b m src cmp con hist ns -> subscribers src = [0] ->
  at0 (notify 0 st) cur (set_add 0 q) true (if b then m else S m) src cmp con hist ns.
Proof.
  intros H Hs. unfold notify.
  assert (E : subscribers (sources st 0) = [0]).
  { destruct H as (_ & _ & _ & _ & H5 & _). now rewrite H5. }
  rewrite E. simpl fold_left. apply at0_scheduleUpdate, H.
Qed.

Lemma at0_read st q b m src cmp con hist ns :
  at0 st (Some 0) q b m src cmp con hist ns ->
  at0 (snd (signal 0 None st)) (Some 0) q b m (add_subscriber 0 src) (add_dependency 0 cmp)
      con (EvTrack 0 0 :: hist) ns.
Proof. intros H. unfold signal. simpl snd. now apply at0_track. Qed.

Lemma at0_write st q b m src cmp con hist ns v :
  at0 st (Some 0) q b m src cmp con hist ns ->
  strict_eq v (value src) = false -> subscribers src = [0] ->
  at0 (snd (signal 0 (Some v) st)) (Some 0) (set_add 0 q) true (if b then m else S m)
      (add_subscriber 0 (with_value v src)) (add_dependency 0 cmp)
      con (EvTrack 0 0 :: hist) ns.
Proof.
  intros H Hne Hs. unfold signal. simpl snd.
  assert (E : value (sources st 0) = value src).
  { destruct H as (_ & _ & _ & _ & H5 & _). now rewrite H5. }
  rewrite E, Hne.
  apply at0_track.
  apply at0_notify; [| exact Hs]. apply at0_upd_source, H.
Qed.

Lemma cycling_step f k n st :
  cycling k n st ->
  exists st', microtask (3 + f) st = Some st' /\ cycling (k + 1) (S n) st'.
Proof.
  intros H. exists (cycling_next k st). split; [eapply cycling_flush; exact H |].
  destruct H as [H1 H2 H3 H4 H5 H6 H7 H8 H9].
  assert (Hne : strict_eq (JNum (k + 1)) (JNum k) = false).
  { simpl. apply Z.eqb_neq. lia. }
  assert (A : at0 st None [0] true 1 (mkSource (JNum k) true [0])
                (mkComp (Effect (self_writer_body 0)) [0] [] false false) []
                (history st) (next_source st)).
  { repeat split; assumption. }
  unfold cycling_next, body_state. cbv zeta.
  apply at0_set_batching with (b' := false) (m' := 0) in A.
  apply at0_dequeue with (e := 0) in A.
  apply at0_upd_comp with (g := with_running true) in A.
  apply at0_note with (ev := EvRun 0) in A.
  set (st1 := note (EvRun 0) _) in *.
  assert (C1 : currentEffect st1 = None) by apply A.
  apply at0_upd_comp with (g := clear_cleanups) in A.
  apply at0_unsubscribe in A; [| reflexivity].
  apply at0_set_currentEffect with (c := Some 0) in A.
  apply at0_read in A.
  apply at0_write with (v := JNum (k + 1)) in A; [| exact Hne | reflexivity].
  apply at0_set_currentEffect with (c := currentEffect st1) in A.
  apply at0_upd_comp with (g := with_running false) in A.
  destruct A as (A1 & A2 & A3 & A4 & A5 & A6 & A7 & A8 & A9).
  constructor.
  - exact (eq_trans A1 C1).
  - exact A2.
  - exact A3.
  - exact A4.
  - exact A5.
  - exact (eq_ind_r (fun x => 0 < x) H6 A9).
  - exact A6.
  - exact A7.
  - etransitivity; [apply (f_equal (runs_of 0) A8) |]. simpl. now rewrite H9.
Qed.

Lemma cycling_turns f : forall n k m st,
  cycling k m st ->
  exists st', turns (3 + f) n st = Some st' /\ cycling (k + Z.of_nat n) (m + n) st'.
Proof.
  induction n as [| n IH]; intros k m st H.
  - exists st. split; [reflexivity |].
    replace (k + Z.of_nat 0)%Z with k by lia. now rewrite Nat.add_0_r.
  - destruct (cycling_step f H) as (st1 & Hm & H1).
    destruct (IH _ _ _ H1) as (st' & Ht & H').
    exists st'. split.
    + change (turns (3 + f) (S n) st)
        with (match microtask (3 + f) st with
              | Some st1 => turns (3 + f) n st1
              | None => None
              end).
      rewrite Hm. exact Ht.
    + replace (k + Z.of_nat (S n))%Z with (k + 1 + Z.of_nat n)%Z by lia.
      replace (m + S n) with (S m + n) by lia. exact H'.
Qed.

Lemma cycling_start : cycling 1 1 (after 6 self_writer initial).
Proof. constructor; vm_compute; reflexivity || lia. Qed.

Lemma self_writer_turns (n : nat) :
  exists st,
    turns 6 n (after 6 self_writer initial) = Some st /\
    runs_of 0 (history st) = S n /\
    console st = [] /\
    microtasks st = 1 /\
    effectQueue st = [0] /\
    value (sources st 0) = JNum (Z.of_nat (S n)).
Proof.
  destruct (@cycling_turns 3 n 1%Z 1 _ cycling_start) as (st & Ht & H).
  exists st. destruct H as [H1 H2 H3 H4 H5 H6 H7 H8 H9].
  repeat split; try assumption.
  - rewrite H5. cbn [value]. f_equal. lia.
Qed.

Lemma self_writer_script :
  run_script 6 self_writer initial = Some (after 6 self_writer initial).
Proof.
  unfold run_script, after.
  destruct (exec 6 self_writer initial) as [[o st] |] eqn:E; [reflexivity |].
  assert (R : returns (exec 6 self_writer initial) = true) by (vm_compute; reflexivity).
  rewrite E in R. discriminate R.
Qed.

(** C2, on the code: after [const s = createSignal(0);
    createEffect(() => s(s() + 1))], every flush re-runs the effect, which
    schedules the next flush; nothing is ever skipped or reported.  The
    script returns, every one of the following flushes returns, and after any
    number [n] of them the effect has been invoked [n + 1] times, the signal
    holds [n + 1], the console is empty, and a further flush with the effect
    in its queue is pending.  This holds with any amount of fuel from 6 on. *)
Theorem self_writing_effect_reruns_on_every_flush (k n : nat) :
  exists st0 st,
    run_script (6 + k) self_writer initial = Some st0 /\
    turns (6 + k) n st0 = Some st /\
    runs_of 0 (history st) = S n /\
    console st = [] /\
    microtasks st = 1 /\
    effectQueue st = [0] /\
    value (sources st 0) = JNum (Z.of_nat (S n)).
Proof.
  destruct (self_writer_turns n) as (st & Ht & H).
  exists (after 6 self_writer initial), st.
  assert (L : 6 <= 6 + k) by lia.
  split; [exact (run_script_fuel_le _ _ L self_writer_script) |].
  split; [exact (turns_fuel_le n L _ Ht) | exact H].
Qed.

(** In a state where no computation is marked [running], which is every
    state between two steps of the public interface, a flush leaves none
    marked and never takes the cycle branch: [running] is set only around the
    call [eff()] inside the flush itself, and is cleared before the loop moves
    on. *)
Lemma flush_loop_never_reports_cycle fuel l : forall st o st',
  (forall c, In c l -> c < next_comp st) ->
  (forall c, running (comps st c) = false) ->
  flush_loop (exec fuel) l st = Some (o, st') ->
  (forall c, running (comps st' c) = false) /\
  exists msgs, console st' = console st ++ msgs /\ forall c, ~ In (CycleDetected c) msgs.
Proof.
  induction l as [| x l IH]; intros st o st' Hl Hq H; simpl in H.
  - apply ret_inv in H. destruct H as (_ & ->). split; [exact Hq |].
    exists []. split; [now rewrite app_nil_r | intros c []].
  - assert (Hx : x < next_comp st) by (apply Hl; now left).
    apply bind_inv in H. destruct H as [(a & st1 & H1 & H2) | (y & H1 & _)].
    + pose proof (@flush_one_flush_respects fuel x st _ st1 Hx H1) as ((G & _) & _).
      destruct (@flush_one_runs fuel x x st _ st1 Hx Hx H1) as (_ & Hrun & Hmsg).
      destruct (Hmsg (Hq x)) as (m1 & Hm1 & Hn1).
      destruct (IH st1 o st') as (Hq' & m2 & Hm2 & Hn2); try assumption.
      * intros c Hc. specialize (Hl c (or_intror Hc)). lia.
      * intros c. apply Hrun, Hq.
      * split; [exact Hq' |]. exists (m1 ++ m2). split.
        -- rewrite Hm2, Hm1. now rewrite app_assoc.
        -- intros c Hc. apply in_app_iff in Hc.
           destruct Hc as [Hc | Hc]; [eapply Hn1 | eapply Hn2]; eassumption.
    + destruct (@flush_one_runs fuel x x st _ st' Hx Hx H1) as (_ & Hrun & Hmsg).
      split; [intros c; apply Hrun, Hq | exact (Hmsg (Hq x))].
Qed.

(** X1.  From a state in which no computation is marked [running], neither
    user code nor a flush leaves one marked, and neither prints the
    dependency-cycle report: the guard [if (eff.running)] of the flush loop is
    never taken. *)
Theorem cycle_guard_never_fires fuel :
  (forall p st o st', (forall c, running (comps st c) = false) ->
     exec fuel p st = Some (o, st') ->
     (forall c, running (comps st' c) = false) /\
     exists msgs, console st' = console st ++ msgs /\ forall c, ~ In (CycleDetected c) msgs) /\
  (forall st st', wf st -> (forall c, running (comps st c) = false) ->
     microtask fuel st = Some st' ->
     (forall c, running (comps st' c) = false) /\
     exists msgs, console st' = console st ++ msgs /\ forall c, ~ In (CycleDetected c) msgs).
Proof.
  split.
  - intros p st o st' Hq H.
    destruct (exec_respects _ _ _ H) as (_ & _ & _ & _ & Hrun & Hmsg & _).
    split; [| exact Hmsg].
    intros c. destruct (running (comps st' c)) eqn:E; [| reflexivity].
    apply Hrun in E. now rewrite Hq in E.
  - intros st st' W Hq H. apply microtask_inv in H. destruct H as (n & ofl & _ & H).
    apply flush_loop_never_reports_cycle in H; [exact H | apply (wf_queue_valid W) | exact Hq].
Qed.

(** ** States between two tasks *)

Lemma reachable_wf st : reachable st -> wf st.
Proof.
  induction 1 as [| fuel p st o st' _ IH H | fuel st st' _ IH H].
  - apply wf_initial.
  - eapply exec_wf; eassumption.
  - eapply microtask_wf; eassumption.
Qed.

Lemma reachable_idle st :
  reachable st -> currentEffect st = None /\ forall c, running (comps st c) = false.
Proof.
  induction 1 as [| fuel p st o st' R (IHc & IHr) H | fuel st st' R (IHc & IHr) H].
  - split; reflexivity.
  - destruct (exec_respects _ _ _ H) as (_ & Hc & _ & _ & Hrun & _).
    split; [congruence |].
    intros c. destruct (running (comps st' c)) eqn:E; [| reflexivity].
    apply Hrun in E. now rewrite IHr in E.
  - pose proof (reachable_wf R) as W. split.
    + destruct stable_flush_respects as (S1 & S2).
      pose proof (microtask_T flush_respects S1 S2 fuel st st' (wf_queue_valid W) H)
        as (_ & Hc & _).
      congruence.
    + apply microtask_inv in H. destruct H as (n & ofl & _ & H).
      apply flush_loop_never_reports_cycle in H;
        [apply H | apply (wf_queue_valid W) | exact IHr].
Qed.

(** *** Whatever is queued has a flush coming *)
















(** X3.  Between two tasks every subscription is recorded on both sides, names
    a computation and a source that exist, the queue names only computations
    that exist, no computation is the ambient context and none is marked
    running. *)
Theorem dependency_graph_is_consistent st :
  reachable st ->
  (forall c s, In c (subscribers (sources st s)) <-> In s (dependencies (comps st c))) /\
  (forall c s, In c (subscribers (sources st s)) -> c < next_comp st /\ s < next_source st) /\
  (forall c, In c (effectQueue st) -> c < next_comp st) /\
  NoDup (effectQueue st) /\
  currentEffect st = None /\
  (forall c, running (comps st c) = false).
Proof.
  intros R. pose proof (reachable_wf R) as W. destruct (reachable_idle R) as (Hc & Hr).
  split; [apply (wf_edges W) |].
  split; [intros c s; now apply wf_subscriber_valid |].
  split; [apply (wf_queue_valid W) |].
  split; [apply (wf_queue_nodup W) |].
  split; assumption.
Qed.

(** ** A signal as a store *)

Lemma signal_value s arg st s' :
  value (sources (snd (signal s arg st)) s') =
  match arg with
  | Some v => if Nat.eqb s' s then v else value (sources st s')
  | None => value (sources st s')
  end.
Proof.
  unfold signal. simpl. rewrite track_value.
  destruct arg as [v |]; [| reflexivity].
  destruct (strict_eq v (value (sources st s))) eqn:E.
  - destruct (Nat.eqb_spec s' s) as [-> | Hne]; [| reflexivity].
    symmetry. now apply strict_eq_true.
  - rewrite notify_unfold.
    destruct (enqueue_all_heap (subscribers (sources (upd_source s (with_value v) st) s))
                (upd_source s (with_value v) st)) as (_ & Hs & _).
    rewrite Hs. simpl. unfold upd. destruct (Nat.eqb s' s); reflexivity.
Qed.

(** X4.  A setter call returns the value it was given and a following read
    returns it too, whether or not the write changed anything; a call on one
    signal changes the value of no other; a read changes no value at all; a
    signal just created holds its initial value, has no subscriber, and its
    creation changed no other signal.  (A write the setter takes for no change
    leaves the stored value, which is identical to the written one; the
    numbers of [jsval] are integers, so identical values are equal.) *)
Theorem signal_store_laws (s : SrcId) (v : jsval) (st : state) :
  fst (signal s (Some v) st) = v /\
  fst (signal s None (snd (signal s (Some v) st))) = v /\
  (forall arg s', s' <> s ->
     value (sources (snd (signal s arg st)) s') = value (sources st s')) /\
  (forall s', value (sources (snd (signal s None st)) s') = value (sources st s')) /\
  fst (signal s None st) = value (sources st s) /\
  (let s0 := fst (createSignal v st) in
   let st0 := snd (createSignal v st) in
   s0 = next_source st /\
   fst (signal s0 None st0) = v /\
   subscribers (sources st0 s0) = [] /\
   forall s', s' <> s0 -> sources st0 s' = sources st s').
Proof.
  split; [| split; [| split; [| split; [| split]]]].
  - rewrite signal_returns_stored, signal_value. now rewrite Nat.eqb_refl.
  - rewrite signal_returns_stored, !signal_value. now rewrite Nat.eqb_refl.
  - intros arg s' Hne. rewrite signal_value. destruct arg as [w |]; [| reflexivity].
    apply Nat.eqb_neq in Hne. now rewrite Hne.
  - intros s'. apply signal_value.
  - rewrite signal_returns_stored. apply signal_value.
  - cbv zeta. split; [reflexivity |]. split; [| split].
    + rewrite signal_returns_stored, signal_value. simpl. now rewrite upd_same.
    + simpl. now rewrite upd_same.
    + intros s' Hne. simpl. now apply upd_other.
Qed.

(** X5.  [NaN !== NaN]: a write of [NaN] is never taken for a write of the
    stored value.  It schedules every subscriber even when the signal already
    holds [NaN], and so does a memo whose function returns [NaN] on every
    recomputation; any other value written over itself schedules nothing. *)
Theorem nan_write_always_notifies (s : SrcId) (st : state) :
  (let st' := snd (signal s (Some JNaN) st) in
   value (sources st' s) = JNaN /\
   (forall c, In c (subscribers (sources st s)) -> In c (effectQueue st')) /\
   (subscribers (sources st s) <> [] -> isBatching st' = true)) /\
  (let st' := commit s JNaN st in
   value (sources st' s) = JNaN /\
   (forall c, In c (subscribers (sources st s)) -> In c (effectQueue st')) /\
   (subscribers (sources st s) <> [] -> isBatching st' = true)) /\
  (value (sources st s) <> JNaN ->
   let st' := snd (signal s (Some (value (sources st s))) st) in
   effectQueue st' = effectQueue st /\ isBatching st' = isBatching st /\
   microtasks st' = microtasks st).
Proof.
  assert (N : strict_eq JNaN (value (sources st s)) = false) by reflexivity.
  split; [| split].
  - destruct (signal_write_changed s JNaN st N) as (Hq & Hb).
    cbv zeta. split; [| split; [| exact Hb]].
    + rewrite signal_value. now rewrite Nat.eqb_refl.
    + intros c Hc. rewrite Hq. apply fold_set_add_In. now left.
  - destruct (commit_spec s JNaN st) as (_ & H).
    destruct (H (or_intror N)) as (H1 & _ & _ & H4). split; [exact H1 |]. split; [exact H4 |].
    intros Hne. unfold commit. rewrite N, orb_true_r. rewrite notify_unfold.
    apply enqueue_all_batching. simpl. now rewrite upd_same.
  - intros Hv. apply signal_write_same. now apply strict_eq_refl.
Qed.

Lemma signal_tracks s arg c st :
  currentEffect st = Some c ->
  In c (subscribers (sources (snd (signal s arg st)) s)) /\
  In s (dependencies (comps (snd (signal s arg st)) c)).
Proof.
  intros Hc. unfold signal. simpl. apply track_edge.
  destruct arg as [v |]; [| exact Hc].
  destruct (strict_eq v (value (sources st s))); [exact Hc |].
  destruct (quietly_notify s (upd_source s (with_value v) st)) as (E & _).
  rewrite E. exact Hc.
Qed.

(** X6.  The setter notifies before it subscribes the caller.  A computation
    that writes a signal it has not read in this run is therefore not
    scheduled by its own write, although it leaves the call subscribed; one
    that has read the signal first is scheduled by every write that changes
    the value. *)
Theorem write_before_read_does_not_reschedule (e : CompId) (s : SrcId) (v : jsval)
    (st : state) :
  currentEffect st = Some e -> ~ In e (effectQueue st) ->
  let st' := snd (signal s (Some v) st) in
  (~ In e (subscribers (sources st s)) -> ~ In e (effectQueue st')) /\
  (In e (subscribers (sources st s)) -> strict_eq v (value (sources st s)) = false ->
   In e (effectQueue st')) /\
  In e (subscribers (sources st' s)).
Proof.
  intros Hc Hq st'. split; [| split].
  - intros Hs Hin. unfold st' in Hin.
    destruct (strict_eq v (value (sources st s))) eqn:E.
    + destruct (signal_write_same s v st E) as (Eq & _). rewrite Eq in Hin. now apply Hq.
    + destruct (signal_write_changed s v st E) as (Eq & _). rewrite Eq in Hin.
      apply fold_set_add_In in Hin. tauto.
  - intros Hs E. unfold st'.
    destruct (signal_write_changed s v st E) as (Eq & _). rewrite Eq.
    apply fold_set_add_In. now left.
  - apply (signal_tracks s (Some v) st Hc).
Qed.

(** ** Memos: what the cache holds *)

(** X7.  Once the function of a memo has returned, the cache holds the value
    it returned, whatever the cache held before.  In particular the getter
    that [createMemo] hands out returns, right after creation, what the
    function returned on the initial computation. *)
Theorem memo_holds_what_its_function_returned (fuel : nat) :
  (forall e fn cell st st',
     memoEffect (exec fuel) e fn cell st = Some (Normal tt, st') ->
     exists st1 v st2,
       run_cleanups (exec fuel) (cleanups (comps st e)) st = Some (Normal tt, st1) /\
       exec fuel fn (body_state e st1) = Some (Normal v, st2) /\
       value (sources st' cell) = v /\ initialized (sources st' cell) = true) /\
  (forall fn st m st',
     createMemo (exec fuel) fn st = Some (Normal m, st') ->
     m = next_source st /\
     exists v st2,
       exec fuel fn (body_state (next_comp st)
                       (note (EvRun (next_comp st))
                          (snd (new_comp (Memo fn (next_source st)) (snd (new_cell st))))))
         = Some (Normal v, st2) /\
       fst (memoGetter m st') = v /\
       (currentEffect st = None -> memoGetter m st' = (v, st'))).
Proof.
  split.
  - intros e fn cell st st' H. apply memoEffect_inv in H.
    destruct H as (oc & st1 & Hc & H). destruct oc as [[] | x]; [| destruct H; discriminate].
    destruct H as (ob & st2 & Hb & H). destruct ob as [v | x]; [| destruct H; discriminate].
    destruct H as (-> & _). exists st1, v, st2.
    split; [exact Hc |]. split; [exact Hb |]. simpl. apply commit_value.
  - intros fn st m st' H. rewrite createMemo_body in H.
    set (sb := body_state _ _) in *.
    destruct (exec fuel fn sb) as [[[v | x] st2] |] eqn:E; try discriminate.
    inversion H; subst m st'. clear H. split; [reflexivity |].
    exists v, st2. split; [reflexivity |].
    destruct (commit_value (next_source st) v st2) as (Hv & _).
    split.
    + unfold memoGetter. simpl. rewrite track_value. exact Hv.
    + intros Hc. unfold memoGetter, track. simpl. rewrite Hc. simpl. now rewrite Hv.
Qed.

(** X8.  [createMemo] has no error boundary either: when the function raises
    on the initial computation, the exception leaves [createMemo] with the
    ambient context restored; no getter is returned, nothing is printed by the
    engine, and the cache is never committed.  When a later recomputation
    raises, the cache keeps what it held and no subscriber is notified. *)
Theorem createMemo_failure_escapes (fuel : nat) :
  (forall fn st x st2,
     exec fuel fn (body_state (next_comp st)
                     (note (EvRun (next_comp st))
                        (snd (new_comp (Memo fn (next_source st)) (snd (new_cell st))))))
       = Some (Raised x, st2) ->
     createMemo (exec fuel) fn st
       = Some (Raised x, set_currentEffect (currentEffect st) st2)) /\
  (forall e fn cell st st1 x st2,
     run_cleanups (exec fuel) (cleanups (comps st e)) st = Some (Normal tt, st1) ->
     exec fuel fn (body_state e st1) = Some (Raised x, st2) ->
     exists st',
       memoEffect (exec fuel) e fn cell st = Some (Raised x, st') /\
       sources st' = sources st2 /\ effectQueue st' = effectQueue st2 /\
       console st' = console st2 /\ currentEffect st' = currentEffect st1).
Proof.
  split.
  - intros fn st x st2 H. rewrite createMemo_body, H. reflexivity.
  - intros e fn cell st st1 x st2 Hc Hb.
    exists (set_currentEffect (currentEffect st1) st2). split; [| repeat split].
    unfold memoEffect. rewrite bind_gets. unfold bind at 1. rewrite Hc.
    rewrite !bind_lift, bind_gets, bind_lift.
    rewrite unsubscribe_currentEffect. simpl currentEffect.
    fold (body_state e st1). unfold finally, bind. rewrite Hb. reflexivity.
Qed.

(** ** Creation runs the function once *)

(** X9.  [createEffect] calls the function once before it returns: what it
    returns and the state it leaves are those of one call of the function,
    made with the new effect as the ambient context, an empty cleanup list and
    no dependency, followed by the restoration of the context; an exception of
    that call is the exception of [createEffect], and otherwise the disposer
    of the new computation is returned.  Neither [createEffect] nor anything
    the function does invokes the new computation a second time or a
    computation that existed before the call, whatever the function writes. *)
Theorem createEffect_runs_function_once (fuel : nat) (fn : prog) (st : state)
    (o : outcome CompId) (st' : state) :
  createEffect (exec fuel) fn st = Some (o, st') ->
  (exists ob st2,
     exec fuel fn (body_state (next_comp st)
                     (note (EvRun (next_comp st)) (snd (new_comp (Effect fn) st))))
       = Some (ob, st2) /\
     st' = set_currentEffect (currentEffect st) st2 /\
     o = match ob with
         | Normal _ => Normal (next_comp st)
         | Raised x => Raised x
         end) /\
  (forall d, o = Normal d -> d = next_comp st) /\
  next_comp st < next_comp st' /\
  body (comps st' (next_comp st)) = Effect fn /\
  exists h, history st' = h ++ history st /\
    runs_of (next_comp st) h = 1 /\
    forall c, c < next_comp st -> runs_of c h = 0.
Proof.
  intros H. split.
  { rewrite createEffect_body in H.
    destruct (exec fuel fn _) as [[[v | x] st2] |]; [| | discriminate];
      inversion H; subst; eexists _, st2; repeat split. }
  unfold createEffect in H.
  rewrite bind_lift_val, bind_lift, new_comp_fresh in H.
  set (st0 := note _ _) in H.
  assert (H0 : history st0 = EvRun (next_comp st) :: history st) by reflexivity.
  assert (Hn : next_comp st0 = S (next_comp st)) by reflexivity.
  assert (Hb : body (comps st0 (next_comp st)) = Effect fn).
  { unfold st0. simpl. now rewrite upd_same. }
  assert (R : exists o1 st1, effect (exec fuel) (next_comp st) fn st0 = Some (o1, st1) /\
                st' = st1 /\ forall d, o = Normal d -> d = next_comp st).
  { apply bind_inv in H. destruct H as [(a & st1 & H1 & H2) | (x & H1 & ->)].
    - apply ret_inv in H2. destruct H2 as (-> & ->). exists (Normal a), st1.
      split; [exact H1 |]. split; [reflexivity |].
      intros d E. inversion E. subst d. destruct a. reflexivity.
    - exists (Raised x), st'. split; [exact H1 |]. split; [reflexivity | discriminate]. }
  destruct R as (o1 & st1 & R & -> & Hd).
  apply effect_respects in R; [| lia].
  destruct R as ((G & _) & _ & Hbody & _ & _ & _ & (h & Hh & Hf)).
  split; [exact Hd |]. split; [lia |]. split; [rewrite Hbody; [exact Hb | lia] |].
  exists (h ++ [EvRun (next_comp st)]). split; [| split].
  - rewrite Hh, H0, <- app_assoc. reflexivity.
  - rewrite runs_of_app. rewrite (@runs_of_fresh (next_comp st) (next_comp st0) h Hf); [| lia].
    simpl. now rewrite Nat.eqb_refl.
  - intros c Hc. rewrite runs_of_app.
    rewrite (@runs_of_fresh c (next_comp st0) h Hf); [| lia].
    simpl. destruct (Nat.eqb_spec (next_comp st) c); [lia | reflexivity].
Qed.

(** ** Roots *)

Lemma createRoot_body fn call st :
  createRoot call fn st =
  match call (fn (next_comp st))
          (set_currentEffect (Some (next_comp st)) (snd (new_comp Root st))) with
  | Some (Normal _, st2) =>
      Some (Normal (next_comp st), set_currentEffect (currentEffect st) st2)
  | Some (Raised x, st2) =>
      if nullish x
      then Some (Raised (stack_type_error x), set_currentEffect (currentEffect st) st2)
      else Some (Normal (next_comp st),
                 set_currentEffect (currentEffect st) (log (RootFailed x) st2))
  | None => None
  end.
Proof.
  unfold createRoot. rewrite bind_lift_val, new_comp_fresh.
  unfold bind, gets, lift, finally, catch, ret, stack_or_self, raise. simpl.
  destruct (call (fn (next_comp st)) _) as [[[v | x] st2] |]; try reflexivity.
  destruct (nullish x); reflexivity.
Qed.

(** X10.  The setup function of a root runs inside an error boundary, whose
    handler prints [e.stack || e].  When the setup raises anything but [null]
    and [undefined], the exception is printed and [createRoot] still returns
    the disposer, with the ambient context restored; whatever the setup built
    before it failed (signals, computations, cleanups registered on the root)
    is left as it was at the point of failure.  When it raises [null] or
    [undefined], reading [e.stack] raises a [TypeError] inside the handler:
    that error leaves [createRoot], nothing is printed, no disposer is
    returned, and the ambient context is restored all the same.  These are
    the only ways out of [createRoot]. *)
Theorem createRoot_is_an_error_boundary (fuel : nat) :
  (forall fn st x st2,
     exec fuel (fn (next_comp st))
       (set_currentEffect (Some (next_comp st)) (snd (new_comp Root st)))
       = Some (Raised x, st2) ->
     nullish x = false ->
     let st' := set_currentEffect (currentEffect st) (log (RootFailed x) st2) in
     createRoot (exec fuel) fn st = Some (Normal (next_comp st), st') /\
     console st' = console st2 ++ [RootFailed x] /\
     comps st' = comps st2 /\ sources st' = sources st2 /\
     effectQueue st' = effectQueue st2) /\
  (forall fn st x st2,
     exec fuel (fn (next_comp st))
       (set_currentEffect (Some (next_comp st)) (snd (new_comp Root st)))
       = Some (Raised x, st2) ->
     nullish x = true ->
     let st' := set_currentEffect (currentEffect st) st2 in
     createRoot (exec fuel) fn st = Some (Raised (stack_type_error x), st') /\
     console st' = console st2 /\ currentEffect st' = currentEffect st) /\
  (forall fn st v st2,
     exec fuel (fn (next_comp st))
       (set_currentEffect (Some (next_comp st)) (snd (new_comp Root st)))
       = Some (Normal v, st2) ->
     createRoot (exec fuel) fn st
       = Some (Normal (next_comp st), set_currentEffect (currentEffect st) st2)) /\
  (forall fn st o st', createRoot (exec fuel) fn st = Some (o, st') ->
     (o = Normal (next_comp st) \/
      exists x, nullish x = true /\ o = Raised (stack_type_error x)) /\
     currentEffect st' = currentEffect st /\
     exists msgs, console st' = console st ++ msgs /\
       forall m, In m msgs -> forall c, m <> CycleDetected c).
Proof.
  split; [| split; [| split]].
  - intros fn st x st2 H Hx st'. rewrite createRoot_body, H, Hx. repeat split.
  - intros fn st x st2 H Hx st'. rewrite createRoot_body, H, Hx. repeat split.
  - intros fn st v st2 H. rewrite createRoot_body, H. reflexivity.
  - intros fn st o st' H. split; [| split].
    + rewrite createRoot_body in H.
      destruct (exec fuel (fn (next_comp st)) _) as [[[v | x] st2] |];
        [inversion H; now left | | discriminate].
      destruct (nullish x) eqn:Hx; inversion H; [right | now left].
      exists x. now split.
    + rewrite createRoot_body in H.
      destruct (exec fuel (fn (next_comp st)) _) as [[[v | x] st2] |];
        [inversion H; reflexivity | | discriminate].
      destruct (nullish x); inversion H; reflexivity.
    + apply (createRoot_T respects stable_respects (exec fuel)
               (exec_T respects stable_respects fuel)) in H.
      destruct H as (_ & _ & _ & _ & _ & (msgs & Hm & Hn) & _).
      exists msgs. split; [exact Hm |]. intros m Hin c ->. eapply Hn; eassumption.
Qed.





(** X12.  A root keeps no record of the computations made while it was the
    ambient context: when the function of a new effect starts, nothing but the
    new computation's own record, the ambient context and the history differs
    from the state before the [createEffect] call.  Accordingly the disposer
    of a root on which no cleanup has been registered only sets the root's
    [disposed] flag: every other computation, every subscriber set and the
    queue are left as they were, so the effects made inside the root keep
    running. *)
Theorem root_disposal_leaves_computations_alone (fuel : nat) (r : CompId) (st : state) :
  disposed (comps st r) = false -> cleanups (comps st r) = [] ->
  (exists st',
     dispose_root (exec fuel) r st = Some (Normal tt, st') /\
     sources st' = sources st /\ effectQueue st' = effectQueue st /\
     (forall c, c <> r -> comps st' c = comps st c) /\
     dependencies (comps st' r) = dependencies (comps st r) /\
     disposed (comps st' r) = true) /\
  (forall fn,
     let sb := body_state (next_comp st)
                 (note (EvRun (next_comp st)) (snd (new_comp (Effect fn) st))) in
     sources sb = sources st /\ effectQueue sb = effectQueue st /\
     forall c, c <> next_comp st -> comps sb c = comps st c).
Proof.
  intros Hd Hc. split.
  - exists (upd_comp r clear_cleanups (upd_comp r (with_disposed true) st)).
    split; [| split; [reflexivity | split; [reflexivity | split; [| split]]]].
    + unfold dispose_root. rewrite bind_gets, Hd, bind_lift, bind_gets.
      simpl. rewrite upd_same. simpl. rewrite Hc. simpl.
      unfold bind, ret, lift. reflexivity.
    + intros c Hne. simpl. now rewrite !upd_other.
    + simpl. now rewrite !upd_same.
    + simpl. now rewrite !upd_same.
  - intros fn sb. unfold sb, body_state, unsubscribe. simpl.
    rewrite !upd_same. simpl. repeat split.
    intros c Hne. now rewrite !upd_other.
Qed.

Lemma run_root_cleanups_single call c st v st1 :
  call c st = Some (Normal v, st1) ->
  run_root_cleanups call [c] st = Some (Normal tt, st1).
Proof. intros H. simpl. unfold bind, catch, ret. rewrite H. reflexivity. Qed.

(** X13.  Handing the disposer of an effect to [onCleanup] inside a root is
    what ties the effect to the root: when that disposer is the root's
    registered cleanup, disposing the root disposes the effect, which is then
    in no subscriber set and not in the queue. *)
Theorem registered_disposer_runs_with_root (n : nat) (r e : CompId) (fn : prog)
    (st : state) :
  wf st -> e < next_comp st -> r <> e ->
  disposed (comps st r) = false ->
  cleanups (comps st r) = [Call_dispose e (Ret JUndefined)] ->
  body (comps st e) = Effect fn -> disposed (comps st e) = false ->
  cleanups (comps st e) = [] ->
  exists st',
    dispose_root (exec (S (S n))) r st = Some (Normal tt, st') /\
    disposed (comps st' r) = true /\ cleanups (comps st' r) = [] /\
    disposed (comps st' e) = true /\ dependencies (comps st' e) = [] /\
    (forall s, ~ In e (subscribers (sources st' s))) /\
    ~ In e (effectQueue st').
Proof.
  intros W He Hne Hdr Hcr Hbe Hde Hce.
  set (st0 := upd_comp r (with_disposed true) st).
  set (st1 := upd_comp e (with_disposed true) st0).
  assert (Hde0 : disposed (comps st0 e) = false).
  { unfold st0. simpl. rewrite upd_other; [exact Hde | congruence]. }
  assert (Hbe0 : body (comps st0 e) = Effect fn).
  { unfold st0. simpl. rewrite upd_other; [exact Hbe | congruence]. }
  assert (Hce1 : cleanups (comps st1 e) = []).
  { unfold st1, st0. simpl. rewrite upd_same. simpl.
    rewrite upd_other; [exact Hce | congruence]. }
  assert (W1 : wf st1).
  { unfold st1, st0. apply wf_upd_comp; [reflexivity |].
    apply wf_upd_comp; [reflexivity | exact W]. }
  assert (Hdisp : dispose (exec (S n)) e st0 =
                  Some (Normal tt, dequeue e (unsubscribe e st1))).
  { unfold dispose. rewrite bind_gets, Hbe0. unfold dispose_effect.
    rewrite bind_gets, Hde0, bind_lift, bind_gets. fold st1. rewrite Hce1.
    simpl run_cleanups. unfold bind at 1. unfold ret at 1. rewrite bind_lift.
    reflexivity. }
  assert (Hcall : exec (S (S n)) (Call_dispose e (Ret JUndefined)) st0 =
                  Some (Normal JUndefined, dequeue e (unsubscribe e st1))).
  { rewrite exec_eq. unfold bind at 1. unfold guard.
    assert (G : (e <? next_comp st0) = true) by (apply Nat.ltb_lt; exact He).
    rewrite G. unfold bind at 1. rewrite Hdisp. reflexivity. }
  set (st2 := dequeue e (unsubscribe e st1)) in *.
  exists (upd_comp r clear_cleanups st2).
  destruct (unsubscribe_clean e st1) as (U1 & U2 & U3 & U4).
  assert (Cr : comps st2 r = comps st0 r).
  { unfold st2, unsubscribe.
    destruct (unsubscribe_fold e (dependencies (comps st1 e)) st1) as (Hc & _).
    simpl in *. rewrite Hc. rewrite upd_other; [| exact Hne].
    unfold st1. simpl. rewrite upd_other; [reflexivity | exact Hne]. }
  assert (Hrun : dispose_root (exec (S (S n))) r st =
                 Some (Normal tt, upd_comp r clear_cleanups st2)).
  { unfold dispose_root. rewrite bind_gets, Hdr, bind_lift, bind_gets. fold st0.
    assert (Ec : cleanups (comps st0 r) = cleanups (comps st r)).
    { unfold st0. simpl. now rewrite upd_same. }
    rewrite Ec, Hcr. unfold bind at 1.
    rewrite (@run_root_cleanups_single _ _ _ _ _ Hcall). reflexivity. }
  assert (Ce : comps st2 = comps (unsubscribe e st1)) by reflexivity.
  assert (Se : sources st2 = sources (unsubscribe e st1)) by reflexivity.
  assert (Qe : effectQueue st2 = set_delete e (effectQueue (unsubscribe e st1)))
    by reflexivity.
  assert (Dr : disposed (comps st0 r) = true).
  { unfold st0. simpl. now rewrite upd_same. }
  assert (De : disposed (comps st1 e) = true).
  { unfold st1. simpl. now rewrite upd_same. }
  clearbody st2. clearbody st1. clearbody st0.
  split; [exact Hrun |].
  assert (Xr : comps (upd_comp r clear_cleanups st2) r = clear_cleanups (comps st2 r))
    by (simpl; now rewrite upd_same).
  assert (Xe : comps (upd_comp r clear_cleanups st2) e = comps st2 e)
    by (simpl; rewrite upd_other; [reflexivity | congruence]).
  split; [| split; [| split; [| split; [| split]]]].
  - rewrite Xr. simpl. rewrite Cr. exact Dr.
  - rewrite Xr. reflexivity.
  - rewrite Xe, Ce, U2. exact De.
  - rewrite Xe, Ce. exact U1.
  - intros s. change (sources (upd_comp r clear_cleanups st2)) with (sources st2).
    rewrite Se. now apply U4.
  - change (effectQueue (upd_comp r clear_cleanups st2)) with (effectQueue st2).
    rewrite Qe. intros Hin. apply set_delete_In in Hin. now destruct Hin.
Qed.

(** X14.  A root that reads a signal in its setup function is subscribed like
    any computation, although it is no function.  Once a write has put it into
    the queue, the flush calls it, the [TypeError] is caught at the loop's
    error boundary and printed, and the loop goes on; the root stays
    subscribed, so this repeats with every changing write until the root is
    disposed. *)
Theorem queued_root_fails_in_flush (fuel : nat) (r : CompId) (st : state) :
  body (comps st r) = Root -> disposed (comps st r) = false ->
  running (comps st r) = false ->
  let st' := upd_comp r (with_running false)
               (log (EffectFailed (JStr "TypeError: eff is not a function"))
                  (upd_comp r (with_running true) (dequeue r st))) in
  flush_one (exec fuel) r st = Some (Normal tt, st') /\
  (forall rest, flush_loop (exec fuel) (r :: rest) st = flush_loop (exec fuel) rest st') /\
  sources st' = sources st /\
  dependencies (comps st' r) = dependencies (comps st r) /\
  console st' = console st ++ [EffectFailed (JStr "TypeError: eff is not a function")] /\
  (forall s, In r (subscribers (sources st s)) ->
     forall v, strict_eq v (value (sources st s)) = false ->
     In r (effectQueue (snd (signal s (Some v) st)))).
Proof.
  intros Hb Hd Hr st'.
  assert (Hone : flush_one (exec fuel) r st = Some (Normal tt, st')).
  { apply flush_one_catches; [exact Hd | exact Hr | | reflexivity].
    unfold invoke. rewrite bind_gets. simpl. rewrite upd_same. simpl. rewrite Hb.
    reflexivity. }
  split; [exact Hone |]. split; [| split; [reflexivity | split; [| split; [reflexivity |]]]].
  - intros rest. simpl. unfold bind at 1. rewrite Hone. reflexivity.
  - unfold st'. simpl. now rewrite !upd_same.
  - intros s Hs v Hv. destruct (signal_write_changed s v st Hv) as (Hq & _).
    rewrite Hq. apply fold_set_add_In. now left.
Qed.

(** X15.  Before its function runs again, an effect removes itself from the
    sets it subscribed to and forgets its own dependencies; it touches the
    edges and the record of no other computation.  Effects made by an earlier
    run of the function are therefore still subscribed when the next run makes
    new ones. *)
Theorem rerun_tears_down_own_edges_only (e : CompId) (st : state) :
  let sb := body_state e st in
  (forall c s, c <> e ->
     (In c (subscribers (sources sb s)) <-> In c (subscribers (sources st s)))) /\
  (forall s, ~ In s (dependencies (comps st e)) ->
     subscribers (sources sb s) = subscribers (sources st s)) /\
  (forall c, c <> e -> comps sb c = comps st c) /\
  (forall s, value (sources sb s) = value (sources st s)) /\
  effectQueue sb = effectQueue st /\
  next_comp sb = next_comp st.
Proof.
  intros sb. unfold sb, body_state, unsubscribe.
  assert (E : dependencies (comps (upd_comp e clear_cleanups st) e) =
              dependencies (comps st e)) by (simpl; now rewrite upd_same).
  rewrite E.
  destruct (unsubscribe_fold e (dependencies (comps st e)) (upd_comp e clear_cleanups st))
    as (H1 & H2 & H3 & H4 & H5 & H6 & H7 & H8 & H9 & H10 & H11).
  simpl in *. split; [| split; [| split; [| split; [| split]]]].
  - intros c s Hne. rewrite H11. tauto.
  - intros s Hs.
    assert (F : forall l st0, ~ In s l ->
      subscribers (sources (fold_left (fun acc depSet =>
        upd_source depSet (delete_subscriber e) acc) l st0) s) =
      subscribers (sources st0 s)).
    { induction l as [| d l IH]; intros st0 Hl; simpl; [reflexivity |].
      rewrite IH; [| intros H; apply Hl; now right].
      simpl. rewrite upd_other; [reflexivity |]. intros ->. apply Hl. now left. }
    rewrite (F _ _ Hs). reflexivity.
  - intros c Hne. rewrite H1. now rewrite !upd_other.
  - intros s. apply H10.
  - exact H5.
  - exact H2.
Qed.

(** End to end: the effect made inside the root runs again after the root
    has been disposed. *)
Example root_with_effect_run :
  let st0 := after 30 root_with_effect initial in
  let st1 := after 30 dispose_root_then_write st0 in
  let st2 := after_turn 30 st1 in
  body (comps st0 0) = Root /\ disposed (comps st1 0) = true /\
  subscribers (sources st1 0) = [1] /\ effectQueue st1 = [1] /\
  runs_of 1 (history st2) = 2 /\ performed st2 = [JNum 0; JNum 1].
Proof. vm_compute. repeat split. Qed.

(** End to end: two changing writes, each followed by a flush, print the
    [TypeError] twice. *)
Example root_reads_run :
  let st0 := after 30 root_reads initial in
  let st1 := after_turn 30 (writes [(0, JNum 1)] st0) in
  let st2 := after_turn 30 (writes [(0, JNum 2)] st1) in
  subscribers (sources st0 0) = [0] /\ dependencies (comps st0 0) = [0] /\
  console st1 = [EffectFailed (JStr "TypeError: eff is not a function")] /\
  console st2 = [EffectFailed (JStr "TypeError: eff is not a function");
                 EffectFailed (JStr "TypeError: eff is not a function")] /\
  subscribers (sources st2 0) = [0].
Proof. vm_compute. repeat split. Qed.

(** End to end: every run of the outer effect makes one more inner effect,
    and the earlier ones stay subscribed and keep running. *)
Example nested_effects_run :
  let st0 := after 30 nested_effects initial in
  let st1 := after_turn 30 (writes [(0, JNum 1)] st0) in
  let st2 := after_turn 30 (writes [(0, JNum 2)] st1) in
  subscribers (sources st0 0) = [0; 1] /\
  subscribers (sources st1 0) = [0; 2; 1] /\
  subscribers (sources st2 0) = [0; 3; 2; 1] /\
  performed st2 = [JNum 0; JNum 1; JNum 1; JNum 2; JNum 2; JNum 2].
Proof. vm_compute. repeat split. Qed.

(** ** The order of a flush *)

Lemma invoked_below_app n h1 h2 :
  invoked_below n (h1 ++ h2) = invoked_below n h2 ++ invoked_below n h1.
Proof.
  induction h1 as [| ev h1 IH]; simpl; [now rewrite app_nil_r |].
  destruct ev; try assumption.
  destruct (c <? n); [| assumption]. rewrite IH. now rewrite app_assoc.
Qed.

Lemma invoked_below_fresh n m h :
  (forall c, In (EvRun c) h -> m <= c) -> n <= m -> invoked_below n h = [].
Proof.
  intros Hf Hn. induction h as [| ev h IH]; simpl; [reflexivity |].
  assert (IH' : invoked_below n h = []) by (apply IH; intros c H; apply Hf; now right).
  destruct ev; try assumption.
  destruct (Nat.ltb_spec c n) as [Hlt | Hge]; [| assumption].
  specialize (Hf c (or_introl eq_refl)). lia.
Qed.

Lemma subseq_refl l : subseq l l.
Proof. induction l; constructor; assumption. Qed.

Lemma subseq_nil_l l : subseq [] l.
Proof. induction l; constructor; assumption. Qed.

Lemma subseq_In l1 l2 x : subseq l1 l2 -> In x l1 -> In x l2.
Proof.
  induction 1 as [| y l1 l2 _ IH | y l1 l2 _ IH]; intros H.
  - exact H.
  - right. now apply IH.
  - destruct H as [-> | H]; [now left | right; now apply IH].
Qed.

Lemma subseq_NoDup l1 l2 : subseq l1 l2 -> NoDup l2 -> NoDup l1.
Proof.
  induction 1 as [| y l1 l2 S IH | y l1 l2 S IH]; intros N.
  - exact N.
  - inversion N; subst. now apply IH.
  - inversion N; subst. constructor; [| now apply IH].
    intros H. apply H1. eapply subseq_In; eassumption.
Qed.

(** One iteration records at most one invocation of a computation that
    existed when the flush began: that of its own computation. *)
Lemma flush_one_invokes fuel n x st o st' :
  x < next_comp st -> n <= next_comp st ->
  flush_one (exec fuel) x st = Some (o, st') ->
  exists h, history st' = h ++ history st /\
    (invoked_below n h = [] \/ invoked_below n h = [x]).
Proof.
  intros Hx Hn H. apply flush_one_inv in H.
  destruct (disposed (comps st x)).
  { destruct H as (_ & ->). exists []. split; [reflexivity | now left]. }
  destruct (running (comps st x)).
  { destruct H as (_ & ->). exists []. split; [reflexivity | now left]. }
  destruct H as (oi & st2 & Hi & _ & ->).
  set (st1 := upd_comp x (with_running true) (dequeue x st)) in *.
  assert (H1 : history st1 = history st) by reflexivity.
  assert (N1 : next_comp st1 = next_comp st) by reflexivity.
  apply invoke_respects in Hi; [| rewrite N1; exact Hx].
  assert (Hh : exists h, history st2 = h ++ history st /\
                 (invoked_below n h = [] \/ invoked_below n h = [x])).
  { destruct (is_callable (body (comps st1 x))).
    - destruct Hi as (_ & _ & _ & _ & _ & _ & (h & Hh & Hf)).
      change (history (note (EvRun x) st1)) with (EvRun x :: history st) in Hh.
      change (next_comp (note (EvRun x) st1)) with (next_comp st1) in Hf.
      exists (h ++ [EvRun x]). split; [rewrite Hh, <- app_assoc; reflexivity |].
      rewrite invoked_below_app.
      rewrite (@invoked_below_fresh n (next_comp st1) h Hf); [| lia].
      rewrite app_nil_r. simpl. destruct (x <? n); [now right | now left].
    - destruct Hi as (-> & _). exists []. split; [exact H1 | now left]. }
  destruct Hh as (h & Hh & Hi'). exists h. split; [| exact Hi'].
  destruct oi as [a | y]; simpl; [exact Hh |]. destruct (nullish y); exact Hh.
Qed.

Lemma flush_loop_invokes fuel n l : forall st o st',
  (forall c, In c l -> c < next_comp st) -> n <= next_comp st ->
  flush_loop (exec fuel) l st = Some (o, st') ->
  exists h, history st' = h ++ history st /\ subseq (invoked_below n h) l.
Proof.
  induction l as [| x l IH]; intros st o st' Hl Hn H; simpl in H.
  - apply ret_inv in H. destruct H as (_ & ->). exists []. split; [reflexivity | constructor].
  - assert (Hx : x < next_comp st) by (apply Hl; now left).
    apply bind_inv in H. destruct H as [(a & st1 & H1 & H2) | (y & H1 & _)].
    + pose proof (@flush_one_flush_respects fuel x st _ st1 Hx H1) as ((G & _) & _).
      destruct (@flush_one_invokes fuel n x st _ st1 Hx Hn H1) as (h1 & Hh1 & Hi1).
      destruct (IH st1 o st') as (h2 & Hh2 & Hi2); [| lia | exact H2 |].
      * intros c Hc. specialize (Hl c (or_intror Hc)). lia.
      * exists (h2 ++ h1). split; [rewrite Hh2, Hh1, app_assoc; reflexivity |].
        rewrite invoked_below_app.
        destruct Hi1 as [-> | ->]; simpl; constructor; exact Hi2.
    + destruct (@flush_one_invokes fuel n x st _ st' Hx Hn H1) as (h1 & Hh1 & Hi1).
      exists h1. split; [exact Hh1 |].
      destruct Hi1 as [-> | ->]; constructor; apply subseq_nil_l.
Qed.

(** The queue is only ever extended at its end by a write: what was queued
    stays queued, in the same order. *)
Lemma signal_extends_queue s arg st :
  exists l, effectQueue (snd (signal s arg st)) = effectQueue st ++ l.
Proof.
  assert (F : forall l q, exists l', fold_left (fun q c => set_add c q) l q = q ++ l').
  { induction l as [| c l IH]; intros q; simpl; [exists []; now rewrite app_nil_r |].
    destruct (IH (set_add c q)) as (l' & Hl'). rewrite Hl'. unfold set_add.
    destruct (in_dec Nat.eq_dec c q); [now exists l' |].
    exists ([c] ++ l'). now rewrite app_assoc. }
  destruct arg as [v |].
  - destruct (strict_eq v (value (sources st s))) eqn:E.
    + destruct (signal_write_same s v st E) as (Hq & _). exists []. now rewrite app_nil_r.
    + destruct (signal_write_changed s v st E) as (Hq & _). rewrite Hq. apply F.
  - unfold signal. simpl. destruct (track_sched s st) as (Hq & _). rewrite Hq.
    exists []. now rewrite app_nil_r.
Qed.

(** X16.  A flush invokes the computations that existed when it began in the
    order in which they stood in the queue, each at most once, and it invokes
    only computations that were in the queue when it began.  A write only ever
    extends the queue at its end, so the order of the queue is the order in
    which the computations were first scheduled. *)
Theorem flush_invokes_in_queue_order (fuel : nat) :
  (forall st st', wf st -> microtask fuel st = Some st' ->
     exists h, history st' = h ++ history st /\
       subseq (invoked_below (next_comp st) h) (effectQueue st) /\
       NoDup (invoked_below (next_comp st) h)) /\
  (forall s arg st, exists l, effectQueue (snd (signal s arg st)) = effectQueue st ++ l).
Proof.
  split; [| intros s arg st; apply signal_extends_queue].
  intros st st' W H. apply microtask_inv in H. destruct H as (n & ofl & _ & H).
  apply (@flush_loop_invokes fuel (next_comp st)) in H;
    [| apply (wf_queue_valid W) | apply Nat.le_refl].
  destruct H as (h & Hh & Hs). exists h. split; [exact Hh |]. split; [exact Hs |].
  eapply subseq_NoDup; [exact Hs | apply (wf_queue_nodup W)].
Qed.

(** End to end: a change travels one memo per flush.  After [s(2)] the
    first flush recomputes [m1] and runs the effect, which sees the new [s]
    next to the old [m2]; the second flush recomputes [m2]; the third runs the
    effect again. *)
Example memo_chain_run :
  let st0 := after 30 memo_chain initial in
  let st1 := after_turn 30 (writes [(0, JNum 2)] st0) in
  let st2 := after_turn 30 st1 in
  let st3 := after_turn 30 st2 in
  performed st0 = [JNum 103] /\
  effectQueue (writes [(0, JNum 2)] st0) = [0; 2] /\
  performed st1 = [JNum 103; JNum 203] /\ effectQueue st1 = [1] /\
  performed st2 = [JNum 103; JNum 203] /\ effectQueue st2 = [2] /\
  performed st3 = [JNum 103; JNum 203; JNum 205] /\ effectQueue st3 = [] /\
  microtasks st3 = 0.
Proof. vm_compute. repeat split. Qed.

(** ** Reading after disposal *)

Lemma signal_keeps_subscribers s arg st c s' :
  In c (subscribers (sources st s')) ->
  In c (subscribers (sources (snd (signal s arg st)) s')).
Proof.
  intros H. unfold signal. simpl.
  set (st1 := match arg with
              | Some newValue =>
                  if strict_eq newValue (value (sources st s)) then st
                  else notify s (upd_source s (with_value newValue) st)
              | None => st
              end).
  assert (H1 : subscribers (sources st1 s') = subscribers (sources st s')).
  { unfold st1. destruct arg as [v |]; [| reflexivity].
    destruct (strict_eq v (value (sources st s))); [reflexivity |].
    rewrite notify_unfold.
    destruct (enqueue_all_heap (subscribers (sources (upd_source s (with_value v) st) s))
                (upd_source s (with_value v) st)) as (_ & Hs & _).
    rewrite Hs. simpl. unfold upd. destruct (Nat.eqb s' s); reflexivity. }
  unfold track. destruct (currentEffect st1) as [c0 |]; [| now rewrite H1].
  simpl. unfold upd. destruct (Nat.eqb s' s); simpl; [| now rewrite H1].
  apply set_add_In. right. now rewrite H1.
Qed.

(** X17.  Tracking does not look at [disposed].  An effect that has been
    disposed while its own function is still running is subscribed again by
    every signal it reads from then on, and nothing ever removes those edges:
    a later write that changes such a signal puts the disposed effect into the
    queue and requests a flush, the flush drops it without invoking it, and it
    is still subscribed afterwards. *)
Theorem disposed_effect_still_subscribes (fuel : nat) (e : CompId) (s : SrcId)
    (st : state) :
  currentEffect st = Some e -> disposed (comps st e) = true ->
  (let st1 := snd (signal s None st) in
   In e (subscribers (sources st1 s)) /\ In s (dependencies (comps st1 e)) /\
   disposed (comps st1 e) = true) /\
  (forall st2 v,
     In e (subscribers (sources st2 s)) -> disposed (comps st2 e) = true ->
     strict_eq v (value (sources st2 s)) = false ->
     let st3 := snd (signal s (Some v) st2) in
     In e (effectQueue st3) /\ isBatching st3 = true /\
     flush_one (exec fuel) e st3 = Some (Normal tt, dequeue e st3) /\
     In e (subscribers (sources (dequeue e st3) s)) /\
     history (dequeue e st3) = history st3).
Proof.
  intros Hc Hd. split.
  - cbv zeta. destruct (signal_tracks s None st Hc) as (H1 & H2).
    split; [exact H1 |]. split; [exact H2 |].
    destruct (quietly_signal s None st) as (_ & _ & _ & Hf & _).
    destruct (Hf e) as (_ & E & _). now rewrite E.
  - intros st2 v Hs Hd2 Hv st3.
    destruct (signal_write_changed s v st2 Hv) as (Hq & Hb).
    assert (Hd3 : disposed (comps st3 e) = true).
    { destruct (quietly_signal s (Some v) st2) as (_ & _ & _ & Hf & _).
      destruct (Hf e) as (_ & E & _). unfold st3. now rewrite E. }
    split; [| split; [| split; [| split]]].
    + unfold st3. rewrite Hq. apply fold_set_add_In. now left.
    + apply Hb. intros E. rewrite E in Hs. destruct Hs.
    + unfold flush_one. rewrite bind_lift, bind_gets. fold (dequeue e st3).
      change (comps (dequeue e st3)) with (comps st3). rewrite Hd3. reflexivity.
    + change (sources (dequeue e st3)) with (sources st3).
      unfold st3. now apply signal_keeps_subscribers.
    + reflexivity.
Qed.

(** End to end: the effect disposes itself on its second run and reads [s]
    afterwards; a later write to [s] queues it, the flush drops it, and it is
    still subscribed to [s]. *)
Example self_disposing_effect_run :
  let st0 := after 30 self_disposing_effect initial in
  let st1 := after_turn 30 (writes [(0, JBool true)] st0) in
  let st2 := writes [(1, JNum 1)] st1 in
  let st3 := after_turn 30 st2 in
  disposed (comps st1 0) = true /\ subscribers (sources st1 1) = [0] /\
  effectQueue st2 = [0] /\ microtasks st2 = 1 /\
  effectQueue st3 = [] /\ runs_of 0 (history st3) = 2 /\
  subscribers (sources st3 1) = [0].
Proof. vm_compute. repeat split. Qed.

(** ** The cycle report *)

(** X18.  No run from the initial state ever prints the dependency-cycle
    report: in every state between two tasks the console holds no such
    message. *)
Theorem cycle_report_is_never_printed st :
  reachable st -> forall c, ~ In (CycleDetected c) (console st).
Proof.
  induction 1 as [| fuel p st o st' R IH H | fuel st st' R IH H]; intros c.
  - intros [].
  - destruct (exec_respects _ _ _ H) as (_ & _ & _ & _ & _ & (msgs & Hm & Hn) & _).
    rewrite Hm, in_app_iff. intros [Hc | Hc]; [now apply (IH c) | now apply (Hn c)].
  - pose proof (reachable_wf R) as W. destruct (reachable_idle R) as (_ & Hr).
    apply microtask_inv in H. destruct H as (n & ofl & _ & H).
    apply flush_loop_never_reports_cycle in H; [| apply (wf_queue_valid W) | exact Hr].
    destruct H as (_ & msgs & Hm & Hn).
    rewrite Hm, in_app_iff. simpl. intros [Hc | Hc]; [now apply (IH c) | now apply (Hn c)].
Qed.

(** ** The statements at concrete inputs *)

Lemma signal_write_and_untracked_read_witness :
  value (sources (snd (signal 0 (Some (JNum 1)) inside_effect_0)) 0) = JNum 1 /\
  signal 0 None (snd (createSignal (JNum 0) initial))
    = (JNum 0, snd (createSignal (JNum 0) initial)).
Proof.
  destruct (signal_write_and_untracked_read 0 (JNum 1) inside_effect_0) as (_ & H & _).
  destruct (signal_write_and_untracked_read 0 (JNum 1) (snd (createSignal (JNum 0) initial)))
    as (_ & _ & H3).
  split; [apply H; reflexivity | apply H3; reflexivity].
Defined.

Lemma onCleanup_attaches_or_warns_witness :
  onCleanup (Ret JNull) initial = log CleanupOutside initial /\
  cleanups (comps (onCleanup (Ret JNull) inside_effect_0) 0)
    = cleanups (comps inside_effect_0 0) ++ [Ret JNull].
Proof.
  destruct (onCleanup_attaches_or_warns (Ret JNull) initial) as (_ & H).
  destruct (onCleanup_attaches_or_warns (Ret JNull) inside_effect_0) as (H' & _).
  split; [apply H; reflexivity | apply (H' 0); reflexivity].
Defined.

Lemma turn_returns fuel st :
  returns (microtask fuel st) = true -> microtask fuel st = Some (after_turn fuel st).
Proof.
  unfold after_turn. destruct (microtask fuel st); [reflexivity | discriminate].
Qed.






Lemma reachable_run_script fuel p st st' :
  reachable st -> run_script fuel p st = Some st' -> reachable st'.
Proof.
  intros R. unfold run_script. destruct (exec fuel p st) as [[o st1] |] eqn:E;
    [| discriminate].
  intros H. injection H as <-. eapply reach_script; [exact R | exact E].
Qed.



Lemma dependency_graph_is_consistent_witness :
  exists st, run_script 20 example_batching initial = Some st /\
    subscribers (sources st 0) = [0] /\ In 0 (dependencies (comps st 0)) /\
    currentEffect st = None.
Proof.
  destruct (run_script 20 example_batching initial) as [st |] eqn:E.
  - exists st. split; [reflexivity |].
    assert (Q : option_map (fun st => subscribers (sources st 0))
                  (run_script 20 example_batching initial) = Some [0])
      by (vm_compute; reflexivity).
    rewrite E in Q. simpl in Q. injection Q as Q. split; [exact Q |].
    destruct (@dependency_graph_is_consistent st
                (@reachable_run_script 20 example_batching initial st reach_initial E))
      as (He & _ & _ & _ & Hc & _).
    split; [| exact Hc]. apply He. rewrite Q. now left.
  - assert (R : returns (run_script 20 example_batching initial) = true)
      by (vm_compute; reflexivity).
    rewrite E in R. discriminate R.
Defined.

Lemma write_before_read_does_not_reschedule_witness :
  ~ In 0 (effectQueue (snd (signal 0 (Some (JNum 1)) inside_effect_0))) /\
  In 0 (subscribers (sources (snd (signal 0 (Some (JNum 1)) inside_effect_0)) 0)).
Proof.
  destruct (@write_before_read_does_not_reschedule 0 0 (JNum 1) inside_effect_0
              eq_refl (fun H => H)) as (H1 & _ & H3).
  split; [apply H1; intros H; exact H | exact H3].
Defined.

Lemma createEffect_runs_function_once_witness :
  match createEffect (exec 30) (Call_signal 0 (Some (JNum 1)) (fun _ => Ret JUndefined))
          (snd (createSignal (JNum 0) initial)) with
  | Some (o, st') =>
      (exists ob st2,
         exec 30 (Call_signal 0 (Some (JNum 1)) (fun _ => Ret JUndefined))
           (body_state 0
              (note (EvRun 0)
                 (snd (new_comp
                         (Effect (Call_signal 0 (Some (JNum 1)) (fun _ => Ret JUndefined)))
                         (snd (createSignal (JNum 0) initial))))))
           = Some (ob, st2) /\
         st' = set_currentEffect None st2) /\
      body (comps st' 0) = Effect (Call_signal 0 (Some (JNum 1)) (fun _ => Ret JUndefined)) /\
      exists h, history st' = h ++ history (snd (createSignal (JNum 0) initial)) /\
                runs_of 0 h = 1
  | None => False
  end.
Proof.
  destruct (createEffect (exec 30) (Call_signal 0 (Some (JNum 1)) (fun _ => Ret JUndefined))
              (snd (createSignal (JNum 0) initial))) as [[o st'] |] eqn:E.
  - destruct (@createEffect_runs_function_once 30 _ _ _ _ E)
      as ((ob & st2 & Hx & Hs & _) & _ & _ & Hb & h & Hh & Hr & _).
    split; [exists ob, st2; split; [exact Hx | exact Hs] |].
    split; [exact Hb |]. exists h. split; [exact Hh | exact Hr].
  - assert (R : returns (createEffect (exec 30)
                           (Call_signal 0 (Some (JNum 1)) (fun _ => Ret JUndefined))
                           (snd (createSignal (JNum 0) initial))) = true)
      by (vm_compute; reflexivity).
    rewrite E in R. discriminate R.
Defined.

Lemma memo_holds_what_its_function_returned_witness :
  match createMemo (exec 30) (Call_signal 0 None (fun v => Ret v))
          (snd (createSignal (JNum 2) initial)) with
  | Some (Normal m, st') => m = 1 /\ memoGetter m st' = (JNum 2, st')
  | _ => False
  end.
Proof.
  destruct (createMemo (exec 30) (Call_signal 0 None (fun v => Ret v))
              (snd (createSignal (JNum 2) initial))) as [[[m | x] st'] |] eqn:E.
  - destruct (proj2 (memo_holds_what_its_function_returned 30) _ _ _ _ E)
      as (Hm & v & st2 & Hv & _ & Hg).
    split; [exact Hm |].
    assert (Q : option_map fst
                  (exec 30 (Call_signal 0 None (fun v => Ret v))
                     (body_state (next_comp (snd (createSignal (JNum 2) initial)))
                        (note (EvRun (next_comp (snd (createSignal (JNum 2) initial))))
                           (snd (new_comp
                                   (Memo (Call_signal 0 None (fun v => Ret v))
                                      (next_source (snd (createSignal (JNum 2) initial))))
                                   (snd (new_cell (snd (createSignal (JNum 2) initial))))))))) =
                Some (Normal (JNum 2))) by (vm_compute; reflexivity).
    rewrite Hv in Q. simpl in Q. injection Q as Q. rewrite <- Q. apply Hg. reflexivity.
  - assert (R : option_map fst (createMemo (exec 30) (Call_signal 0 None (fun v => Ret v))
                                  (snd (createSignal (JNum 2) initial))) = Some (Normal 1))
      by (vm_compute; reflexivity).
    rewrite E in R. discriminate R.
  - assert (R : returns (createMemo (exec 30) (Call_signal 0 None (fun v => Ret v))
                           (snd (createSignal (JNum 2) initial))) = true)
      by (vm_compute; reflexivity).
    rewrite E in R. discriminate R.
Defined.

Lemma createMemo_failure_escapes_witness :
  createMemo (exec 5) (Throw (JStr "boom")) initial
  = Some (Raised (JStr "boom"),
          set_currentEffect (currentEffect initial)
            (body_state 0
               (note (EvRun 0)
                  (snd (new_comp (Memo (Throw (JStr "boom")) 0) (snd (new_cell initial))))))).
Proof.
  exact (proj1 (createMemo_failure_escapes 5) (Throw (JStr "boom")) initial (JStr "boom") _
           eq_refl).
Defined.

Lemma createRoot_is_an_error_boundary_witness :
  createRoot (exec 5) (fun _ => Throw (JStr "boom")) initial
  = Some (Normal 0,
          set_currentEffect None
            (log (RootFailed (JStr "boom"))
               (set_currentEffect (Some 0) (snd (new_comp Root initial))))) /\
  createRoot (exec 5) (fun _ => Throw JUndefined) initial
  = Some (Raised (stack_type_error JUndefined),
          set_currentEffect None
            (set_currentEffect (Some 0) (snd (new_comp Root initial)))).
Proof.
  split.
  - exact (proj1 (proj1 (createRoot_is_an_error_boundary 5) (fun _ => Throw (JStr "boom"))
                    initial (JStr "boom") _ eq_refl eq_refl)).
  - exact (proj1 (proj1 (proj2 (createRoot_is_an_error_boundary 5))
                    (fun _ => Throw JUndefined) initial JUndefined _ eq_refl eq_refl)).
Defined.


Lemma root_disposal_leaves_computations_alone_witness :
  exists st',
    dispose_root (exec 30) 0 (after 30 root_with_effect initial) = Some (Normal tt, st') /\
    sources st' = sources (after 30 root_with_effect initial) /\
    comps st' 1 = comps (after 30 root_with_effect initial) 1.
Proof.
  assert (Hd : disposed (comps (after 30 root_with_effect initial) 0) = false)
    by (vm_compute; reflexivity).
  assert (Hc : cleanups (comps (after 30 root_with_effect initial) 0) = [])
    by (vm_compute; reflexivity).
  destruct (@root_disposal_leaves_computations_alone 30 0
              (after 30 root_with_effect initial) Hd Hc)
    as ((st' & H1 & H2 & _ & H4 & _) & _).
  exists st'. split; [exact H1 |]. split; [exact H2 |]. apply H4. discriminate.
Defined.

Lemma queued_root_fails_in_flush_witness :
  exists st',
    flush_one (exec 30) 0 (writes [(0, JNum 1)] (after 30 root_reads initial))
      = Some (Normal tt, st') /\
    console st'
      = console (writes [(0, JNum 1)] (after 30 root_reads initial))
        ++ [EffectFailed (JStr "TypeError: eff is not a function")] /\
    sources st' = sources (writes [(0, JNum 1)] (after 30 root_reads initial)).
Proof.
  assert (Hb : body (comps (writes [(0, JNum 1)] (after 30 root_reads initial)) 0) = Root)
    by (vm_compute; reflexivity).
  assert (Hd : disposed (comps (writes [(0, JNum 1)] (after 30 root_reads initial)) 0) = false)
    by (vm_compute; reflexivity).
  assert (Hr : running (comps (writes [(0, JNum 1)] (after 30 root_reads initial)) 0) = false)
    by (vm_compute; reflexivity).
  destruct (@queued_root_fails_in_flush 30 0
              (writes [(0, JNum 1)] (after 30 root_reads initial)) Hb Hd Hr)
    as (H1 & _ & H3 & _ & H5 & _).
  eexists. split; [exact H1 |]. split; [exact H5 | exact H3].
Defined.

Lemma flush_invokes_in_queue_order_witness :
  match microtask 30 (writes [(0, JNum 1)] (after 30 nested_effects initial)) with
  | Some st' =>
      exists h,
        history st' = h ++ history (writes [(0, JNum 1)] (after 30 nested_effects initial)) /\
        subseq (invoked_below
                  (next_comp (writes [(0, JNum 1)] (after 30 nested_effects initial))) h)
          (effectQueue (writes [(0, JNum 1)] (after 30 nested_effects initial)))
  | None => False
  end.
Proof.
  assert (W : wf (writes [(0, JNum 1)] (after 30 nested_effects initial))).
  { apply writes_wf; [| apply after_wf, wf_initial].
    intros w [<- | []]. vm_compute. reflexivity. }
  destruct (microtask 30 (writes [(0, JNum 1)] (after 30 nested_effects initial)))
    as [st' |] eqn:E.
  - destruct (proj1 (flush_invokes_in_queue_order 30) _ _ W E) as (h & Hh & Hs & _).
    exists h. split; [exact Hh | exact Hs].
  - assert (R : returns (microtask 30 (writes [(0, JNum 1)] (after 30 nested_effects initial)))
                = true) by (vm_compute; reflexivity).
    rewrite E in R. discriminate R.
Defined.

Lemma registered_disposer_runs_with_root_witness :
  exists st',
    dispose_root (exec 30) 0 (after 30 root_owning_effect initial) = Some (Normal tt, st') /\
    disposed (comps st' 1) = true /\
    (forall s, ~ In 1 (subscribers (sources st' s))).
Proof.
  assert (W : wf (after 30 root_owning_effect initial)) by apply after_wf, wf_initial.
  assert (He : 1 < next_comp (after 30 root_owning_effect initial))
    by (vm_compute; repeat constructor).
  assert (Hdr : disposed (comps (after 30 root_owning_effect initial) 0) = false)
    by (vm_compute; reflexivity).
  assert (Hcr : cleanups (comps (after 30 root_owning_effect initial) 0)
                = [Call_dispose 1 (Ret JUndefined)]) by (vm_compute; reflexivity).
  assert (Hbe : body (comps (after 30 root_owning_effect initial) 1)
                = Effect (Call_signal 0 None (fun _ => Ret JUndefined)))
    by (vm_compute; reflexivity).
  assert (Hde : disposed (comps (after 30 root_owning_effect initial) 1) = false)
    by (vm_compute; reflexivity).
  assert (Hce : cleanups (comps (after 30 root_owning_effect initial) 1) = [])
    by (vm_compute; reflexivity).
  assert (Hne : 0 <> 1) by discriminate.
  destruct (@registered_disposer_runs_with_root 28 0 1
              (Call_signal 0 None (fun _ => Ret JUndefined))
              (after 30 root_owning_effect initial) W He Hne Hdr Hcr Hbe Hde Hce)
    as (st' & H1 & _ & _ & H4 & _ & H6 & _).
  exists st'. split; [exact H1 |]. split; [exact H4 | exact H6].
Defined.

Lemma disposed_effect_still_subscribes_witness :
  In 0 (subscribers (sources (snd (signal 0 None disposed_inside_effect_0)) 0)) /\
  disposed (comps (snd (signal 0 None disposed_inside_effect_0)) 0) = true.
Proof.
  destruct (proj1 (@disposed_effect_still_subscribes 0 0 0 disposed_inside_effect_0
                     eq_refl eq_refl)) as (H1 & _ & H3).
  split; [exact H1 | exact H3].
Defined.

Lemma reachable_turns fuel n : forall st st',
  reachable st -> turns fuel n st = Some st' -> reachable st'.
Proof.
  induction n as [| n IH]; intros st st' R H; simpl in H.
  - injection H as <-. exact R.
  - destruct (microtask fuel st) as [st1 |] eqn:E; [| discriminate].
    apply (IH st1 st'); [| exact H]. eapply reach_turn; eassumption.
Qed.

Lemma cycle_report_is_never_printed_witness :
  exists st, turns 6 3 (after 6 self_writer initial) = Some st /\
    ~ In (CycleDetected 0) (console st).
Proof.
  destruct (turns 6 3 (after 6 self_writer initial)) as [st |] eqn:E.
  - exists st. split; [reflexivity |].
    apply (@cycle_report_is_never_printed st).
    apply (@reachable_turns 6 3 (after 6 self_writer initial) st); [| exact E].
    apply (@reachable_run_script 6 self_writer initial _ reach_initial self_writer_script).
  - exfalso.
    assert (R : returns (turns 6 3 (after 6 self_writer initial)) = true)
      by (vm_compute; reflexivity).
    rewrite E in R. discriminate R.
Defined.
